(** * Lager: specification aggregation, hook bus and deployment commands

    A shallow embedding of the parts of the Lager sources that load and
    merge specification fragments, dispatch plugin hooks, deploy Lambdas
    and publish APIs, followed by the properties proved about them.

    Conventions of the embedding:
    - JavaScript strings are [string]; [path.sep] is the POSIX separator.
    - A settled bluebird promise is a value of [promise]: the chain of
      [.then] / [.spread] / [.catch] handlers is sequential composition
      on settled outcomes.
    - JSON documents are the nested inductive [value]; a JavaScript object
      is an association list in insertion order, read with [lookup]. *)

From Stdlib Require Import String Ascii List ZArith Bool Arith Lia DecimalString.
From Equations Require Import Equations.
Import ListNotations.
Set Warnings "-register-all".
Local Open Scope string_scope.
Local Open Scope list_scope.

(* ===================================================================== *)
(** ** JavaScript strings and Node's [path] module (POSIX flavour)        *)
(* ===================================================================== *)

Module Js.

(** [s.split(sep)] for a one-character separator: never returns the
    empty array, [''.split('/')] is [['']]. *)
Fixpoint split (sep : ascii) (s : string) : list string :=
  match s with
  | EmptyString => [EmptyString]
  | String c s' =>
      if Ascii.eqb c sep then EmptyString :: split sep s'
      else match split sep s' with
           | [] => [String c EmptyString]
           | w :: ws => String c w :: ws
           end
  end.

(** [arr.join(sep)] on an array of strings. *)
Definition join (sep : string) (l : list string) : string := String.concat sep l.

(** [s.substr(n)]: the suffix of [s] from index [n]. *)
Fixpoint substr (n : nat) (s : string) : string :=
  match n, s with
  | O, _ => s
  | S n', String _ s' => substr n' s'
  | S _, EmptyString => EmptyString
  end.

(** [arr.pop()] as a pure function: the last element (or [None], the
    [undefined] of an empty array) and the array without it. *)
Definition pop {A} (l : list A) : option A * list A :=
  match rev l with
  | [] => (None, [])
  | x :: r => (Some x, rev r)
  end.

(** [arr.indexOf(x) !== -1] on an array of strings. *)
Definition includes (x : string) (l : list string) : bool :=
  existsb (String.eqb x) l.

Definition upper_ascii (c : ascii) : ascii :=
  let n := nat_of_ascii c in
  if ((97 <=? n) && (n <=? 122))%nat then ascii_of_nat (n - 32) else c.

(** The string holds ASCII characters only. *)
Definition isAscii (s : string) : bool :=
  forallb (fun c => (nat_of_ascii c <? 128)%nat) (list_ascii_of_string s).

(** The names that every object inherits from [Object.prototype]:
    [obj[name]] is defined for them although [obj] has no such property
    of its own. All are functions, except [__proto__], which is the
    prototype object itself. *)
Definition inheritedNames : list string :=
  ["constructor"; "__defineGetter__"; "__defineSetter__"; "hasOwnProperty";
   "__lookupGetter__"; "__lookupSetter__"; "isPrototypeOf";
   "propertyIsEnumerable"; "toString"; "valueOf"; "__proto__"; "toLocaleString"].

Definition inherited (name : string) : bool := includes name inheritedNames.

(** [s.toUpperCase()] for a string of ASCII characters ([isAscii]): the
    letters [a] to [z] are mapped to [A] to [Z]. The characters outside
    the ASCII range are left as they are, which is not what JavaScript
    does with an accented letter: a statement about arbitrary strings
    holds for the code on the strings that are [isAscii]. *)
Fixpoint toUpperCase (s : string) : string :=
  match s with
  | EmptyString => EmptyString
  | String c s' => String (upper_ascii c) (toUpperCase s')
  end.

(** Truthiness of a string: only the empty string is falsy. *)
Definition truthy_string (s : string) : bool := negb (s =? "").

Definition sep : string := "/".
Definition sep_char : ascii := "/"%char.

Definition starts_with_sep (p : string) : bool :=
  match p with
  | String c _ => Ascii.eqb c sep_char
  | EmptyString => false
  end.

Fixpoint ends_with_sep (p : string) : bool :=
  match p with
  | EmptyString => false
  | String c EmptyString => Ascii.eqb c sep_char
  | String _ p' => ends_with_sep p'
  end.

(** One step of Node's [normalizeString]: [acc] is the stack of kept
    segments, most recent first. *)
Definition normalizeStep (allowAboveRoot : bool) (acc : list string) (seg : string)
  : list string :=
  if (seg =? "") || (seg =? ".") then acc
  else if seg =? ".." then
    match acc with
    | top :: rest =>
        if top =? ".." then (if allowAboveRoot then ".." :: acc else acc)
        else rest
    | [] => if allowAboveRoot then [".."] else []
    end
  else seg :: acc.

Definition normalizeString (p : string) (allowAboveRoot : bool) : string :=
  join sep (rev (fold_left (normalizeStep allowAboveRoot) (split sep_char p) [])).

(** [path.normalize(p)] *)
Definition normalize (p : string) : string :=
  if p =? "" then "."
  else
    let isAbsolute := starts_with_sep p in
    let trailingSeparator := ends_with_sep p in
    let q := normalizeString p (negb isAbsolute) in
    let q := if (q =? "") && negb isAbsolute then "." else q in
    let q := if negb (q =? "") && trailingSeparator then (q ++ sep)%string else q in
    if isAbsolute then (sep ++ q)%string else q.

(** [path.join(...parts)]: empty arguments are dropped, the rest is
    joined with the separator and normalized. *)
Definition path_join (parts : list string) : string :=
  let joined := join sep (filter truthy_string parts) in
  if joined =? "" then "." else normalize joined.

(** [path.basename(p)]: the last non-empty segment of [p]. *)
Definition basename (p : string) : string :=
  last (filter truthy_string (split sep_char p)) "".

End Js.

(* ===================================================================== *)
(** ** JSON documents and lodash's [_.merge]                              *)
(* ===================================================================== *)

Module Lodash.

#[local] Unset Elimination Schemes.

(** A JSON-compatible document value. Numbers are carried as integers:
    the code under study only copies and compares them. *)
Inductive value : Type :=
| VNull
| VBool (b : bool)
| VNum (n : Z)
| VStr (s : string)
| VArr (items : list value)
| VObj (fields : list (string * value)).

#[local] Set Elimination Schemes.

(** Induction over documents, with the hypothesis available for every
    array item and every property value. *)
Section ValueInduction.
Variable P : value -> Prop.
Hypothesis Hnull : P VNull.
Hypothesis Hbool : forall b, P (VBool b).
Hypothesis Hnum : forall n, P (VNum n).
Hypothesis Hstr : forall s, P (VStr s).
Hypothesis Harr : forall items, Forall P items -> P (VArr items).
Hypothesis Hobj : forall fields, Forall (fun kv => P (snd kv)) fields -> P (VObj fields).

Fixpoint value_ind (v : value) : P v :=
  match v with
  | VNull => Hnull
  | VBool b => Hbool b
  | VNum n => Hnum n
  | VStr s => Hstr s
  | VArr items =>
      Harr items
        ((fix items_ind (l : list value) : Forall P l :=
            match l with
            | [] => Forall_nil P
            | x :: l' => Forall_cons x (value_ind x) (items_ind l')
            end) items)
  | VObj fields =>
      Hobj fields
        ((fix fields_ind (l : list (string * value)) : Forall (fun kv => P (snd kv)) l :=
            match l with
            | [] => Forall_nil _
            | kv :: l' => Forall_cons kv (value_ind (snd kv)) (fields_ind l')
            end) fields)
  end.
End ValueInduction.

(** A JavaScript plain object: own enumerable properties in insertion
    order (the engine lists integer-like keys first; the order of the
    keys is not observable through [lookup]). *)
Definition obj : Type := list (string * value).

(** [object[key]]; [None] is [undefined]. *)
Fixpoint lookup (key : string) (o : obj) : option value :=
  match o with
  | [] => None
  | (k, v) :: o' => if k =? key then Some v else lookup key o'
  end.

(** [object[key] = v]: overwrite in place, or append a new property. *)
Fixpoint assign (key : string) (v : value) (o : obj) : obj :=
  match o with
  | [] => [(key, v)]
  | (k, w) :: o' => if k =? key then (k, v) :: o' else (k, w) :: assign key v o'
  end.

Definition keys (o : obj) : list string := map fst o.

(** [_.cloneDeep]: a structurally equal copy; aliasing is not observable
    in this embedding, so the copy is the value itself. *)
Definition cloneDeep {A : Type} (v : A) : A := v.

(** [_.isObject] on documents: mappings and sequences. *)
Definition isObject (v : value) : bool :=
  match v with
  | VArr _ | VObj _ => true
  | _ => false
  end.

(** The source properties that [_.merge] passes over. For a source
    value that is a mapping or a sequence, [baseMergeDeep] reads both
    sides through [safeGet], which answers [undefined] for the key
    [__proto__]: nothing is merged, and [assignMergeValue] stores nothing
    because ['__proto__' in object] holds for every object. (Before
    [safeGet] existed, the merge went into [Object.prototype]; the
    destination received no property of its own either.) A scalar under
    [__proto__] is stored like any other scalar, through
    [Object.defineProperty] (lodash 4.17). *)
Definition passedOver (key : string) (srcValue : value) : bool :=
  (key =? "__proto__") && isObject srcValue.

Section Merge.

(** What lodash stores when the source holds a container and the
    destination already holds a value of another container kind (a
    sequence arriving on a mapping or on a string, a mapping arriving on
    a sequence). lodash 3 and lodash 4 differ there, the result may be
    an array carrying named properties, and the sources do not pin the
    version: the case is a parameter of the embedding. *)
Variable clash : value -> value -> value.

(** [baseMergeDeep] together with the scalar branch of [baseMerge]:
    the value stored under a key whose current value is [objValue]
    ([None] for a missing key) when the source holds [srcValue].
    - a scalar source value is assigned;
    - a source array is merged index by index into a destination array,
      or into a fresh [[]];
    - a source plain object is merged key by key into a destination
      object, or into a fresh [{}], except for the properties that are
      [passedOver]. *)
Fixpoint mergeDeep (objValue : option value) (srcValue : value) {struct srcValue}
  : value :=
  match srcValue with
  | VArr srcItems =>
      let mergeItems :=
        fix mergeItems (dst : list value) (src : list value) {struct src} : list value :=
          match src with
          | [] => dst
          | s :: src' =>
              match dst with
              | [] => mergeDeep None s :: mergeItems [] src'
              | d :: dst' => mergeDeep (Some d) s :: mergeItems dst' src'
              end
          end in
      match objValue with
      | Some (VArr dstItems) => VArr (mergeItems dstItems srcItems)
      | Some (VStr s) => clash (VStr s) srcValue
      | Some (VObj o) => clash (VObj o) srcValue
      | _ => VArr (mergeItems [] srcItems)
      end
  | VObj srcFields =>
      let mergeFields :=
        fix mergeFields (dst : obj) (src : obj) {struct src} : obj :=
          match src with
          | [] => dst
          | (k, s) :: src' =>
              if passedOver k s then mergeFields dst src'
              else mergeFields (assign k (mergeDeep (lookup k dst) s) dst) src'
          end in
      match objValue with
      | Some (VObj dstFields) => VObj (mergeFields dstFields srcFields)
      | Some (VArr a) => clash (VArr a) srcValue
      | _ => VObj (mergeFields [] srcFields)
      end
  | _ => srcValue
  end.

(** Index-wise merge of a source array into a destination array. *)
Fixpoint mergeItems (dst src : list value) {struct src} : list value :=
  match src with
  | [] => dst
  | s :: src' =>
      match dst with
      | [] => mergeDeep None s :: mergeItems [] src'
      | d :: dst' => mergeDeep (Some d) s :: mergeItems dst' src'
      end
  end.

(** [_.merge(object, source)] on plain objects ([baseMerge]): every
    source key, in order, is merged into the destination, except for
    the properties that are [passedOver]. *)
Fixpoint merge (object source : obj) {struct source} : obj :=
  match source with
  | [] => object
  | (k, s) :: source' =>
      if passedOver k s then merge object source'
      else merge (assign k (mergeDeep (lookup k object) s) object) source'
  end.

End Merge.

(** The documents that [_.merge] copies as they are: at every level the
    keys are unique (what a parsed JSON document satisfies) and no
    mapping or sequence sits under the key [__proto__], which [_.merge]
    passes over. *)
Fixpoint wf (v : value) : Prop :=
  match v with
  | VArr items => (fix all (l : list value) : Prop :=
                     match l with [] => True | x :: l' => wf x /\ all l' end) items
  | VObj fields =>
      NoDup (map fst fields) /\
      (fix all (l : list (string * value)) : Prop :=
         match l with
         | [] => True
         | (k, x) :: l' => passedOver k x = false /\ wf x /\ all l'
         end) fields
  | _ => True
  end.

Definition wf_obj (o : obj) : Prop := wf (VObj o).

Definition is_scalar (v : value) : bool :=
  match v with
  | VArr _ | VObj _ => false
  | _ => true
  end.

(** The mapping [o] holds a property [key] that [_.merge] does not pass
    over. *)
Definition sets (key : string) (o : obj) : bool :=
  existsb (fun kv => (fst kv =? key) && negb (passedOver (fst kv) (snd kv))) o.

End Lodash.

(* ===================================================================== *)
(** ** Errors and settled promises                                        *)
(* ===================================================================== *)

Module Async.

(** The fields of a JavaScript [Error] that the code inspects:
    [e.code], [e.path] and [e.cause.message]. *)
Record error : Type := mkError {
  error_name : string;
  code : option string;
  path : option string;
  cause_message : option string
}.

(** The outcome of a settled promise. *)
Inductive promise (A : Type) : Type :=
| Resolved (a : A)
| Rejected (e : error).
Arguments Resolved {A} a.
Arguments Rejected {A} e.

(** [p.then(k)] on a settled promise: a rejection skips the handler. *)
Definition bind {A B} (p : promise A) (k : A -> promise B) : promise B :=
  match p with
  | Resolved a => k a
  | Rejected e => Rejected e
  end.

(** [p.catch(h)] *)
Definition catch {A} (p : promise A) (h : error -> promise A) : promise A :=
  match p with
  | Resolved a => Resolved a
  | Rejected e => h e
  end.

(** [Promise.all(ps)] on settled promises: the array of results when
    every promise is resolved, a rejection otherwise. The embedding has
    no time: of several rejections it keeps the first in array order,
    where the promise library keeps the one that comes first in time.
    What is said of a rejection by name holds for the code when at most
    one promise is rejected, or when the rejections carry the same
    error. *)
Fixpoint all {A} (ps : list (promise A)) : promise (list A) :=
  match ps with
  | [] => Resolved []
  | Resolved a :: ps' =>
      match all ps' with
      | Resolved l => Resolved (a :: l)
      | Rejected e => Rejected e
      end
  | Rejected e :: _ => Rejected e
  end.

(** A synchronous computation that returns or throws. *)
Definition result (A : Type) : Type := (error + A)%type.

(** A handler that throws rejects the promise of the chain. *)
Definition of_result {A} (r : result A) : promise A :=
  match r with
  | inl e => Rejected e
  | inr a => Resolved a
  end.

Definition eq_code (e : error) (c : string) : bool :=
  match code e with
  | Some c' => c' =? c
  | None => false
  end.

(** The [TypeError] of [path.basename(undefined)] and of
    [path.join(dir, undefined)]. *)
Definition typeError : error :=
  {| error_name := "TypeError"; code := None; path := None; cause_message := None |}.

(** The error of [fs.statSync] / [fs.readdir] on a missing path. *)
Definition enoent (p : string) : error :=
  {| error_name := "Error"; code := Some "ENOENT"; path := Some p; cause_message := None |}.

(** [Promise.map(items, mapper)] in a module that does not require
    bluebird: [Promise] is then the constructor built into the engine,
    which has no property [map], and the call throws a [TypeError]
    before [mapper] is applied to any item. [S] is the state that
    [mapper] would act on. *)
Definition builtinPromiseMap {S A B : Type} (items : list A)
    (mapper : A -> S -> S * promise B) (s : S) : S * result (promise (list B)) :=
  (s, inl typeError).

End Async.

Declare Scope promise_scope.
Delimit Scope promise_scope with promise.
Notation "x <- p ;; k" := (Async.bind p (fun x => k))
  (at level 61, p at next level, right associativity) : promise_scope.

(* ===================================================================== *)
(** ** The hook bus: [Lager.prototype.fire] (src/lib/lager.js)            *)
(* ===================================================================== *)

Module Lager.
Import Async.

Definition inspect {A} (a : A) : {b : A | a = b} := exist _ a eq_refl.

Section Bus.

(** The type of the values passed to hooks. *)
Variable A : Type.

(** A hook receives the argument list and returns the promise of an
    argument list. *)
Definition hook : Type := list A -> promise (list A).

(** A registered plugin: [plugin.name] and the optional [plugin.hooks]
    object, a map from event names to functions. *)
Record plugin : Type := mkPlugin {
  name : string;
  hooks : option (list (string * hook))
}.

(** What [fire] obtains when it takes a member inherited from
    [Object.prototype] for a hook and calls it:
    [hooks[eventName].apply(plugin, args).spread(...)]. The functions of
    [Object.prototype] return a string, a boolean, [undefined], the
    plugin or an object made from the first argument, and [__proto__] is
    not a function: with plugins and arguments that have no method
    [spread], the expression throws a [TypeError]. [fire] throws it to
    its caller when no hook has run before, and rejects with it when it
    is thrown in the continuation of an earlier hook; both are
    [Rejected typeError] here. *)
Definition inheritedMember : hook := fun _ => Rejected typeError.

(** [plugin.hooks && plugin.hooks[eventName]]: the property access
    follows the prototype chain of the [hooks] object, so that a name of
    [Object.prototype] is found on every [hooks] object, whether the
    plugin declares it or not. *)
Definition hookOf (p : plugin) (eventName : string) : option hook :=
  match hooks p with
  | None => None
  | Some hs =>
      match find (fun kh => fst kh =? eventName) hs with
      | Some kh => Some (snd kh)
      | None => if Js.inherited eventName then Some inheritedMember else None
      end
  end.

(** The plugin declares a hook for the event: its [hooks] object has a
    property of that name of its own. *)
Definition declares (eventName : string) (p : plugin) : bool :=
  match hooks p with
  | None => false
  | Some hs => existsb (fun kh => fst kh =? eventName) hs
  end.

(** One hook invocation: the plugin called and the arguments it
    received (the trace of the commented-out [console.log('call ...')]). *)
Definition invocation : Type := (string * list A)%type.

Variable plugins : list plugin.
Variable eventName : string.

(** The recursive function of [fire]: the invocations made from plugin
    [i] on, and the outcome. *)
Equations? callPluginsSequencialy (i : nat) (args : list A)
  : list invocation * promise (list A) by wf (length plugins - i) lt :=
  callPluginsSequencialy i args with inspect (nth_error plugins i) => {
    | exist _ None _ := ([], Resolved args);
    | exist _ (Some p) Hp with hookOf p eventName => {
        | Some h with h args => {
            | Resolved args' :=
                let r := callPluginsSequencialy (i + 1) args' in
                ((name p, args) :: fst r, snd r);
            | Rejected e := ([(name p, args)], Rejected e) };
        | None := callPluginsSequencialy (i + 1) args } }.
Proof.
  all: assert (i < length plugins) by (apply nth_error_Some; congruence); lia.
Qed.

(** [fire(eventName, ...args)] with its trace of invocations. *)
Definition fireTraced (args : list A) : list invocation * promise (list A) :=
  callPluginsSequencialy 0 args.

End Bus.

Arguments mkPlugin {A} name hooks.
Arguments name {A} p.
Arguments hooks {A} p.
Arguments hookOf {A} p eventName.
Arguments declares {A} eventName p.
Arguments inheritedMember {A}.

(** [lager.fire(eventName, ...args)] *)
Definition fire {A} (plugins : list (plugin A)) (eventName : string) (args : list A)
  : promise (list A) :=
  snd (fireTraced A plugins eventName args).

(** The dispatch as a recursion on the list of plugins, in the words of
    the specification: the plugins are taken in registration order; a
    plugin without the hook is skipped and the arguments pass through
    unchanged; a plugin with the hook receives the current arguments and
    the arguments it resolves to are handed to the plugins after it.
    Having the hook is the test of the code, [hookOf]. *)
Fixpoint threadHooks {A} (plugins : list (plugin A)) (eventName : string) (args : list A)
  : list (invocation A) * promise (list A) :=
  match plugins with
  | [] => ([], Resolved args)
  | p :: rest =>
      match hookOf p eventName with
      | None => threadHooks rest eventName args
      | Some h =>
          match h args with
          | Resolved args' =>
              let r := threadHooks rest eventName args' in
              ((name p, args) :: fst r, snd r)
          | Rejected e => ([(name p, args)], Rejected e)
          end
      end
  end.

(** The plugin implements the hook, by the test of [fire]:
    [plugin.hooks && plugin.hooks[eventName]]. *)
Definition implements {A} (eventName : string) (p : plugin A) : bool :=
  match hookOf p eventName with
  | Some _ => true
  | None => false
  end.

End Lager.

(* ===================================================================== *)
(** ** The api-gateway plugin: loading specifications                     *)
(* ===================================================================== *)

Module ApiGateway.
Import Async Lodash.
Local Open Scope promise_scope.

#[local] Unset Elimination Schemes.

(** A node of the file system as [fs.statSync] and [fs.readdirSync] show
    it: a file, or a directory with its named entries. *)
Inductive fsnode : Type :=
| File
| Dir (entries : list (string * fsnode)).

#[local] Set Elimination Schemes.

(** Induction over file system trees, with the hypothesis available for
    every entry of a directory. *)
Section FsInduction.
Variable P : fsnode -> Prop.
Hypothesis Hfile : P File.
Hypothesis Hdir : forall entries, Forall (fun kn => P (snd kn)) entries -> P (Dir entries).

Fixpoint fsnode_ind (n : fsnode) : P n :=
  match n with
  | File => Hfile
  | Dir entries =>
      Hdir entries
        ((fix entries_ind (l : list (string * fsnode)) : Forall (fun kn => P (snd kn)) l :=
            match l with
            | [] => Forall_nil _
            | kn :: l' => Forall_cons kn (fsnode_ind (snd kn)) (entries_ind l')
            end) entries)
  end.
End FsInduction.

Definition isDirectory (n : fsnode) : bool :=
  match n with
  | Dir _ => true
  | File => false
  end.

(** [new Endpoint(spec, resourcePath, method)] *)
Record Endpoint : Type := mkEndpoint {
  getSpec : obj;
  getResourcePath : string;
  getMethod : string
}.

(** [new Api(spec)] *)
Record Api : Type := mkApi {
  apiSpec : obj
}.

(** The values that travel through hooks and promises of this plugin. *)
Inductive jsval : Type :=
| Undefined
| StringV (s : string)
| EndpointV (e : Endpoint)
| ApiV (a : Api)
| ArrayV (items : list jsval).

(** What the process sees of its environment. *)
Record world : Type := mkWorld {
  (** [process.cwd()] *)
  cwd : string;
  (** the plugins registered on the [lager] singleton *)
  plugins : list (Lager.plugin jsval);
  (** the file system: the node found at an absolute path, if any *)
  fs : string -> option fsnode;
  (** [require(path)] of a [spec] module: the exported mapping, or the
      error thrown ([MODULE_NOT_FOUND] when no such module exists) *)
  require : string -> result obj;
  (** [loadApi(apiSpecPath, identifier)], which no property below
      looks into *)
  loadApi : string -> string -> promise jsval
}.

(** [file.walkSync(start, callback)] below an existing directory [node]
    found at [start]: the callback sees the directory, then every
    sub-directory is walked in turn. [walkDirs] walks the entries. *)
Fixpoint walkSync {S : Type} (node : fsnode) (start : string)
    (callback : string -> list string -> list string -> S -> S) (s : S) {struct node}
  : result S :=
  match node with
  | File =>
      inl {| error_name := "Error"; code := None; path := None; cause_message := None |}
  | Dir entries =>
      let dirs := map fst (filter (fun kn => isDirectory (snd kn)) entries) in
      let names := map fst (filter (fun kn => negb (isDirectory (snd kn))) entries) in
      let s1 := callback start dirs names s in
      (fix walkDirs (l : list (string * fsnode)) (s : S) {struct l} : result S :=
         match l with
         | [] => inr s
         | (d, n) :: l' =>
             if isDirectory n then
               match walkSync n (Js.path_join [start; d]) callback s with
               | inl e => inl e
               | inr s' => walkDirs l' s'
               end
             else walkDirs l' s
         end) entries s1
  end.

(** [file.walkSync] from a path: [fs.statSync] throws ENOENT when the
    path does not exist. *)
Definition walkSyncFrom {S : Type} (w : world) (start : string)
    (callback : string -> list string -> list string -> S -> S) (s : S) : result S :=
  match fs w start with
  | None => inl (enoent start)
  | Some node => walkSync node start callback s
  end.

(** Every directory of the tree below (and including) [start], in the
    order of a pre-order walk. *)
Fixpoint allDirs (node : fsnode) (start : string) {struct node} : list string :=
  match node with
  | File => []
  | Dir entries =>
      start ::
      (fix sub (l : list (string * fsnode)) : list string :=
         match l with
         | [] => []
         | (d, n) :: l' => allDirs n (Js.path_join [start; d]) ++ sub l'
         end) entries
  end.

Section MergeSpecs.

Variable clash : value -> value -> value.
Variable w : world.

(** The body of the [do ... while (subDirs.length)] loop of
    [mergeSpecsFiles], repeated while segments remain. *)
Fixpoint mergeSpecsLoop (spec : obj) (searchSpecDir : string) (subDirs : list string)
    {struct subDirs} : result obj :=
  match subDirs with
  | [] => inl typeError
  | subDir :: rest =>
      let searchSpecDir := Js.path_join [searchSpecDir; subDir] in
      let loaded :=
        match require w (searchSpecDir ++ Js.sep ++ "spec")%string with
        | inr m => inr (cloneDeep m)
        | inl e => if negb (eq_code e "MODULE_NOT_FOUND") then inl e else inr []
        end in
      match loaded with
      | inl e => inl e
      | inr subSpec =>
          let spec := merge clash spec subSpec in
          match rest with
          | [] => inr spec
          | _ :: _ => mergeSpecsLoop spec searchSpecDir rest
          end
      end
  end.

(** [mergeSpecsFiles(beginPath, subPath)] *)
Definition mergeSpecsFiles (beginPath subPath : string) : result obj :=
  mergeSpecsLoop [] beginPath (Js.split Js.sep_char subPath).

(** [loadEndpoint(endpointSpecRootPath, resourcePath, method)] *)
Definition loadEndpoint (endpointSpecRootPath resourcePath method : string)
  : promise jsval :=
  let method := Js.toUpperCase method in
  _ <- Lager.fire (plugins w) "beforeEndpointLoad" [] ;;
  spec <- of_result
            (let parts := Js.split "/" resourcePath in
             let subPath := (Js.join Js.sep parts ++ Js.sep ++ method)%string in
             mergeSpecsFiles endpointSpecRootPath subPath) ;;
  args <- Lager.fire (plugins w) "afterEndpointLoad"
            [EndpointV (mkEndpoint spec resourcePath method)] ;;
  Resolved (nth 0 args Undefined).

(** The HTTP methods that [loadEndpoints] recognizes. *)
Definition httpMethods : list string := ["GET"; "POST"; "PUT"; "PATCH"; "DELETE"].

(** The callback given to [file.walkSync] by [loadEndpoints]; the state
    is the array [endpointPromises]. *)
Definition onDirectory (endpointSpecsPath : string)
    (dirPath : string) (dirs files : list string)
    (endpointPromises : list (promise jsval)) : list (promise jsval) :=
  let subPath := Js.substr (String.length endpointSpecsPath) dirPath in
  let resourcePathParts := Js.split Js.sep_char subPath in
  match Js.pop resourcePathParts with
  | (None, _) => endpointPromises
  | (Some method, resourcePathParts) =>
      if negb (Js.includes method httpMethods) then endpointPromises
      else
        let resourcePath := Js.join "/" resourcePathParts in
        endpointPromises ++ [loadEndpoint endpointSpecsPath resourcePath method]
  end.

(** [loadEndpoints()] *)
Definition loadEndpoints : promise jsval :=
  let endpointsDirectory := "endpoints" in
  let endpointSpecsPath := Js.path_join [cwd w; endpointsDirectory] in
  catch
    (_ <- Lager.fire (plugins w) "beforeEndpointsLoad" [] ;;
     endpointPromises <- of_result
       (walkSyncFrom w endpointSpecsPath (onDirectory endpointSpecsPath) []) ;;
     endpoints <- all endpointPromises ;;
     args <- Lager.fire (plugins w) "afterEndpointsLoad" [ArrayV endpoints] ;;
     Resolved (nth 0 args Undefined))
    (fun e =>
       if eq_code e "ENOENT" then
         match path e with
         | None => Rejected typeError
         | Some p =>
             if Js.basename p =? endpointsDirectory then Resolved (ArrayV [])
             else (* Promise.reject(e); the handler returns nothing *)
               Resolved Undefined
         end
       else (* Promise.reject(e); the handler returns nothing *)
         Resolved Undefined).

(** [fs.readdirAsync(path)] *)
Definition readdirAsync (p : string) : promise (list string) :=
  match fs w p with
  | None => Rejected (enoent p)
  | Some File =>
      Rejected {| error_name := "Error"; code := Some "ENOTDIR"; path := Some p;
                  cause_message := None |}
  | Some (Dir entries) => Resolved (map fst entries)
  end.

(** [loadApis()] *)
Definition loadApis : promise jsval :=
  let apiSpecsPath := Js.path_join [cwd w; "apis"] in
  catch
    (_ <- Lager.fire (plugins w) "beforeApisLoad" [] ;;
     subdirs <- readdirAsync apiSpecsPath ;;
     apis <- all (map (fun subdir =>
                        let apiSpecPath := Js.path_join [apiSpecsPath; subdir; "spec"] in
                        loadApi w apiSpecPath subdir) subdirs) ;;
     args <- Lager.fire (plugins w) "afterApisLoad" [ArrayV apis] ;;
     Resolved (nth 0 args Undefined))
    (fun e =>
       if eq_code e "ENOENT" then
         match path e with
         | None => Rejected typeError
         | Some p =>
             if Js.basename p =? "apis" then Resolved (ArrayV [])
             else Rejected e
         end
       else Rejected e).

End MergeSpecs.

End ApiGateway.

(* ===================================================================== *)
(** ** The lambda plugin: [Lambda.prototype.deploy] and [deploy-lambdas]  *)
(* ===================================================================== *)

Module LambdaPlugin.
Import Async.

(** The deployment context. *)
Record context : Type := mkContext {
  environment : option string;
  stage : option string
}.

(** Truthiness of an optional string property. *)
Definition truthy (o : option string) : bool :=
  match o with
  | Some s => Js.truthy_string s
  | None => false
  end.

(** A Lambda of the project: its identifier and the parameters of its
    configuration that the deployment sends to the provider. *)
Record Lambda : Type := mkLambda {
  identifier : string;
  Role : string;
  Publish : bool
}.

(** The actions of a deployment: the calls made on the AWS SDK client and
    on the local collaborators. *)
Inductive request : Type :=
| GetFunction (FunctionName : string)
| CreateFunction (FunctionName RoleArn : string) (Publish : bool)
| UpdateFunctionCode (FunctionName : string) (Publish : bool)
| UpdateFunctionConfiguration (FunctionName RoleArn : string)
| PublishVersion (FunctionName : string)
| GetAlias (FunctionName Name : string)
| CreateAlias (FunctionName FunctionVersion Name : string)
| UpdateAlias (FunctionName Name FunctionVersion : string)
| BuildPackage (lambdaIdentifier : string)
| RetrieveRoleArn (role : string).

(** The fields read from the provider's answers. *)
Record response : Type := mkResponse {
  FunctionArn : string;
  Version : string;
  AliasArn : string;
  RoleArn : string
}.

(** The provider (and the local collaborators) as seen through the
    client: the answer, or the error, of every request. *)
Definition client : Type := request -> result response.

(** The deployment report. Durations are not modelled. *)
Record report : Type := mkReport {
  report_name : string;
  operation : option string;
  publishedVersion : option string;
  aliasExisted : option bool;
  arn : option string
}.

(** The state threaded through a deployment: the requests made so far
    and the report object being filled. *)
Record state : Type := mkState {
  trace : list request;
  rep : report
}.

(** A promise-returning action over the state. *)
Definition action (A : Type) : Type := state -> state * promise A.

Definition abind {A B} (m : action A) (k : A -> action B) : action B :=
  fun st =>
    match m st with
    | (st', Resolved a) => k a st'
    | (st', Rejected e) => (st', Rejected e)
    end.

(** [Promise.all([a, b])]: both actions are started. The embedding has
    no time: the requests of [a] are logged before those of [b], and of
    two rejections the one of [a] is kept, where the promise library
    keeps the one that comes first in time. *)
Definition both {A B} (a : action A) (b : action B) : action (A * B) :=
  fun st =>
    match a st with
    | (st1, ra) =>
        match b st1 with
        | (st2, rb) =>
            (st2, match ra, rb with
                  | Resolved x, Resolved y => Resolved (x, y)
                  | Rejected e, _ => Rejected e
                  | _, Rejected e => Rejected e
                  end)
        end
    end.

(** [Promise.promisify(awsLambda.method.bind(awsLambda))(params)] *)
Definition send (aws : client) (rq : request) : action response :=
  fun st => (mkState (trace st ++ [rq]) (rep st), of_result (aws rq)).

(** An assignment to a field of the report object. *)
Definition setReport (f : report -> report) : action unit :=
  fun st => (mkState (trace st) (f (rep st)), Resolved tt).

Definition set_operation (op : string) (r : report) : report :=
  mkReport (report_name r) (Some op) (publishedVersion r) (aliasExisted r) (arn r).
Definition set_publishedVersion (v : string) (r : report) : report :=
  mkReport (report_name r) (operation r) (Some v) (aliasExisted r) (arn r).
Definition set_aliasExisted (b : bool) (r : report) : report :=
  mkReport (report_name r) (operation r) (publishedVersion r) (Some b) (arn r).
Definition set_arn (a : string) (r : report) : report :=
  mkReport (report_name r) (operation r) (publishedVersion r) (aliasExisted r) (Some a).

Declare Scope action_scope.
Delimit Scope action_scope with action.
Notation "x <- m ;; k" := (abind m (fun x => k))
  (at level 61, m at next level, right associativity) : action_scope.
Notation "m ;;; k" := (abind m (fun _ => k))
  (at level 61, right associativity) : action_scope.
Local Open Scope action_scope.

Section Deploy.

Variable aws : client.
Variable lambda : Lambda.

(** [(context.environment ? context.environment + '-' : '') + this.identifier] *)
Definition functionName (ctx : context) : string :=
  ((if truthy (environment ctx)
    then match environment ctx with Some e => e ++ "-" | None => "" end
    else "") ++ identifier lambda)%string.

(** [Lambda.prototype.buildPackage] *)
Definition buildPackage : action response :=
  send aws (BuildPackage (identifier lambda)).

(** [plugin.lager.call('iam:retrieveRoleArn', role, context, role)] *)
Definition retrieveRoleArn : action response :=
  send aws (RetrieveRoleArn (Role lambda)).

(** [Lambda.prototype.isDeployed] *)
Definition isDeployed (FunctionName : string) : action bool :=
  fun st =>
    match send aws (GetFunction FunctionName) st with
    | (st', Resolved _) => (st', Resolved true)
    | (st', Rejected e) =>
        if negb (eq_code e "ResourceNotFoundException") then (st', Rejected e)
        else (st', Resolved false)
    end.

(** [Lambda.prototype.create] *)
Definition create (FunctionName : string) : action response :=
  br <- both buildPackage retrieveRoleArn ;;
  send aws (CreateFunction FunctionName (RoleArn (snd br)) (Publish lambda)).

(** [Lambda.prototype.update] *)
Definition update (FunctionName : string) : action response :=
  buildPackage ;;;
  cr <- both (send aws (UpdateFunctionCode FunctionName (Publish lambda)))
             retrieveRoleArn ;;
  send aws (UpdateFunctionConfiguration FunctionName (RoleArn (snd cr))).

(** [Lambda.prototype.aliasExists] *)
Definition aliasExists (FunctionName alias : string) : action bool :=
  fun st =>
    match send aws (GetAlias FunctionName alias) st with
    | (st', Resolved _) => (st', Resolved true)
    | (st', Rejected e) =>
        if negb (eq_code e "ResourceNotFoundException") then (st', Rejected e)
        else (st', Resolved false)
    end.

(** [Lambda.prototype.setAlias] *)
Definition setAlias (FunctionName alias : string) : action unit :=
  data <- send aws (PublishVersion FunctionName) ;;
  setReport (set_publishedVersion (Version data)) ;;;
  exists_ <- aliasExists FunctionName alias ;;
  data' <- (if exists_ : bool
            then setReport (set_aliasExisted true) ;;;
                 send aws (UpdateAlias FunctionName alias (Version data))
            else setReport (set_aliasExisted false) ;;;
                 send aws (CreateAlias FunctionName (Version data) alias)) ;;
  setReport (set_arn (AliasArn data')).

(** [Lambda.prototype.deploy], from the fresh report
    [{ name: functionName }]. *)
Definition deployFrom (ctx : context) : action report :=
  let FunctionName := functionName ctx in
  (deployed <- isDeployed FunctionName ;;
   data <- (if deployed : bool
            then setReport (set_operation "Update") ;;; update FunctionName
            else setReport (set_operation "Creation") ;;; create FunctionName) ;;
   match stage ctx with
   | Some alias =>
       if Js.truthy_string alias then setAlias FunctionName alias
       else setReport (set_arn (FunctionArn data))
   | None => setReport (set_arn (FunctionArn data))
   end) ;;;
  (fun st => (st, Resolved (rep st))).

Definition deploy (ctx : context) (requests : list request) : state * promise report :=
  deployFrom ctx (mkState requests (mkReport (functionName ctx) None None None None)).

End Deploy.

(** The request creates the function. *)
Definition isCreation (rq : request) : bool :=
  match rq with
  | CreateFunction _ _ _ => true
  | _ => false
  end.

(** The request updates the function. *)
Definition isUpdate (rq : request) : bool :=
  match rq with
  | UpdateFunctionCode _ _ | UpdateFunctionConfiguration _ _ => true
  | _ => false
  end.

End LambdaPlugin.

(* ===================================================================== *)
(** ** Command line: what a command prints and how the process ends       *)
(* ===================================================================== *)

Module Cli.
Import Async.

(** How a command ends: its promise settles, or [process.exit(status)]
    stops the process. *)
Inductive ending (A : Type) : Type :=
| Settled (p : promise A)
| Exit (status : Z).
Arguments Settled {A} p.
Arguments Exit {A} status.

(** [icli.format]: the functions that decorate a string. *)
Record format : Type := mkFormat {
  info : string -> string;
  error : string -> string
}.

(** A value interpolated in a message, [undefined] included. *)
Definition show (o : option string) : string :=
  match o with
  | Some s => s
  | None => "undefined"
  end.

Definition string_of_nat (n : nat) : string :=
  NilZero.string_of_uint (Nat.to_uint n).

End Cli.

(* ===================================================================== *)
(** ** [deploy-lambdas]: packages/lambda/src/cli/deploy-lambdas.js        *)
(* ===================================================================== *)

Module DeployLambdas.
Import Async Cli LambdaPlugin.

(** The parameters of the command line. *)
Record parameters : Type := mkParameters {
  lambdaIdentifiers : list string;
  region : string;
  p_environment : option string;
  p_stage : option string
}.

(** What the command observably does: the lines given to [icli.print]
    and the requests sent while deploying. *)
Record effects : Type := mkEffects {
  printed : list string;
  requests : list request
}.

Section Command.

Variable fmt : format.
(** [plugin.lager.getConfig] *)
Variable getConfig : string -> option string.
(** [plugin.loadLambdas()] *)
Variable loadLambdas : promise (list Lambda).
(** [genReportsTable(reports)] *)
Variable genReportsTable : list report -> string.
Variable aws : client.

(** The lines printed for an authorization failure. *)
Definition explanation (e : Async.error) : list string :=
  [(String "010" "    " ++ error fmt ("Insufficient permissions to perform the action"
                                      ++ String "010" ""))%string;
   ("The IAM user/role you are using to perform this action does not have sufficient permissions."
      ++ String "010" "")%string;
   (show (cause_message e) ++ String "010" "")%string;
   ("Please update the policies of the user/role before trying again."
      ++ String "010" "")%string].

(** The [.catch] handler of the command. *)
Definition onError (e : Async.error) (fx : effects) : effects * ending unit :=
  if eq_code e "AccessDeniedException" && truthy (cause_message e) then
    (mkEffects (printed fx ++ explanation e) (requests fx), Exit 1%Z)
  else (fx, Settled (Rejected e)).

(** The environment and the stage, read from the configuration when
    the command line does not give them. *)
Definition contextOf (params : parameters) : context :=
  mkContext
    (match p_environment params with
     | None => getConfig "environment"
     | Some v => Some v
     end)
    (match p_stage params with
     | None => getConfig "stage"
     | Some v => Some v
     end).

(** The Lambdas selected on the command line. *)
Definition selected (params : parameters) (lambdas : list Lambda) : list Lambda :=
  filter (fun lambda => Js.includes (identifier lambda) (lambdaIdentifiers params)) lambdas.

(** The lines printed before anything is loaded. *)
Definition announce (params : parameters) : list string :=
  let environment := environment (contextOf params) in
  let stage := stage (contextOf params) in
  [""%string;
   ("Deploying " ++ info fmt (string_of_nat (length (lambdaIdentifiers params)))
                 ++ " Lambda(s):")%string;
   ("  AWS region: " ++ info fmt (region params))%string;
   ("  Lager environement (prefix for Lambdas names): "
      ++ info fmt (show environment))%string;
   ("  Lager stage (used as Lambda alias): " ++ info fmt (show stage))%string;
   ""%string;
   "This operation may last a little"%string].

(** [executeCommand(parameters)]. The file requires lodash, the table
    generator and the plugin, and no promise library: its [Promise] is
    the built-in constructor and [Promise.map] throws inside the handler
    of [loadLambdas()], which rejects the chain. [loadLambdas()] returns
    a bluebird promise, as the plugin builds it. *)
Definition executeCommand (params : parameters) (fx : effects) : effects * ending unit :=
  let fx := mkEffects (printed fx ++ announce params) (requests fx) in
  let chain : effects * promise unit :=
    match loadLambdas with
    | Rejected e => (fx, Rejected e)
    | Resolved lambdas =>
        let lambdas := selected params lambdas in
        match builtinPromiseMap lambdas
                (fun lambda rqs =>
                   let out := deploy aws lambda (contextOf params) rqs in
                   (trace (fst out), snd out))
                (requests fx) with
        | (rqs, inl e) => (mkEffects (printed fx) rqs, Rejected e)
        | (rqs, inr (Rejected e)) => (mkEffects (printed fx) rqs, Rejected e)
        | (rqs, inr (Resolved reports)) =>
            (mkEffects (printed fx ++ [genReportsTable reports]) rqs, Resolved tt)
        end
    end in
  match chain with
  | (fx', Resolved u) => (fx', Settled (Resolved u))
  | (fx', Rejected e) => onError e fx'
  end.

End Command.

End DeployLambdas.

(* ===================================================================== *)
(** ** [deploy-apis]: the command that deploys then publishes APIs        *)
(* ===================================================================== *)

Module DeployApis.
Import Async Cli.

(** An endpoint as the command reads it. [ref] stands for the identity of
    the JavaScript object, which [_.union] compares. *)
Record Endpoint : Type := mkEndpoint {
  ref : nat;
  getResourcePath : string;
  getMethod : string;
  (** [getSpec()['x-myrmex'].apis] *)
  exposedBy : list string
}.

Record Api : Type := mkApi {
  getIdentifier : string;
  getEndpoints : list Endpoint
}.

(** The report of [api.deploy]. *)
Record report : Type := mkReport {
  name : option string;
  operation : option string;
  stage : option string;
  awsId : option string;
  failed : option string
}.

(** The value [api.deploy] resolves to. *)
Record deployResult : Type := mkResult {
  api : Api;
  rpt : report
}.

(** The parameters of the command line. *)
Record parameters : Type := mkParameters {
  apiIdentifiers : list string;
  region : string;
  environment : option string;
  p_stage : option string
}.

(** The deployment context built from the parameters. *)
Record context : Type := mkContext {
  c_environment : option string;
  c_stage : option string
}.

(** A row of an [easy-table] table: its cells, column by column. *)
Definition row : Type := list (string * string).

(** What the command observably does. *)
Inductive event : Type :=
| Print (line : string)
| PrintTable (rows : list row)
| LoadIntegrations
| Deploy (apiIdentifier : string)
| Publish (apiIdentifier : string).

(** Truthiness of an optional string property. *)
Definition truthy (o : option string) : bool :=
  match o with
  | Some s => Js.truthy_string s
  | None => false
  end.

(** A deployment report is marked failed: [result.report.failed] is
    truthy. *)
Definition markedFailed (r : deployResult) : bool := truthy (failed (rpt r)).

(** [_.union] of arrays of endpoint objects: first occurrences, in
    order. *)
Fixpoint uniqByRef (seen : list nat) (l : list Endpoint) : list Endpoint :=
  match l with
  | [] => []
  | e :: l' =>
      if existsb (Nat.eqb (ref e)) seen then uniqByRef seen l'
      else e :: uniqByRef (ref e :: seen) l'
  end.

Section Command.

(** [plugin.myrmex.getConfig] *)
Variable getConfig : string -> option string.
(** [plugin.loadApis()] *)
Variable loadApis : promise (list Api).
(** [plugin.loadIntegrations(region, context, endpoints)] *)
Variable loadIntegrations : string -> context -> list Endpoint -> promise unit.
(** [api.deploy(region, context)] *)
Variable deploy : Api -> string -> context -> promise deployResult.
(** The time, in milliseconds, that the promise of [api.deploy] takes to
    settle. *)
Variable duration : Api -> N.
(** [api.publish(region, context)] *)
Variable publish : Api -> string -> context -> promise unit.

(** The row of the overview table for one endpoint. *)
Definition overviewRow (params : parameters) (e : Endpoint) : row :=
  [("Path", getResourcePath e); ("Method", getMethod e)] ++
  map (fun apiIdentifier => (apiIdentifier, "X"))
      (filter (fun apiIdentifier => Js.includes apiIdentifier (apiIdentifiers params))
              (exposedBy e)).

(** The deployments are started by timers: the timer of API number [i]
    of the batch fires [delay * 35000] milliseconds after the handler
    ran, prints the announcement and calls [api.deploy], whose promise
    settles [duration api] milliseconds later. *)
Definition startsAt (i : nat) : N := (N.of_nat i * 35000)%N.

Definition settlesAt (i : nat) (a : Api) : N := (startsAt i + duration a)%N.

(** [Promise.all(promises)] rejects as soon as one of its promises is
    rejected: the rejection that comes first in time, and the time it
    comes at, for the APIs numbered from [i] on; of two rejections at
    the same millisecond, the one of the API started first. [None] when
    every deployment resolves. *)
Fixpoint firstRejection (rg : string) (ctx : context) (i : nat) (apis : list Api)
  : option (N * Async.error) :=
  match apis with
  | [] => None
  | a :: rest =>
      match deploy a rg ctx, firstRejection rg ctx (S i) rest with
      | Resolved _, later => later
      | Rejected e, None => Some (settlesAt i a, e)
      | Rejected e, Some (t, e') =>
          if (t <? settlesAt i a)%N then Some (t, e') else Some (settlesAt i a, e)
      end
  end.

(** The APIs, numbered from [i] on, whose timer has fired at time [t]. *)
Fixpoint startedAt (t : N) (i : nat) (apis : list Api) : list Api :=
  match apis with
  | [] => []
  | a :: rest =>
      if (startsAt i <=? t)%N then a :: startedAt t (S i) rest
      else startedAt t (S i) rest
  end.

(** What the timers of the given APIs do. *)
Definition announcements (apis : list Api) : list event :=
  flat_map (fun a => [Print ("Deploying " ++ getIdentifier a ++ " ...")%string;
                      Deploy (getIdentifier a)]) apis.

(** The values that the deployments resolve to, in the order of the
    batch. *)
Fixpoint resolutions (rg : string) (ctx : context) (apis : list Api)
  : list deployResult :=
  match apis with
  | [] => []
  | a :: rest =>
      match deploy a rg ctx with
      | Resolved x => x :: resolutions rg ctx rest
      | Rejected _ => resolutions rg ctx rest
      end
  end.

(** The second handler of the chain, until its promise settles: when
    every deployment resolves, every timer has fired and the results
    come in the order of the batch; otherwise the promise is rejected
    with the first rejection in time, and the trace holds what the
    timers fired until then have done. (The timers still pending at
    that time fire later if the process lives on; the trace of the
    command ends when its promise settles.) *)
Definition deployEach (rg : string) (ctx : context) (apis : list Api) (tr : list event)
  : list event * promise (list deployResult) :=
  match firstRejection rg ctx 0 apis with
  | None => (tr ++ announcements apis, Resolved (resolutions rg ctx apis))
  | Some (t, e) => (tr ++ announcements (startedAt t 0 apis), Rejected e)
  end.

(** The loop over [results]: the rows of the result table and the
    [success] flag. *)
Fixpoint displayResults (results : list deployResult) (rows : list row) (success : bool)
  : list row * bool :=
  match results with
  | [] => (rows, success)
  | result :: rest =>
      let cells :=
        [("Identifier", getIdentifier (api result));
         ("Name", show (name (rpt result)));
         ("Operation", show (operation (rpt result)));
         ("Stage", show (stage (rpt result)));
         ("AWS identifier", show (awsId (rpt result)))] in
      if truthy (failed (rpt result)) then
        displayResults rest
          (rows ++ [cells ++ [("Url", show (failed (rpt result)))]]) false
      else
        displayResults rest
          (rows ++ [cells ++ [("Url", ("https://" ++ show (awsId (rpt result))
                                       ++ ".execute-api.us-east-1.amazonaws.com/"
                                       ++ show (stage (rpt result)))%string)]])
          success
  end.

(** The last handler of the chain: display the results, then publish
    or leave. The file requires lodash, easy-table and the plugin, and
    no promise library: its [Promise] is the built-in constructor, and
    [Promise.map(apis, api => api.publish(region, context))] throws
    inside the handler, which rejects the promise of the command. *)
Definition reportAndPublish (rg : string) (ctx : context)
    (apis : list Api) (results : list deployResult)
    (tr : list event) : list event * ending unit :=
  match displayResults results [] true with
  | (rows, success) =>
      let tr := tr ++ [Print ""; Print "Deployment done"; Print ""; PrintTable rows] in
      if success then
        match builtinPromiseMap apis
                (fun a tr => (tr ++ [Publish (getIdentifier a)], publish a rg ctx))
                tr with
        | (tr', inl e) => (tr', Settled (Rejected e))
        | (tr', inr (Rejected e)) => (tr', Settled (Rejected e))
        | (tr', inr (Resolved _)) =>
            (tr' ++ [Print "APIs have been published"; Print ""], Settled (Resolved tt))
        end
      else
        (tr ++ [Print "The deployment of one or more APIs failed. The publication step will not be performed.";
                Print ""],
         Exit 1%Z)
  end.

(** The environment and the stage, read from the configuration when
    the command line does not give them. *)
Definition contextOf (params : parameters) : context :=
  mkContext
    (match environment params with
     | None => getConfig "environment"
     | Some v => Some v
     end)
    (match p_stage params with
     | None => getConfig "stage"
     | Some v => Some v
     end).

(** The APIs selected on the command line. *)
Definition selected (params : parameters) (apis : list Api) : list Api :=
  filter (fun a => Js.includes (getIdentifier a) (apiIdentifiers params)) apis.

(** [executeCommand(parameters)]. [loadApis()] returns a bluebird
    promise, as the plugin builds it: the chain has the method
    [spread]. *)
Definition executeCommand (params : parameters) (tr : list event)
  : list event * ending unit :=
  let ctx := contextOf params in
  match loadApis with
  | Rejected e => (tr, Settled (Rejected e))
  | Resolved apis =>
      let apis := selected params apis in
      let endpoints := uniqByRef [] (concat (map getEndpoints apis)) in
      let tr := tr ++ [Print ""; Print "Endpoints to deploy"; Print "";
                       PrintTable (map (overviewRow params) endpoints);
                       LoadIntegrations] in
      match loadIntegrations (region params) ctx endpoints with
      | Rejected e => (tr, Settled (Rejected e))
      | Resolved _ =>
          match deployEach (region params) ctx apis tr with
          | (tr', Rejected e) => (tr', Settled (Rejected e))
          | (tr', Resolved results) => reportAndPublish (region params) ctx apis results tr'
          end
      end
  end.

(** The APIs whose publication was started. *)
Definition published (tr : list event) : list string :=
  flat_map (fun ev => match ev with Publish a => [a] | _ => [] end) tr.

End Command.

End DeployApis.

(* ===================================================================== *)
(** ** The CORS hook: packages/cors/src/hooks/after-add-endpoints-to-api  *)
(* ===================================================================== *)

Module Cors.
Import Async.

(** What a property read on a JavaScript object gives: a string, or a
    function that returns one. *)
Inductive property : Type :=
| PString (s : string)
| PFunction (f : unit -> string).

(** [a === b] between a property that was read and a string literal: a
    function is never strictly equal to a string. *)
Definition strict_equal (a : property) (literal : string) : bool :=
  match a with
  | PString s => s =? literal
  | PFunction _ => false
  end.

(** An endpoint object: its accessors are methods. *)
Record Endpoint : Type := mkEndpoint {
  getMethod : unit -> string;
  getResourcePath : unit -> string;
  (** the entries of
      [spec['x-amazon-apigateway-integration'].responses.default.responseParameters] *)
  responseParameters : list (string * string)
}.

(** A CORS configuration: header name to value. *)
Definition corsConfig : Type := list (string * string).

(** [target[key] = v] on a flat mapping of strings: a property that the
    target owns is overwritten in place, a new property is appended.
    For the key [__proto__] that the target does not own, the
    assignment reaches the setter that [Object.prototype] has for that
    name, which ignores a string: the target is left as it is. (A target
    read by [JSON.parse] owns any [__proto__] key of the document.) *)
Fixpoint setProperty (key v : string) (target : corsConfig) : corsConfig :=
  match target with
  | [] => if key =? "__proto__" then [] else [(key, v)]
  | (k', v') :: target' =>
      if k' =? key then (k', v) :: target' else (k', v') :: setProperty key v target'
  end.

(** [Object.assign(target, source)] on flat mappings: every property
    that the source owns is assigned to the target, in order. *)
Fixpoint assignAll (target source : corsConfig) : corsConfig :=
  match source with
  | [] => target
  | (k, v) :: source' => assignAll (setProperty k v target) source'
  end.

(** The module found at [<endpointsPath>/<resourcePath>/cors]: its
    [default] entry and its entries by API identifier. *)
Record corsModule : Type := mkCorsModule {
  default : option corsConfig;
  byApi : string -> option corsConfig
}.

(** The API handed to the hook. *)
Record Api : Type := mkApi {
  getIdentifier : string;
  (** [getSpec()['x-lager'].cors], when both are present and truthy *)
  apiCors : option corsConfig;
  getEndpoints : list Endpoint
}.

(** A call [api.addEndpoint(endpoint, force)]. *)
Record addEndpointCall : Type := mkCall {
  call_endpoint : Endpoint;
  call_force : bool
}.

(** [_.uniq] on strings: first occurrences, in order. *)
Fixpoint uniq (seen : list string) (l : list string) : list string :=
  match l with
  | [] => []
  | x :: l' => if Js.includes x seen then uniq seen l' else x :: uniq (x :: seen) l'
  end.

Section Hook.

(** [require(path.join(cwd, endpointsPath, resourcePath, 'cors'))] *)
Variable requireCors : string -> result corsModule.
(** the response parameters of the base specification [./spec] *)
Variable baseResponseParameters : list (string * string).

(** The test of the hook on one endpoint:
    [e.getMethod === 'OPTIONS' && e.getResourcePath() === resourcePath] *)
Definition isOptionsOf (resourcePath : string) (e : Endpoint) : bool :=
  strict_equal (PFunction (getMethod e)) "OPTIONS"
  && (getResourcePath e tt =? resourcePath).

(** The CORS configuration that applies to a resource path. *)
Definition corsFor (a : Api) (resourcePath : string) : result corsConfig :=
  let cors := match apiCors a with Some c => c | None => [] end in
  match requireCors resourcePath with
  | inr endpointCors =>
      let cors := assignAll cors (match default endpointCors with Some c => c | None => [] end) in
      inr (assignAll cors (match byApi endpointCors (getIdentifier a) with
                           | Some c => c
                           | None => []
                           end))
  | inl e => if negb (eq_code e "MODULE_NOT_FOUND") then inl e else inr cors
  end.

(** The OPTIONS endpoint synthesized for a resource path: every
    property that the configuration owns is assigned to the response
    parameters, under the prefixed name. *)
Definition corsEndpoint (cors : corsConfig) (resourcePath : string) : Endpoint :=
  mkEndpoint (fun _ => "OPTIONS") (fun _ => resourcePath)
    (assignAll baseResponseParameters
       (map (fun kv => (("method.response.header." ++ fst kv)%string,
                        ("'" ++ snd kv ++ "'")%string)) cors)).

(** The body of [resourcePaths.forEach]: the calls to
    [api.addEndpoint] made so far, or the error thrown. *)
Fixpoint forEachResourcePath (a : Api) (resourcePaths : list string)
    (calls : list addEndpointCall) : result (list addEndpointCall) :=
  match resourcePaths with
  | [] => inr calls
  | resourcePath :: rest =>
      match find (isOptionsOf resourcePath) (getEndpoints a) with
      | Some _ => forEachResourcePath a rest calls
      | None =>
          match corsFor a resourcePath with
          | inl e => inl e
          | inr cors =>
              forEachResourcePath a rest
                (calls ++ [mkCall (corsEndpoint cors resourcePath) true])
          end
      end
  end.

(** The hook: the calls it makes on [api.addEndpoint]. *)
Definition afterAddEndpointsToApi (a : Api) : result (list addEndpointCall) :=
  let endpoints := getEndpoints a in
  let resourcePaths := uniq [] (map (fun e => getResourcePath e tt) endpoints) in
  forEachResourcePath a resourcePaths [].

End Hook.

End Cors.

(* ===================================================================== *)
(** ** Vocabulary of the statements about loading                         *)
(* ===================================================================== *)

Module Levels.
Import Async Lodash ApiGateway.

(** The directories in which [mergeSpecsFiles] looks for a [spec]
    module, from the root toward the leaf. *)
Fixpoint dirsFrom (dir : string) (segments : list string) : list string :=
  match segments with
  | [] => []
  | segment :: rest =>
      let dir' := Js.path_join [dir; segment] in
      dir' :: dirsFrom dir' rest
  end.

Definition specDirs (beginPath subPath : string) : list string :=
  dirsFrom beginPath (Js.split Js.sep_char subPath).

(** The name under which the [spec] module of a directory is required. *)
Definition specModule (dir : string) : string := (dir ++ "/spec")%string.

(** No [spec] module exists in a directory. *)
Definition noSpec (w : world) (dir : string) : Prop :=
  exists e, require w (specModule dir) = inl e /\ code e = Some "MODULE_NOT_FOUND".

(** The fragment that a directory contributes: the mapping exported by
    its [spec] module, or the empty mapping when there is none. *)
Definition fragmentOf (w : world) (dir : string) (fragment : obj) : Prop :=
  require w (specModule dir) = inr fragment \/ (noSpec w dir /\ fragment = []).

(** What one round of the loop of [mergeSpecsFiles] loads from a
    directory. *)
Definition loadedFrom (w : world) (dir : string) : result obj :=
  match require w (specModule dir) with
  | inr m => inr m
  | inl e => if negb (eq_code e "MODULE_NOT_FOUND") then inl e else inr []
  end.

(** The terminal segment of a directory path below the root, and the
    resource path made of the segments before it. *)
Definition terminalSegment (root dirPath : string) : string :=
  last (Js.split Js.sep_char (Js.substr (String.length root) dirPath)) "".

Definition resourcePathOf (root dirPath : string) : string :=
  Js.join "/" (removelast (Js.split Js.sep_char (Js.substr (String.length root) dirPath))).

(** The directories that [loadEndpoints] takes for endpoint leaves. *)
Definition endpointLeaves (root : string) (dirs : list string) : list string :=
  filter (fun d => Js.includes (terminalSegment root d) httpMethods) dirs.

(** The method set of the specification text. *)
Definition enumeratedMethods : list string :=
  ["GET"; "POST"; "PUT"; "PATCH"; "DELETE"; "OPTIONS"; "ANY"].

(** A name that a directory entry can bear: not empty, not a dot
    segment, free of separators. *)
Fixpoint noSeparator (s : string) : bool :=
  match s with
  | EmptyString => true
  | String c s' => negb (Ascii.eqb c Js.sep_char) && noSeparator s'
  end.

Definition entryName (s : string) : bool :=
  Js.truthy_string s && negb (s =? ".") && negb (s =? "..") && noSeparator s.

(** Every entry of the tree bears a name that [fs.readdirSync] can
    return. *)
Fixpoint validNames (n : fsnode) : bool :=
  match n with
  | File => true
  | Dir entries =>
      forallb (fun kn => entryName (fst kn) && validNames (snd kn)) entries
  end.

(** The absolute path made of the given segments. *)
Definition rooted (segments : list string) : string :=
  ("/" ++ Js.join "/" segments)%string.

End Levels.

(* ===================================================================== *)
(** ** Concrete projects used by the examples                             *)
(* ===================================================================== *)

Module Samples.
Import Async Lodash ApiGateway.

(** A policy for the clash case of [_.merge]: keep the source value. *)
Definition keepSource (objValue srcValue : value) : value := srcValue.

(** The error of [require] on a module that does not exist. *)
Definition moduleNotFound : error :=
  {| error_name := "Error"; code := Some "MODULE_NOT_FOUND"; path := None;
     cause_message := None |}.

(** The error of [require] on a JSON file that does not parse. *)
Definition syntaxError : error :=
  {| error_name := "SyntaxError"; code := None; path := None; cause_message := None |}.

Definition noApi (apiSpecPath identifier : string) : promise jsval :=
  Rejected moduleNotFound.

(** [endpoints/users/spec.json] *)
Definition usersFragment : obj :=
  [("tags", VArr [VStr "a"; VStr "b"]);
   ("x-lager", VObj [("apis", VArr [VStr "public"])]);
   ("produces", VStr "text/plain")].

(** [endpoints/users/GET/spec.json] *)
Definition usersGetFragment : obj :=
  [("tags", VArr [VStr "c"]);
   ("summary", VStr "List users");
   ("produces", VStr "application/json");
   ("x-lager", VObj [("lambda", VStr "list-users")])].

(** The directory tree [endpoints/users/GET]. *)
Definition usersGetTree : fsnode :=
  Dir [("users", Dir [("GET", Dir [("spec.json", File)]); ("spec.json", File)])].

Definition atEndpoints (tree : fsnode) (p : string) : option fsnode :=
  if p =? "/app/endpoints" then Some tree else None.

(** A project with two fragments along [users/GET]. *)
Definition tagsWorld : world :=
  mkWorld "/app" []
    (atEndpoints usersGetTree)
    (fun p =>
       if p =? "/app/endpoints/users/spec" then inr usersFragment
       else if p =? "/app/endpoints/users/GET/spec" then inr usersGetFragment
       else inl moduleNotFound)
    noApi.

(** The same tree without any [spec] file. *)
Definition bareWorld : world :=
  mkWorld "/app" []
    (atEndpoints (Dir [("users", Dir [("GET", Dir [])])]))
    (fun _ => inl moduleNotFound)
    noApi.

(** A project whose [endpoints/users/GET/spec.json] does not parse. *)
Definition malformedWorld : world :=
  mkWorld "/app" []
    (atEndpoints usersGetTree)
    (fun p =>
       if p =? "/app/endpoints/users/GET/spec" then inl syntaxError
       else inl moduleNotFound)
    noApi.

(** A project with an [OPTIONS] directory next to a [GET] one. *)
Definition optionsWorld : world :=
  mkWorld "/app" []
    (atEndpoints (Dir [("users", Dir [("OPTIONS", Dir []); ("GET", Dir [])])]))
    (fun _ => inl moduleNotFound)
    noApi.

(** A project without [apis] nor [endpoints] directory. *)
Definition emptyWorld : world :=
  mkWorld "/app" [] (fun _ => None) (fun _ => inl moduleNotFound) noApi.

(** A hook that replaces the second argument. *)
Definition replaceSecond : Lager.hook string :=
  fun args =>
    match args with
    | a :: _ :: rest => Resolved (a :: "replaced" :: rest)
    | _ => Resolved args
    end.

(** A hook that upper-cases every argument. *)
Definition shout : Lager.hook string :=
  fun args => Resolved (map Js.toUpperCase args).

(** Four registered plugins: two of them implement [afterLoad]. *)
Definition samplePlugins : list (Lager.plugin string) :=
  [Lager.mkPlugin "core" None;
   Lager.mkPlugin "cors" (Some [("afterLoad", replaceSecond)]);
   Lager.mkPlugin "iam" (Some [("beforeLoad", shout)]);
   Lager.mkPlugin "log" (Some [("afterLoad", shout)])].

(** A provider on which the function [DEV-hello] exists, without alias. *)
Definition notFoundException : error :=
  {| error_name := "ResourceNotFoundException";
     code := Some "ResourceNotFoundException"; path := None; cause_message := None |}.

Definition accessDenied : error :=
  {| error_name := "AccessDeniedException"; code := Some "AccessDeniedException";
     path := None;
     cause_message := Some "User: arn:aws:iam::1:user/dev is not authorized to perform: lambda:GetFunction" |}.

Definition helloAnswer : LambdaPlugin.response :=
  LambdaPlugin.mkResponse "arn:aws:lambda:us-east-1:1:function:DEV-hello" "7"
    "arn:aws:lambda:us-east-1:1:function:DEV-hello:v0" "arn:aws:iam::1:role/exec".

Definition existingProvider : LambdaPlugin.client :=
  fun rq =>
    match rq with
    | LambdaPlugin.GetAlias _ _ => inl notFoundException
    | LambdaPlugin.CreateFunction _ _ _ =>
        inl {| error_name := "ResourceConflictException";
               code := Some "ResourceConflictException"; path := None;
               cause_message := None |}
    | _ => inr helloAnswer
    end.

(** A provider on which no function exists yet. *)
Definition emptyProvider : LambdaPlugin.client :=
  fun rq =>
    match rq with
    | LambdaPlugin.GetFunction _ | LambdaPlugin.GetAlias _ _
    | LambdaPlugin.UpdateFunctionCode _ _
    | LambdaPlugin.UpdateFunctionConfiguration _ _ => inl notFoundException
    | _ => inr helloAnswer
    end.

(** A provider that refuses every request of the caller. *)
Definition refusingProvider : LambdaPlugin.client := fun _ => inl accessDenied.

Definition hello : LambdaPlugin.Lambda := LambdaPlugin.mkLambda "hello" "exec" false.

Definition devV0 : LambdaPlugin.context := LambdaPlugin.mkContext (Some "DEV") (Some "v0").

(** [icli.format] without colours. *)
Definition plainFormat : Cli.format := Cli.mkFormat (fun s => s) (fun s => s).

Definition noConfig (key : string) : option string := None.

Definition deployHello : DeployLambdas.parameters :=
  DeployLambdas.mkParameters ["hello"] "us-east-1" (Some "DEV") (Some "v0").

(** Three APIs; the provider refuses the deployment of the second. *)
Definition front : DeployApis.Api := DeployApis.mkApi "front" [].
Definition back : DeployApis.Api := DeployApis.mkApi "back" [].
Definition admin : DeployApis.Api := DeployApis.mkApi "admin" [].

Definition created (a : DeployApis.Api) : DeployApis.deployResult :=
  DeployApis.mkResult a
    (DeployApis.mkReport (Some ("DEV " ++ DeployApis.getIdentifier a)%string)
       (Some "Created") (Some "v0") (Some "abc123") None).

Definition refused (a : DeployApis.Api) : DeployApis.deployResult :=
  DeployApis.mkResult a
    (DeployApis.mkReport (Some ("DEV " ++ DeployApis.getIdentifier a)%string)
       None (Some "v0") None (Some "TooManyRequestsException")).

Definition deploySecondRefused (a : DeployApis.Api) (rg : string) (c : DeployApis.context)
  : promise DeployApis.deployResult :=
  Resolved (if DeployApis.getIdentifier a =? "back" then refused a else created a).

Definition deployFine (a : DeployApis.Api) (rg : string) (c : DeployApis.context)
  : promise DeployApis.deployResult :=
  Resolved (created a).

Definition publishFine (a : DeployApis.Api) (rg : string) (c : DeployApis.context)
  : promise unit :=
  Resolved tt.

(** Every deployment takes two seconds. *)
Definition twoSeconds (a : DeployApis.Api) : N := 2000%N.

Definition integrationsFine (rg : string) (c : DeployApis.context)
    (endpoints : list DeployApis.Endpoint) : promise unit :=
  Resolved tt.

Definition deployThree : DeployApis.parameters :=
  DeployApis.mkParameters ["front"; "back"; "admin"] "us-east-1" (Some "DEV") (Some "v0").

(** An API that already exposes an OPTIONS endpoint on [/users]. *)
Definition ownOptions : Cors.Endpoint :=
  Cors.mkEndpoint (fun _ => "OPTIONS") (fun _ => "/users")
    [("method.response.header.Access-Control-Allow-Origin", "'https://example.org'")].

Definition getUsers : Cors.Endpoint :=
  Cors.mkEndpoint (fun _ => "GET") (fun _ => "/users") [].

Definition publicApi : Cors.Api :=
  Cors.mkApi "public" None [ownOptions; getUsers].

Definition noCorsModule (resourcePath : string) : result Cors.corsModule :=
  inl moduleNotFound.

End Samples.

(* ===================================================================== *)
(** ** The plugin registry: [registerPlugin] and [getPlugin]              *)
(* ===================================================================== *)

Module Registry.
Import Async Lager.

(** [lager.registerPlugin(plugin)]: [this.plugins.push(plugin)] *)
Definition registerPlugin {A} (plugins : list (plugin A)) (p : plugin A) : list (plugin A) :=
  plugins ++ [p].

(** [lager.getPlugin(name)]: [_.find(this.plugins, p => p.name === name)] *)
Definition getPlugin {A} (plugins : list (plugin A)) (pluginName : string)
  : option (plugin A) :=
  find (fun p => name p =? pluginName) plugins.

(** A hook that fails. *)
Definition failing : hook string :=
  fun _ => Rejected {| error_name := "Error"; code := Some "EFAIL"; path := None;
                       cause_message := None |}.

(** Three registered plugins, the second of which fails on [afterLoad];
    the first and the third bear the same name. *)
Definition brokenChain : list (plugin string) :=
  [mkPlugin "log" (Some [("afterLoad", Samples.shout)]);
   mkPlugin "cors" (Some [("afterLoad", failing)]);
   mkPlugin "log" (Some [("afterLoad", Samples.replaceSecond)])].

End Registry.

(* ===================================================================== *)
(** ** Vocabulary of the statements about the levels of a resource        *)
(* ===================================================================== *)

Module Ancestors.

(** The non-empty prefixes of a list, shortest first. *)
Fixpoint nonEmptyPrefixes {A} (l : list A) : list (list A) :=
  match l with
  | [] => []
  | x :: l' => [x] :: map (cons x) (nonEmptyPrefixes l')
  end.

(** The directory made of the segments [base] and every directory
    between it and the one made of [base ++ names], from the shallowest
    to the deepest. *)
Definition levels (base names : list string) : list string :=
  Levels.rooted base :: map (fun p => Levels.rooted (base ++ p)) (nonEmptyPrefixes names).

End Ancestors.

(* ===================================================================== *)
(** ** Vocabulary of the statements about the requests of a deployment    *)
(* ===================================================================== *)

Module LambdaRequests.
Import LambdaPlugin.

(** The requests of [setAlias]: the publication of a version and the
    handling of the alias. *)
Definition isStageRequest (rq : request) : bool :=
  match rq with
  | PublishVersion _ | GetAlias _ _ | CreateAlias _ _ _ | UpdateAlias _ _ _ => true
  | _ => false
  end.

(** The requests whose failure can be an answer: the lookups. *)
Definition isLookup (rq : request) : bool :=
  match rq with
  | GetFunction _ | GetAlias _ _ => true
  | _ => false
  end.

(** A request of the deployment of [lambda] under the function name
    [FunctionName]: a call of the provider on that function, the build of
    the package of the Lambda or the retrieval of its role. *)
Definition concerns (lambda : Lambda) (FunctionName : string) (rq : request) : Prop :=
  match rq with
  | GetFunction n | CreateFunction n _ _ | UpdateFunctionCode n _
  | UpdateFunctionConfiguration n _ | PublishVersion n | GetAlias n _
  | CreateAlias n _ _ | UpdateAlias n _ _ => n = FunctionName
  | BuildPackage i => i = identifier lambda
  | RetrieveRoleArn r => r = Role lambda
  end.

End LambdaRequests.

(* ===================================================================== *)
(** ** packages/lambda/src/lambda.js: the constructor                     *)
(* ===================================================================== *)

Module LambdaConfig.
Import Lodash.

(** The table [runtimes], in the order of its keys. *)
Definition runtimes : list (string * list string) :=
  [("nodejs", ["nodejs"; "nodejs4.3"; "nodejs6.10"]);
   ("python", ["python2.7"; "python3.6"])].

(** [_.assign(object, source)]: every own property of the source is
    assigned, in order. *)
Definition assignAll (object source : obj) : obj :=
  fold_left (fun o kv => assign (fst kv) (snd kv) o) source object.

(** The first argument of [_.assign] in the constructor. *)
Definition defaults (identifier : string) : obj :=
  [("FunctionName", VStr identifier);
   ("Role", VStr ("PLEASE-CONFIGURE-AN-EXECUTION-ROLE-FOR-" ++ identifier));
   ("Timeout", VNum 15);
   ("Publish", VBool false)].

(** [versions.indexOf(x) !== -1]: [indexOf] compares with [===], which
    only a string satisfies against the strings of the table. *)
Definition indexed (x : option value) (versions : list string) : bool :=
  match x with
  | Some (VStr s) => Js.includes s versions
  | _ => false
  end.

(** The loop [_.forEach(runtimes, ...)] over the variable
    [runtimeLanguage], [None] being [undefined]. *)
Definition runtimeLanguage (params : obj) : option string :=
  fold_left
    (fun found lv =>
       if indexed (lookup "Runtime" params) (snd lv) then Some (fst lv) else found)
    runtimes None.

(** The fields that the constructor sets. *)
Record instance : Type := mkInstance {
  identifier : string;
  params : obj;
  language : string
}.

(** [new Lambda(config, fsPath)] for a configuration whose [params] is
    absent ([None]) or an object; [None] is the [Error] thrown for a
    runtime that is not valid (its message is not modelled). *)
Definition construct (identifier : string) (configParams : option obj) : option instance :=
  let params := match configParams with Some p => p | None => [] end in
  let params := assignAll (defaults identifier) params in
  match runtimeLanguage params with
  | Some language =>
      if Js.truthy_string language then Some (mkInstance identifier params language)
      else None
  | None => None
  end.

(** The runtimes of the table. *)
Definition validRuntimes : list string := flat_map snd runtimes.

End LambdaConfig.

(* ===================================================================== *)
(** ** Vocabulary of the statements about the deployment commands         *)
(* ===================================================================== *)

Module Batches.

(** The APIs whose deployment was started. *)
Definition deployed (tr : list DeployApis.event) : list string :=
  flat_map (fun ev => match ev with DeployApis.Deploy a => [a] | _ => [] end) tr.

End Batches.

(* ===================================================================== *)
(** ** Further concrete inputs used by the examples                       *)
(* ===================================================================== *)

Module MoreSamples.
Import Async.

(** The provider rejects the deployment of the second API. *)
Definition throttled : error :=
  {| error_name := "TooManyRequestsException"; code := Some "TooManyRequestsException";
     path := None; cause_message := None |}.

Definition deploySecondRejected (a : DeployApis.Api) (rg : string) (c : DeployApis.context)
  : promise DeployApis.deployResult :=
  if DeployApis.getIdentifier a =? "back" then Rejected throttled
  else Resolved (Samples.created a).

(** A project with two APIs. [loadApi] answers with the API whose
    specification bears the identifier. *)
Definition identified (apiSpecPath identifier : string) : promise ApiGateway.jsval :=
  Resolved (ApiGateway.ApiV
              (ApiGateway.mkApi
                 [("x-lager", Lodash.VObj [("identifier", Lodash.VStr identifier)])])).

Definition apisWorld : ApiGateway.world :=
  ApiGateway.mkWorld "/app" []
    (fun p => if p =? "/app/apis"
              then Some (ApiGateway.Dir [("front", ApiGateway.Dir [("spec.json", ApiGateway.File)]);
                                         ("back", ApiGateway.Dir [("spec.json", ApiGateway.File)])])
              else None)
    (fun _ => inl Samples.moduleNotFound)
    identified.

End MoreSamples.

(* ===================================================================== *)
(** ** Vocabulary of the statements about the CORS headers                *)
(* ===================================================================== *)

Module CorsHeaders.
Import Async.

(** [config[key]] on a flat mapping; [None] is [undefined]. *)
Fixpoint header (key : string) (config : list (string * string)) : option string :=
  match config with
  | [] => None
  | (k, v) :: config' => if k =? key then Some v else header key config'
  end.

(** What [x || {}] gives for an optional configuration. *)
Definition orEmpty (c : option (list (string * string))) : list (string * string) :=
  match c with
  | Some c => c
  | None => []
  end.

(** The summary of a call to [api.addEndpoint]: method, resource path
    and override flag. *)
Definition summary (c : Cors.addEndpointCall) : string * string * bool :=
  (Cors.getMethod (Cors.call_endpoint c) tt,
   Cors.getResourcePath (Cors.call_endpoint c) tt,
   Cors.call_force c).

(** A [cors] module that does not parse. *)
Definition brokenCors (resourcePath : string) : result Cors.corsModule :=
  if resourcePath =? "/users" then inl Samples.syntaxError else inl Samples.moduleNotFound.

(** A [cors] module for [/users] with a default configuration and one
    for the API [public]. *)
Definition usersCors (resourcePath : string) : result Cors.corsModule :=
  if resourcePath =? "/users" then
    inr (Cors.mkCorsModule
           (Some [("Access-Control-Allow-Origin", "*");
                  ("Access-Control-Allow-Methods", "GET")])
           (fun identifier =>
              if identifier =? "public"
              then Some [("Access-Control-Allow-Origin", "https://example.org")]
              else None))
  else inl Samples.moduleNotFound.

Definition corsApi : Cors.Api :=
  Cors.mkApi "public"
    (Some [("Access-Control-Allow-Headers", "Content-Type");
           ("Access-Control-Allow-Methods", "GET,POST")])
    [Samples.getUsers;
     Cors.mkEndpoint (fun _ => "GET") (fun _ => "/health") [];
     Cors.mkEndpoint (fun _ => "POST") (fun _ => "/users") []].

End CorsHeaders.

(* ===================================================================== *)
(** ** [create-api]: the command that creates the specification of an API *)
(* ===================================================================== *)

Module CreateApi.
Import Async Lodash.

(** A character of the class [[a-z0-9_-]] under the flag [i]. *)
Definition identifierChar (c : ascii) : bool :=
  let n := nat_of_ascii c in
  ((97 <=? n) && (n <=? 122) || (65 <=? n) && (n <=? 90) || (48 <=? n) && (n <=? 57)
   || Ascii.eqb c "_" || Ascii.eqb c "-")%nat.

Fixpoint everyChar (f : ascii -> bool) (s : string) : bool :=
  match s with
  | EmptyString => true
  | String c s' => f c && everyChar f s'
  end.

(** The validator of the prompt: [/^[a-z0-9_-]+$/i.test(input)]. *)
Definition validate (input : string) : bool :=
  negb (input =? "") && everyChar identifierChar input.

(** The parameters of the command; [None] is [undefined]. *)
Record parameters : Type := mkParameters {
  apiIdentifier : string;
  title : option string;
  desc : option string;
  consume : option (list string);
  produce : option (list string)
}.

(** What the command does on the file system and on the console. *)
Inductive event : Type :=
| Mkdirp (dir : string)
| WriteFile (file : string) (document : value)
| Log (message : string).

(** A property whose value may be [undefined]: [JSON.stringify] leaves
    it out. *)
Definition optional {A} (key : string) (f : A -> value) (o : option A) : obj :=
  match o with
  | Some x => [(key, f x)]
  | None => []
  end.

(** The document that [JSON.stringify(spec, null, 2)] serializes. *)
Definition document (params : parameters) : value :=
  VObj ([("swagger", VStr "2.0");
         ("info", VObj (optional "title" VStr (title params)
                        ++ optional "description" VStr (desc params)));
         ("schemes", VArr [VStr "https"]);
         ("host", VStr "API_ID.execute-api.REGION.amazonaws.com")]
        ++ optional "consume" (fun l => VArr (map VStr l)) (consume params)
        ++ optional "produce" (fun l => VArr (map VStr l)) (produce params)
        ++ [("paths", VObj []); ("definitions", VObj [])]).

Section Command.

(** [process.cwd()] *)
Variable cwd : string.
(** [mkdirpAsync(dir)] *)
Variable mkdirpAsync : string -> promise unit.
(** [fs.writeFileAsync(file, content)] *)
Variable writeFileAsync : string -> value -> promise unit.

(** [performTask(parameters)] *)
Definition performTask (params : parameters) : list event * promise unit :=
  let specFilePath := Js.path_join [cwd; "apis"; apiIdentifier params] in
  match mkdirpAsync specFilePath with
  | Rejected e => ([Mkdirp specFilePath], Rejected e)
  | Resolved _ =>
      let file := (specFilePath ++ Js.sep ++ "spec.json")%string in
      match writeFileAsync file (document params) with
      | Rejected e => ([Mkdirp specFilePath; WriteFile file (document params)], Rejected e)
      | Resolved _ =>
          let msg := (String "010" "  A new API has been created!"
                      ++ String "010" (String "010" "")
                      ++ "  Its OpenAPI specification is available in "
                      ++ String "027" "[36m" ++ specFilePath ++ Js.sep ++ "spec.json"
                      ++ String "027" "[36m" ++ String "010" "")%string in
          ([Mkdirp specFilePath; WriteFile file (document params); Log msg],
           Resolved tt)
      end
  end.

End Command.

(** The module that [loadApis] requires for a sub-directory of [apis]. *)
Definition requiredBy (cwd subdir : string) : string :=
  Js.path_join [Js.path_join [cwd; "apis"]; subdir; "spec"].

End CreateApi.

(* ===================================================================== *)
(** ** packages/cli/src/load-lager-project.js: the root of the project    *)
(* ===================================================================== *)

Module ProjectRoot.
Import Async Lodash.

Definition isSep (c : ascii) : bool := Ascii.eqb c Js.sep_char.

Fixpoint dropWhile {A} (f : A -> bool) (l : list A) : list A :=
  match l with
  | [] => []
  | x :: l' => if f x then dropWhile f l' else l
  end.

(** [path.dirname(p)] (POSIX): the scan from the end of the path skips
    the trailing separators, then the last segment, and stops on the
    separator before it; [..., before] is what precedes that separator,
    the first character apart. *)
Definition dirname (p : string) : string :=
  match p with
  | EmptyString => "."
  | String c0 rest =>
      let hasRoot := isSep c0 in
      let scanned := dropWhile isSep (rev (list_ascii_of_string rest)) in
      match dropWhile (fun c => negb (isSep c)) scanned with
      | [] => if hasRoot then "/" else "."
      | _ :: before =>
          if hasRoot && (length before =? 0)%nat then "//"
          else String c0 (string_of_list_ascii (rev before))
      end
  end.

(** Truthiness of a JSON value. *)
Definition truthy_value (v : value) : bool :=
  match v with
  | VNull => false
  | VBool b => b
  | VNum n => negb (n =? 0)%Z
  | VStr s => Js.truthy_string s
  | VArr _ | VObj _ => true
  end.

(** [packageJson[section] && packageJson[section]['@lager/lager']], as a
    condition: a section that is not an object has no such property. *)
Definition lists (packageJson : obj) (section : string) : bool :=
  match lookup section packageJson with
  | Some (VObj dependencies) =>
      match lookup "@lager/lager" dependencies with
      | Some v => truthy_value v
      | None => false
      end
  | _ => false
  end.

Section Climb.

(** [require(path)] of a [package.json]: the document, or the error
    thrown. *)
Variable require : string -> result value.

(** The body of the [try]: the [package.json] of the directory loads
    and lists [@lager/lager]; a failing [require], or a document that is
    not an object, leads to the parent directory as well. *)
Definition found (cwd : string) : bool :=
  match require (Js.path_join [cwd; "package.json"]) with
  | inr (VObj packageJson) =>
      lists packageJson "dependencies" || lists packageJson "devDependencies"
  | _ => false
  end.

(** [getProjectRootDirectory()] from the working directory [cwd];
    [None] is [false]. *)
Equations? getProjectRootDirectoryFrom (cwd : string) : option string
  by wf (String.length cwd) lt :=
  getProjectRootDirectoryFrom cwd with Lager.inspect (found cwd) => {
    | exist _ true _ := Some cwd;
    | exist _ false _ with Lager.inspect (dirname cwd =? dirname (dirname cwd)) => {
        | exist _ true _ := None;
        | exist _ false H := getProjectRootDirectoryFrom (dirname cwd) } }.
Proof.
  assert (Hdrop : forall (f : ascii -> bool) l, length (dropWhile f l) <= length l).
  { intros f l. induction l as [|x l IH]; simpl; [lia|]. destruct (f x); simpl; lia. }
  assert (Hhead : forall (f : ascii -> bool) l,
             match dropWhile f l with [] => True | x :: _ => f x = false end).
  { intros f l. induction l as [|x l IH]; simpl; [exact I|].
    destruct (f x) eqn:E; [exact IH | exact E]. }
  destruct cwd as [|c0 rest]; [discriminate|].
  unfold dirname in H |- *. cbv zeta in H |- *.
  set (scanned := dropWhile isSep (rev (list_ascii_of_string rest))) in *.
  assert (Hs : length scanned <= String.length rest).
  { subst scanned. etransitivity; [apply Hdrop|].
    rewrite length_rev. clear. induction rest; simpl; lia. }
  pose proof (Hhead isSep (rev (list_ascii_of_string rest))) as Hh. fold scanned in Hh.
  pose proof (Hdrop (fun c => negb (isSep c)) scanned) as Hd.
  destruct scanned as [|x scanned'].
  - simpl in H. destruct (isSep c0); discriminate.
  - simpl in H, Hd |- *. rewrite Hh in H, Hd |- *. simpl in H, Hd |- *.
    pose proof (Hdrop (fun c => negb (isSep c)) scanned') as Hd'.
    destruct (dropWhile (fun c => negb (isSep c)) scanned') as [|s before].
    + destruct (isSep c0); discriminate.
    + simpl in Hd', Hs.
      destruct (isSep c0 && (length before =? 0)%nat) eqn:E.
      * simpl. lia.
      * simpl. assert (L : forall l, String.length (string_of_list_ascii l) = length l)
          by (induction l; simpl; auto).
        rewrite L, length_rev. lia.
Qed.

End Climb.

(** Two nested projects: [/home/dev] and [/home/dev/work/api] declare
    the dependency, the directories between and below do not. *)
Definition lagerPackage : value :=
  VObj [("name", VStr "api"); ("dependencies", VObj [("@lager/lager", VStr "^0.1.0")])].

Definition nestedProjects (p : string) : result value :=
  if (p =? "/home/dev/package.json") || (p =? "/home/dev/work/api/package.json")
  then inr lagerPackage
  else if p =? "/package.json" then inr lagerPackage
  else inl Samples.moduleNotFound.

End ProjectRoot.

(* ===================================================================== *)
(** ** packages/cli/src/load-lager-project.js: the environment variables  *)
(* ===================================================================== *)

Module ProjectConfig.
Import Async Lodash.

(** How the addition of an environment variable to the configuration
    ends. The document model has no array carrying a named property and
    no function: the addition that sets a property on an array, and the
    addition whose path goes through a member that the configuration
    inherits from [Object.prototype] (the property is then set on the
    built-in function, or on the prototype, or refused by it), are told
    apart. *)
Inductive outcome : Type :=
| Done (config : obj)
| Throws (e : error)
| ArrayProperty
| InheritedMember.

(** The value stored: [if (value === 'false') { value = false; }] *)
Definition leaf (value : string) : Lodash.value :=
  if value =? "false" then VBool false else VStr value.

(** [addParts(config, parts, value)], on the object [config]. The file
    is in strict mode: the assignment of a property to a primitive value
    throws a [TypeError]. [config[part]] follows the prototype chain: for
    a name of [Object.prototype] that the object does not own, it is the
    inherited member, which is truthy. The assignment of a string or of
    [false] to [__proto__] on an object that does not own the property
    reaches the setter of [Object.prototype] and changes nothing. *)
Fixpoint addParts (config : obj) (parts : list string) (value : string) : outcome :=
  match parts with
  | [] => Done (assign "undefined" (leaf value) config)
  | part :: rest =>
      match rest with
      | [] =>
          match lookup part config with
          | None =>
              if part =? "__proto__" then Done config
              else Done (assign part (leaf value) config)
          | Some _ => Done (assign part (leaf value) config)
          end
      | _ :: _ =>
          let child :=
            match lookup part config with
            | Some v => Some (if ProjectRoot.truthy_value v then v else VObj [])
            | None => if Js.inherited part then None else Some (VObj [])
            end in
          match child with
          | None => InheritedMember
          | Some (VObj o) =>
              match addParts o rest value with
              | Done o' => Done (assign part (VObj o') config)
              | other => other
              end
          | Some (VArr _) => ArrayProperty
          | Some _ => Throws typeError
          end
      end
  end.

(** [s.substring(0, n)] *)
Fixpoint substring0 (n : nat) (s : string) : string :=
  match n, s with
  | S n', String c s' => String c (substring0 n' s')
  | _, _ => EmptyString
  end.

(** The body of [Object.keys(process.env).forEach] for one variable,
    on [config.config], taken to be an object. ([getConfig] comes to
    this loop when [lager.json] has been loaded; without that file it
    returns the empty configuration before reading the environment.) *)
Definition addVariable (config : obj) (key value : string) : outcome :=
  if substring0 6 key =? "LAGER_"
  then addParts config (Js.split "_" (Js.substr 6 key)) value
  else Done config.

(** The value found by following the parts through nested objects. *)
Fixpoint get (config : obj) (parts : list string) : option Lodash.value :=
  match parts with
  | [] => None
  | part :: rest =>
      match rest with
      | [] => lookup part config
      | _ :: _ =>
          match lookup part config with
          | Some (VObj o) => get o rest
          | _ => None
          end
      end
  end.

(** Every value that stands on the way of the parts, the last part
    apart, is an object or is falsy (a falsy or missing value gives way
    to a fresh object), and no part on the way is a name that the object
    it is looked up in inherits from [Object.prototype] without owning
    it. *)
Fixpoint passable (config : obj) (parts : list string) : bool :=
  match parts with
  | [] => true
  | part :: rest =>
      match rest with
      | [] => true
      | _ :: _ =>
          match lookup part config with
          | Some (VObj o) => passable o rest
          | Some v => negb (ProjectRoot.truthy_value v) && passable [] rest
          | None => negb (Js.inherited part) && passable [] rest
          end
      end
  end.

End ProjectConfig.

(* ===================================================================== *)
(** ** packages/lambda/src/lambda.js: the event examples of a Lambda      *)
(* ===================================================================== *)

Module LambdaEvents.
Import Async ApiGateway.

Definition isDot (c : ascii) : bool := Ascii.eqb c ".".

(** [path.parse(p).ext] read on the base name of the path: the part
    from the last dot, unless the base has no dot, starts with that dot
    or is [..]. *)
Definition extOf (base : string) : string :=
  match ProjectRoot.dropWhile (fun c => negb (isDot c)) (rev (list_ascii_of_string base)) with
  | [] => ""
  | _ :: before =>
      if (length before =? 0)%nat || (base =? "..") then ""
      else string_of_list_ascii (skipn (length before) (list_ascii_of_string base))
  end.

(** [path.parse(p).name]: the base name without its extension. *)
Definition nameOf (base : string) : string :=
  ProjectConfig.substring0 (String.length base - String.length (extOf base)) base.

(** The fields of [path.parse(p)] that the code reads. *)
Record parsed : Type := mkParsed {
  ext : string;
  name : string
}.

(** [path.parse(p)] *)
Definition parse (p : string) : parsed :=
  let base := Js.basename p in
  mkParsed (extOf base) (nameOf base).

(** [Lambda.prototype.getEventExamples] for the Lambda found at
    [fsPath]; the line logged when there is no [events] folder is not
    modelled. *)
Definition getEventExamples (w : world) (fsPath : string) : promise (list string) :=
  let basePath := fsPath in
  catch
    (bind (readdirAsync w (Js.path_join [fsPath; "events"]))
       (fun eventFiles =>
          Resolved
            (fold_left
               (fun events eventFile =>
                  let filePath := Js.path_join [basePath; eventFile] in
                  let parse := parse filePath in
                  if Js.includes (ext parse) [".js"; ".json"]
                  then events ++ [name parse]
                  else events)
               eventFiles [])))
    (fun e => if eq_code e "ENOENT" then Resolved [] else Rejected e).

(** A Lambda with three entries in its [events] folder. *)
Definition helloWorld : world :=
  mkWorld "/app" []
    (fun p => if p =? "/app/lambdas/hello/events"
              then Some (Dir [("created.json", File); ("README.md", File);
                              ("deleted.js", File); (".json", File)])
              else None)
    (fun _ => inl Samples.moduleNotFound)
    Samples.noApi.

End LambdaEvents.

(* ===================================================================== *)
(** * Properties                                                          *)
(* ===================================================================== *)

Example split_root_relative :
  Js.split "/" "/users/{id}/GET" = [""; "users"; "{id}"; "GET"].
Proof. reflexivity. Qed.

Example split_empty : Js.split "/" "" = [""].
Proof. reflexivity. Qed.

Example path_join_ex1 : Js.path_join ["/home/app"; "endpoints"] = "/home/app/endpoints".
Proof. reflexivity. Qed.

Example path_join_ex2 : Js.path_join ["/home/app/endpoints"; ""] = "/home/app/endpoints".
Proof. reflexivity. Qed.

Example path_join_ex3 : Js.path_join ["/home/app/"; "../x/./y"] = "/home/x/y".
Proof. reflexivity. Qed.

Example basename_ex : Js.basename "/home/app/endpoints" = "endpoints".
Proof. reflexivity. Qed.

(* ===================================================================== *)
(** ** Facts about [_.merge]                                              *)
(* ===================================================================== *)

Section MergeFacts.
Import Lodash.

Variable clash : value -> value -> value.

Lemma lookup_assign_same key v o : lookup key (assign key v o) = Some v.
Proof.
  induction o as [|[k w] o IH]; simpl.
  - now rewrite String.eqb_refl.
  - destruct (k =? key) eqn:E; simpl; rewrite E; auto.
Qed.

Lemma lookup_assign_other key key' v o :
  key <> key' -> lookup key' (assign key v o) = lookup key' o.
Proof.
  intros Hne. induction o as [|[k w] o IH]; simpl.
  - destruct (key =? key') eqn:E; auto. apply String.eqb_eq in E. contradiction.
  - destruct (k =? key) eqn:E; simpl.
    + apply String.eqb_eq in E. subst k.
      destruct (key =? key') eqn:E'; auto.
      apply String.eqb_eq in E'. contradiction.
    + now rewrite IH.
Qed.

Lemma lookup_none_not_key key o : lookup key o = None <-> ~ In key (keys o).
Proof.
  induction o as [|[k w] o IH]; simpl.
  - tauto.
  - destruct (k =? key) eqn:E.
    + apply String.eqb_eq in E. split; [discriminate | tauto].
    + apply String.eqb_neq in E. rewrite IH. tauto.
Qed.

Lemma assign_fresh key v o : lookup key o = None -> assign key v o = o ++ [(key, v)].
Proof.
  induction o as [|[k w] o IH]; simpl; auto.
  destruct (k =? key); [discriminate | intros H; now rewrite IH].
Qed.

(** The local loops of [mergeDeep] are [mergeItems] and [merge]. *)
Lemma mergeDeep_arrays d s :
  mergeDeep clash (Some (VArr d)) (VArr s) = VArr (mergeItems clash d s).
Proof.
  reflexivity.
Qed.

Lemma mergeDeep_objects d s :
  mergeDeep clash (Some (VObj d)) (VObj s) = VObj (merge clash d s).
Proof.
  reflexivity.
Qed.

Lemma mergeDeep_fresh_array s :
  mergeDeep clash None (VArr s) = VArr (mergeItems clash [] s).
Proof.
  reflexivity.
Qed.

Lemma mergeDeep_fresh_object s :
  mergeDeep clash None (VObj s) = VObj (merge clash [] s).
Proof.
  reflexivity.
Qed.

Lemma mergeDeep_scalar o s : is_scalar s = true -> mergeDeep clash o s = s.
Proof. destruct s; simpl; auto; discriminate. Qed.

Lemma merge_step object k s source :
  merge clash object ((k, s) :: source) =
  if passedOver k s then merge clash object source
  else merge clash (assign k (mergeDeep clash (lookup k object) s) object) source.
Proof.
  reflexivity.
Qed.

Lemma passedOver_scalar key s : is_scalar s = true -> passedOver key s = false.
Proof.
  unfold passedOver. destruct s; simpl; try discriminate; intros _; apply andb_false_r.
Qed.

Lemma passedOver_other key s : key <> "__proto__" -> passedOver key s = false.
Proof.
  intros H. unfold passedOver. apply String.eqb_neq in H. now rewrite H.
Qed.

(** A mapping under [__proto__] is passed over, a scalar is stored. *)
Example merge_proto :
  merge clash [("a", VNum 1)] [("__proto__", VObj [("polluted", VBool true)]);
                               ("b", VNum 2)]
  = [("a", VNum 1); ("b", VNum 2)]
  /\ merge clash [] [("__proto__", VStr "x")] = [("__proto__", VStr "x")]
  /\ merge clash [] [("deep", VObj [("__proto__", VArr [VNum 1]); ("c", VNum 3)])]
     = [("deep", VObj [("c", VNum 3)])].
Proof. repeat split. Qed.

(** A key that the source does not set keeps its value. *)
Lemma lookup_merge_untouched key source : forall object,
  lookup key source = None ->
  lookup key (merge clash object source) = lookup key object.
Proof.
  induction source as [|[k s] source IH]; intros object Hk; auto.
  rewrite merge_step. simpl in Hk.
  destruct (k =? key) eqn:E; [discriminate|].
  destruct (passedOver k s); [now apply IH|].
  rewrite IH by assumption. apply lookup_assign_other.
  now apply String.eqb_neq.
Qed.

(** A key that the source sets, and that is not passed over, receives
    the merge of both values. *)
Lemma lookup_merge_set key s source : forall object,
  NoDup (keys source) ->
  lookup key source = Some s ->
  passedOver key s = false ->
  lookup key (merge clash object source) = Some (mergeDeep clash (lookup key object) s).
Proof.
  induction source as [|[k x] source IH]; intros object Hnd Hk Hp; [discriminate|].
  rewrite merge_step. simpl in Hnd, Hk.
  inversion Hnd as [|? ? Hnotin Hnd']; subst.
  destruct (k =? key) eqn:E.
  - apply String.eqb_eq in E. subst k. injection Hk as ->. rewrite Hp.
    rewrite lookup_merge_untouched by now apply lookup_none_not_key.
    apply lookup_assign_same.
  - destruct (passedOver k x); [now apply IH|].
    rewrite IH by assumption. f_equal. f_equal.
    apply lookup_assign_other. now apply String.eqb_neq.
Qed.

(** A key that the source sets and that is passed over keeps its
    value. *)
Lemma lookup_merge_passed key s source : forall object,
  NoDup (keys source) ->
  lookup key source = Some s ->
  passedOver key s = true ->
  lookup key (merge clash object source) = lookup key object.
Proof.
  induction source as [|[k x] source IH]; intros object Hnd Hk Hp; [discriminate|].
  rewrite merge_step. simpl in Hnd, Hk.
  inversion Hnd as [|? ? Hnotin Hnd']; subst.
  destruct (k =? key) eqn:E.
  - apply String.eqb_eq in E. subst k. injection Hk as ->. rewrite Hp.
    apply lookup_merge_untouched. now apply lookup_none_not_key.
  - destruct (passedOver k x); [now apply IH|].
    rewrite IH by assumption.
    apply lookup_assign_other. now apply String.eqb_neq.
Qed.

Lemma wf_array items : wf (VArr items) <-> Forall wf items.
Proof.
  induction items as [|x items IH].
  - simpl; split; auto.
  - split.
    + intros [Hx Hr]. constructor; [exact Hx | now apply IH].
    + intros H. inversion H; subst. split; [assumption | now apply IH].
Qed.

Lemma wf_object fields :
  wf (VObj fields) <->
  NoDup (keys fields) /\
  Forall (fun kv => passedOver (fst kv) (snd kv) = false /\ wf (snd kv)) fields.
Proof.
  unfold keys. simpl.
  split; intros [Hnd H]; split; auto; clear Hnd.
  - induction fields as [|[k x] fields IH]; constructor.
    + split; [exact (proj1 H) | exact (proj1 (proj2 H))].
    + apply IH, (proj2 (proj2 H)).
  - induction fields as [|[k x] fields IH]; [exact I|].
    inversion H as [|? ? [Hp Hx] Hr]; subst.
    split; [exact Hp | split; [exact Hx | now apply IH]].
Qed.

(** The properties of a well-formed mapping are well formed and none is
    passed over. *)
Lemma lookup_kept key v o :
  wf_obj o -> lookup key o = Some v -> passedOver key v = false /\ wf v.
Proof.
  intros H. apply wf_object in H. destruct H as [_ H].
  induction o as [|[k x] o IH]; simpl; [discriminate|].
  inversion H as [|? ? Hx Hr]; subst. simpl in Hx.
  destruct (k =? key) eqn:E; [|now apply IH].
  apply String.eqb_eq in E. subst k. now intros [= <-].
Qed.

(** Merging a well-formed source under a missing key, or into a fresh
    container, stores a copy of the source. *)
Lemma mergeDeep_copy v : wf v -> mergeDeep clash None v = v.
Proof.
  induction v as [| | | |items IH|fields IH] using value_ind; intros Hwf; auto.
  - rewrite mergeDeep_fresh_array. f_equal.
    apply wf_array in Hwf.
    induction items as [|x items IHl]; simpl; auto.
    inversion IH; inversion Hwf; subst.
    f_equal; auto.
  - rewrite mergeDeep_fresh_object. f_equal.
    apply wf_object in Hwf. destruct Hwf as [Hnd Hwf].
    enough (G : forall acc, (forall k, In k (keys fields) -> lookup k acc = None) ->
                            merge clash acc fields = acc ++ fields)
      by (apply (G []); reflexivity).
    induction fields as [|[k x] fields IHl]; intros acc Hacc.
    + simpl. now rewrite app_nil_r.
    + rewrite merge_step.
      inversion IH as [|? ? Hx IH']; inversion Hwf as [|? ? [Hp Hwx] Hwf'];
        inversion Hnd; subst. simpl in *.
      rewrite Hp.
      rewrite (Hacc k) by auto.
      rewrite Hx by assumption.
      rewrite assign_fresh by auto.
      rewrite IHl; auto.
      * now rewrite <- app_assoc.
      * intros k' Hk'.
        assert (k <> k') by (intros ->; contradiction).
        apply lookup_none_not_key. unfold keys. rewrite map_app. simpl.
        rewrite in_app_iff. simpl.
        intros [Hin|[Heq|[]]]; [|contradiction].
        specialize (Hacc k' (or_intror Hk')).
        apply lookup_none_not_key in Hacc. contradiction.
Qed.

(** Index-wise description of the merge of two arrays. *)
Lemma mergeItems_length s : forall d,
  length (mergeItems clash d s) = Nat.max (length d) (length s).
Proof.
  induction s as [|x s IH]; intros d; simpl.
  - now rewrite Nat.max_0_r.
  - destruct d; simpl; rewrite IH; reflexivity.
Qed.

Lemma mergeItems_nth s : forall d i x,
  nth_error s i = Some x ->
  nth_error (mergeItems clash d s) i = Some (mergeDeep clash (nth_error d i) x).
Proof.
  induction s as [|y s IH]; intros d i x Hi.
  - destruct i; discriminate.
  - destruct i as [|i]; simpl in *.
    + injection Hi as ->. destruct d; reflexivity.
    + destruct d as [|z d]; simpl.
      * rewrite (IH [] i x Hi). now destruct i.
      * apply IH, Hi.
Qed.

Lemma mergeItems_tail s : forall d i,
  length s <= i ->
  nth_error (mergeItems clash d s) i = nth_error d i.
Proof.
  induction s as [|y s IH]; intros d i Hi; simpl; auto.
  destruct i as [|i]; simpl in *; [lia|].
  destruct d as [|z d]; simpl.
  - rewrite IH by lia. now destruct i.
  - apply IH. lia.
Qed.

End MergeFacts.

(* ===================================================================== *)
(** ** [mergeSpecsFiles]                                                  *)
(* ===================================================================== *)

Section MergeSpecsFacts.
Import Async Lodash ApiGateway Levels.

Variable clash : value -> value -> value.
Variable w : world.

Lemma split_not_nil c s : Js.split c s <> [].
Proof.
  destruct s as [|a s]; simpl; [discriminate|].
  destruct (Ascii.eqb a c); [discriminate|].
  destruct (Js.split c s); discriminate.
Qed.

Lemma eq_code_spec e c : eq_code e c = true <-> code e = Some c.
Proof.
  unfold eq_code. destruct (code e) as [c'|].
  - rewrite String.eqb_eq. split; congruence.
  - split; discriminate.
Qed.

Lemma mergeSpecsLoop_step spec dir segment rest :
  mergeSpecsLoop clash w spec dir (segment :: rest) =
  match loadedFrom w (Js.path_join [dir; segment]) with
  | inl e => inl e
  | inr subSpec =>
      match rest with
      | [] => inr (merge clash spec subSpec)
      | _ :: _ => mergeSpecsLoop clash w (merge clash spec subSpec)
                    (Js.path_join [dir; segment]) rest
      end
  end.
Proof. reflexivity. Qed.

Lemma loadedFrom_fragment dir fragment :
  fragmentOf w dir fragment -> loadedFrom w dir = inr fragment.
Proof.
  unfold fragmentOf, loadedFrom, noSpec.
  intros [H|[[e [H Hc]] ->]]; rewrite H; auto.
  apply eq_code_spec in Hc. now rewrite Hc.
Qed.

(** The loop is the left fold of [_.merge] over the fragments found
    along the path. *)
Lemma mergeSpecsLoop_fold segments : forall spec dir fragments,
  segments <> [] ->
  Forall2 (fragmentOf w) (dirsFrom dir segments) fragments ->
  mergeSpecsLoop clash w spec dir segments = inr (fold_left (merge clash) fragments spec).
Proof.
  induction segments as [|segment rest IH]; intros spec dir fragments Hne HF; [congruence|].
  rewrite mergeSpecsLoop_step. simpl in HF.
  inversion HF as [|? fragment ? fragments' Hfrag HF']; subst.
  rewrite (loadedFrom_fragment _ _ Hfrag).
  destruct rest as [|segment' rest].
  - inversion HF'; subst. reflexivity.
  - simpl fold_left. apply IH; [discriminate | assumption].
Qed.

(** The first directory whose [spec] module fails to load for another
    reason than its absence gives the error thrown. *)
Lemma mergeSpecsLoop_throws segments : forall spec dir before fragments failing after e,
  dirsFrom dir segments = before ++ failing :: after ->
  Forall2 (fragmentOf w) before fragments ->
  require w (specModule failing) = inl e ->
  code e <> Some "MODULE_NOT_FOUND" ->
  mergeSpecsLoop clash w spec dir segments = inl e.
Proof.
  induction segments as [|segment rest IH];
    intros spec dir before fragments failing after e Hd HF Hreq Hcode.
  - destruct before; discriminate.
  - rewrite mergeSpecsLoop_step. simpl in Hd.
    destruct before as [|b before]; simpl in Hd; injection Hd as Hhd Htl.
    + subst failing. unfold loadedFrom. rewrite Hreq.
      destruct (eq_code e "MODULE_NOT_FOUND") eqn:E; [|reflexivity].
      apply eq_code_spec in E. contradiction.
    + inversion HF as [|? fragment ? fragments' Hfrag HF']; subst.
      rewrite (loadedFrom_fragment _ _ Hfrag).
      destruct rest as [|segment' rest].
      * destruct before; discriminate.
      * eapply IH; eauto.
Qed.

End MergeSpecsFacts.

Section MergeSpecsClaims.
Import Async Lodash ApiGateway Levels.

Variable clash : value -> value -> value.
Variable w : world.

(** C1 (amended). [mergeSpecsFiles] walks from the root toward the leaf
    and merges the fragment of every level into the accumulator with
    [_.merge]: the result is the left fold of the merge over the
    fragments of the levels. For an accumulator [shallow] and the
    fragment [deep] of a deeper level, [deep] having unique keys at
    every level and no mapping or sequence under a key [__proto__]
    (a property that [_.merge] passes over): a key that [deep] does not
    set keeps its value; a key set only by [deep] receives the value of
    [deep]; a scalar of [deep] replaces whatever the key held; two
    mappings under one key are merged key by key, recursively; two
    sequences under one key are merged index by index, the items of the
    shallower sequence beyond the length of the deeper one being kept. *)
Theorem mergeSpecsFiles_deep_merge beginPath subPath fragments :
  Forall2 (fragmentOf w) (specDirs beginPath subPath) fragments ->
  mergeSpecsFiles clash w beginPath subPath = inr (fold_left (merge clash) fragments [])
  /\ forall (shallow deep : obj) (key : string),
       wf_obj deep ->
       (lookup key deep = None ->
        lookup key (merge clash shallow deep) = lookup key shallow)
       /\ (forall v, lookup key deep = Some v -> lookup key shallow = None ->
           lookup key (merge clash shallow deep) = Some v)
       /\ (forall v, lookup key deep = Some v -> is_scalar v = true ->
           lookup key (merge clash shallow deep) = Some v)
       /\ (forall s d, lookup key shallow = Some (VObj s) -> lookup key deep = Some (VObj d) ->
           lookup key (merge clash shallow deep) = Some (VObj (merge clash s d)))
       /\ (forall s d, lookup key shallow = Some (VArr s) -> lookup key deep = Some (VArr d) ->
           exists merged,
             lookup key (merge clash shallow deep) = Some (VArr merged)
             /\ length merged = Nat.max (length s) (length d)
             /\ (forall i x, nth_error d i = Some x ->
                   nth_error merged i = Some (mergeDeep clash (nth_error s i) x))
             /\ (forall i, length d <= i -> nth_error merged i = nth_error s i)).
Proof.
  intros HF. split.
  - unfold mergeSpecsFiles. apply mergeSpecsLoop_fold; [apply split_not_nil | exact HF].
  - intros shallow deep key Hwf.
    pose proof (fun v => lookup_kept key v deep Hwf) as Hkept.
    apply wf_object in Hwf. destruct Hwf as [Hnd _].
    split; [|split; [|split; [|split]]].
    + apply lookup_merge_untouched.
    + intros v Hd Hs. destruct (Hkept v Hd) as [Hp Hv].
      rewrite (lookup_merge_set clash key v) by assumption.
      rewrite Hs. f_equal. now apply mergeDeep_copy.
    + intros v Hd Hv.
      rewrite (lookup_merge_set clash key v) by (auto using passedOver_scalar).
      f_equal. now apply mergeDeep_scalar.
    + intros s d Hs Hd. destruct (Hkept _ Hd) as [Hp _].
      rewrite (lookup_merge_set clash key (VObj d)) by assumption.
      now rewrite Hs, mergeDeep_objects.
    + intros s d Hs Hd. exists (mergeItems clash s d). destruct (Hkept _ Hd) as [Hp _].
      rewrite (lookup_merge_set clash key (VArr d)) by assumption.
      rewrite Hs, mergeDeep_arrays.
      split; [reflexivity|]. split; [apply mergeItems_length|].
      split; [apply mergeItems_nth | apply mergeItems_tail].
Qed.

(** C3. When no directory along the sub-path holds a [spec] module,
    [mergeSpecsFiles] returns the empty document and throws nothing. *)
Theorem mergeSpecsFiles_without_fragment beginPath subPath :
  Forall (noSpec w) (specDirs beginPath subPath) ->
  mergeSpecsFiles clash w beginPath subPath = inr [].
Proof.
  intros H.
  assert (HF : Forall2 (fragmentOf w) (specDirs beginPath subPath)
                 (map (fun _ => []) (specDirs beginPath subPath))).
  { induction H; simpl; constructor; auto. right. split; auto. }
  unfold mergeSpecsFiles.
  rewrite (mergeSpecsLoop_fold clash w _ _ _ _ (split_not_nil _ _) HF).
  f_equal. clear. induction (specDirs beginPath subPath); simpl; auto.
Qed.

End MergeSpecsClaims.

Section MergeSpecsExamples.
Import Async Lodash ApiGateway Levels Samples.

Example specDirs_users_get :
  specDirs "/app/endpoints" "/users/GET" =
  ["/app/endpoints"; "/app/endpoints/users"; "/app/endpoints/users/GET"].
Proof. reflexivity. Qed.

Example mergeSpecsFiles_users_get :
  mergeSpecsFiles keepSource tagsWorld "/app/endpoints" "/users/GET" =
  inr [("tags", VArr [VStr "c"; VStr "b"]);
       ("x-lager", VObj [("apis", VArr [VStr "public"]); ("lambda", VStr "list-users")]);
       ("produces", VStr "application/json");
       ("summary", VStr "List users")].
Proof. reflexivity. Qed.

(** C1, counterexample. The level [users] sets the sequence
    [tags = [a, b]] and the deeper level [users/GET] sets
    [tags = [c]]: the merged document holds [[c, b]], not the value of
    the deeper fragment. *)
Lemma mergeSpecsFiles_sequence_not_replaced :
  require tagsWorld (specModule "/app/endpoints/users") = inr usersFragment
  /\ lookup "tags" usersFragment = Some (VArr [VStr "a"; VStr "b"])
  /\ require tagsWorld (specModule "/app/endpoints/users/GET") = inr usersGetFragment
  /\ lookup "tags" usersGetFragment = Some (VArr [VStr "c"])
  /\ (exists merged,
        mergeSpecsFiles keepSource tagsWorld "/app/endpoints" "/users/GET" = inr merged
        /\ lookup "tags" merged = Some (VArr [VStr "c"; VStr "b"]))
  /\ VArr [VStr "c"; VStr "b"] <> VArr [VStr "c"].
Proof.
  repeat split; try reflexivity.
  - eexists. split; reflexivity.
  - discriminate.
Qed.

Lemma tagsWorld_fragments :
  Forall2 (fragmentOf tagsWorld) (specDirs "/app/endpoints" "/users/GET")
    [[]; usersFragment; usersGetFragment].
Proof.
  rewrite specDirs_users_get.
  constructor; [|constructor; [|constructor; [|constructor]]].
  - right. split; [|reflexivity]. exists moduleNotFound. split; reflexivity.
  - left. reflexivity.
  - left. reflexivity.
Defined.

Lemma mergeSpecsFiles_deep_merge_witness :
  mergeSpecsFiles keepSource tagsWorld "/app/endpoints" "/users/GET"
  = inr (fold_left (merge keepSource) [[]; usersFragment; usersGetFragment] []).
Proof.
  exact (proj1 (mergeSpecsFiles_deep_merge keepSource tagsWorld
                  "/app/endpoints" "/users/GET" _ tagsWorld_fragments)).
Defined.

Lemma bareWorld_no_spec :
  Forall (noSpec bareWorld) (specDirs "/app/endpoints" "/users/GET").
Proof.
  rewrite specDirs_users_get.
  constructor; [|constructor; [|constructor; [|constructor]]];
    exists moduleNotFound; split; reflexivity.
Defined.

Lemma mergeSpecsFiles_without_fragment_witness :
  mergeSpecsFiles keepSource bareWorld "/app/endpoints" "/users/GET" = inr [].
Proof.
  exact (mergeSpecsFiles_without_fragment keepSource bareWorld
           "/app/endpoints" "/users/GET" bareWorld_no_spec).
Defined.

End MergeSpecsExamples.

(* ===================================================================== *)
(** ** The hook bus                                                       *)
(* ===================================================================== *)

Section BusFacts.
Import Async Lager.

Context {A : Type}.
Variable plugins : list (plugin A).
Variable eventName : string.

Lemma skipn_at_end (l : list (plugin A)) i : nth_error l i = None -> skipn i l = [].
Proof. intros H. apply skipn_all2. now apply nth_error_None. Qed.

Lemma skipn_at (l : list (plugin A)) : forall i p,
  nth_error l i = Some p -> skipn i l = p :: skipn (i + 1) l.
Proof.
  induction l as [|x l IH]; intros [|i] p H; simpl in *; try discriminate.
  - now injection H as ->.
  - now apply IH.
Qed.

(** The recursion on the index walks the registered plugins in order. *)
Lemma callPluginsSequencialy_thread i args :
  callPluginsSequencialy A plugins eventName i args
  = threadHooks (skipn i plugins) eventName args.
Proof.
  funelim (callPluginsSequencialy A plugins eventName i args).
  - now rewrite skipn_at_end.
  - rewrite (skipn_at _ _ _ Hp). simpl.
    match goal with H : hookOf p eventName = None |- _ => rewrite H end.
    assumption.
  - rewrite (skipn_at _ _ _ Hp). simpl.
    repeat match goal with
           | H : hookOf p eventName = Some _ |- _ => rewrite H
           | H : h args = Resolved _ |- _ => rewrite H
           end.
    cbv zeta.
    match goal with IH : callPluginsSequencialy _ _ _ _ _ = threadHooks _ _ _ |- _ =>
      rewrite IH end.
    reflexivity.
  - rewrite (skipn_at _ _ _ Hp). simpl.
    repeat match goal with
           | H : hookOf p eventName = Some _ |- _ => rewrite H
           | H : h args = Rejected _ |- _ => rewrite H
           end.
    reflexivity.
Qed.

Lemma fireTraced_thread args :
  fireTraced A plugins eventName args = threadHooks plugins eventName args.
Proof. unfold fireTraced. now rewrite callPluginsSequencialy_thread. Qed.

End BusFacts.

Section ThreadFacts.
Import Async Lager.

Context {A : Type}.
Variable eventName : string.

(** Without any implementation of the hook nothing is invoked and the
    arguments come back. *)
Lemma threadHooks_unhooked (plugins : list (plugin A)) args :
  forallb (fun p => negb (implements eventName p)) plugins = true ->
  threadHooks plugins eventName args = ([], Resolved args).
Proof.
  induction plugins as [|p rest IH]; simpl; auto.
  unfold implements at 1. destruct (hookOf p eventName); simpl; [discriminate|auto].
Qed.

Lemma fire_unhooked (plugins : list (plugin A)) args :
  forallb (fun p => negb (implements eventName p)) plugins = true ->
  fire plugins eventName args = Resolved args.
Proof.
  intros H. unfold fire. now rewrite fireTraced_thread, threadHooks_unhooked.
Qed.

(** When the dispatch resolves, the plugins invoked are the
    implementing ones, in registration order. *)
Lemma threadHooks_resolved_order (plugins : list (plugin A)) : forall args final,
  snd (threadHooks plugins eventName args) = Resolved final ->
  map fst (fst (threadHooks plugins eventName args))
  = map name (filter (implements eventName) plugins).
Proof.
  induction plugins as [|p rest IH]; intros args final; simpl; auto.
  unfold implements at 1.
  destruct (hookOf p eventName) as [h|]; [|apply IH].
  destruct (h args) as [args'|e]; simpl; [|discriminate].
  intros H. f_equal. eapply IH, H.
Qed.

End ThreadFacts.

Section BusClaims.
Import Async Lager.

Context {A : Type}.

(** For an event name that [Object.prototype] does not bear, the test of
    [fire] is whether the plugin declares the hook. *)
Lemma implements_declares (eventName : string) (p : plugin A) :
  Js.inherited eventName = false -> implements eventName p = declares eventName p.
Proof.
  intros H. unfold implements, hookOf, declares.
  destruct (hooks p) as [hs|]; [|reflexivity]. rewrite H.
  induction hs as [|[k h] hs IH]; simpl; [reflexivity|].
  destruct (k =? eventName); [reflexivity | exact IH].
Qed.

Lemma undeclared_unhooked (eventName : string) (plugins : list (plugin A)) :
  Js.inherited eventName = false ->
  forallb (fun p => negb (declares eventName p)) plugins = true ->
  forallb (fun p => negb (implements eventName p)) plugins = true.
Proof.
  intros H. induction plugins as [|p rest IH]; simpl; [reflexivity|].
  rewrite implements_declares by assumption.
  destruct (declares eventName p); simpl; [discriminate | exact IH].
Qed.

(** C2. [fire] tests [plugin.hooks[eventName]], a property access that
    follows the prototype chain, and not whether the plugin declares the
    hook. For an event name that is not a name of [Object.prototype]
    the two agree and the claim holds: firing an event for which no
    registered plugin declares a hook resolves to the original
    arguments and invokes nothing; otherwise the plugins before the
    first declaring one are skipped, that plugin receives the arguments,
    and the arguments it resolves to are what the rest of the registered
    plugins is fired with; when the dispatch resolves, the plugins
    invoked are exactly the declaring ones, in registration order. For
    an event named like a member of [Object.prototype] the claim fails:
    a first plugin that has a [hooks] object without a hook for the
    event is invoked all the same, with the inherited member as its
    hook, and the dispatch ends there with a [TypeError] instead of
    moving to the next plugin. *)
Theorem fire_inherited_member (plugins : list (plugin A)) (eventName : string)
    (args : list A) :
  (Js.inherited eventName = false ->
   (forallb (fun p => negb (declares eventName p)) plugins = true ->
    fireTraced A plugins eventName args = ([], Resolved args)
    /\ fire plugins eventName args = Resolved args)
   /\ (forall before p h after args',
         plugins = before ++ p :: after ->
         forallb (fun p => negb (declares eventName p)) before = true ->
         hookOf p eventName = Some h ->
         h args = Resolved args' ->
         declares eventName p = true
         /\ fireTraced A plugins eventName args
            = ((name p, args) :: fst (fireTraced A after eventName args'),
               snd (fireTraced A after eventName args'))
         /\ fire plugins eventName args = fire after eventName args')
   /\ (forall final,
         fire plugins eventName args = Resolved final ->
         map fst (fst (fireTraced A plugins eventName args))
         = map name (filter (declares eventName) plugins)))
  /\ (Js.inherited eventName = true ->
      forall p rest,
        plugins = p :: rest ->
        hooks p <> None ->
        declares eventName p = false ->
        fireTraced A plugins eventName args = ([(name p, args)], Rejected typeError)
        /\ fire plugins eventName args = Rejected typeError).
Proof.
  split.
  - intros Hn. split; [|split].
    + intros H. apply (undeclared_unhooked _ _ Hn) in H. split.
      * now rewrite fireTraced_thread, threadHooks_unhooked.
      * now apply fire_unhooked.
    + intros before p h after args' -> Hb Hh Hr.
      apply (undeclared_unhooked _ _ Hn) in Hb.
      split.
      { rewrite <- implements_declares by assumption.
        unfold implements. now rewrite Hh. }
      assert (E : threadHooks (before ++ p :: after) eventName args
                  = ((name p, args) :: fst (threadHooks after eventName args'),
                     snd (threadHooks after eventName args'))).
      { clear - Hb Hh Hr. induction before as [|q before IH]; simpl in *.
        - now rewrite Hh, Hr.
        - apply andb_prop in Hb. destruct Hb as [Hq Hb].
          unfold implements in Hq. destruct (hookOf q eventName); [discriminate|].
          now apply IH. }
      unfold fire. rewrite !fireTraced_thread, E. split; reflexivity.
    + intros final. unfold fire. rewrite fireTraced_thread.
      intros H. rewrite (threadHooks_resolved_order _ _ _ _ H).
      f_equal. apply filter_ext. intros p. now apply implements_declares.
  - intros Hi p rest -> Hh Hd.
    assert (E : hookOf p eventName = Some inheritedMember).
    { unfold hookOf. unfold declares in Hd.
      destruct (hooks p) as [hs|]; [|contradiction]. rewrite Hi.
      clear Hh. induction hs as [|[k h] hs IH]; simpl in *; [reflexivity|].
      destruct (k =? eventName); [discriminate | now apply IH]. }
    unfold fire. rewrite fireTraced_thread. simpl. rewrite E. split; reflexivity.
Qed.

End BusClaims.

Section BusExamples.
Import Async Lager Samples.

Example fire_replaces_second :
  fireTraced string samplePlugins "afterLoad" ["a"; "b"; "c"]
  = ([("cors", ["a"; "b"; "c"]); ("log", ["a"; "replaced"; "c"])],
     Resolved ["A"; "REPLACED"; "C"]).
Proof. reflexivity. Qed.

Example fire_unknown_event :
  fireTraced string samplePlugins "registerCommands" ["a"; "b"; "c"]
  = ([], Resolved ["a"; "b"; "c"]).
Proof. reflexivity. Qed.

(** No plugin of the samples declares a hook named [toString], and
    firing that event fails in the first plugin that has hooks. *)
Example fire_toString :
  existsb (declares "toString") samplePlugins = false
  /\ fireTraced string samplePlugins "toString" ["a"; "b"; "c"]
     = ([("cors", ["a"; "b"; "c"])], Rejected typeError).
Proof. split; reflexivity. Qed.

Lemma fire_inherited_member_witness :
  (fire samplePlugins "registerCommands" ["a"; "b"; "c"] = Resolved ["a"; "b"; "c"])
  /\ (fire samplePlugins "afterLoad" ["a"; "b"; "c"]
      = fire [mkPlugin "iam" (Some [("beforeLoad", shout)]);
              mkPlugin "log" (Some [("afterLoad", shout)])]
             "afterLoad" ["a"; "replaced"; "c"])
  /\ (forallb (fun p => negb (declares "toString" p))
        [mkPlugin "cors" (Some [("afterLoad", replaceSecond)]);
         mkPlugin "log" (Some [("afterLoad", shout)])] = true
      /\ fire [mkPlugin "cors" (Some [("afterLoad", replaceSecond)]);
               mkPlugin "log" (Some [("afterLoad", shout)])]
              "toString" ["a"; "b"; "c"]
         = Rejected typeError).
Proof.
  split; [|split; [|split]].
  - exact (proj2 (proj1 (proj1 (fire_inherited_member samplePlugins "registerCommands"
                                  ["a"; "b"; "c"]) eq_refl) eq_refl)).
  - exact (proj2 (proj2 (proj1 (proj2 (proj1 (fire_inherited_member samplePlugins
                                                "afterLoad" ["a"; "b"; "c"]) eq_refl))
                    [mkPlugin "core" None]
                    (mkPlugin "cors" (Some [("afterLoad", replaceSecond)]))
                    replaceSecond _ ["a"; "replaced"; "c"]
                    eq_refl eq_refl eq_refl eq_refl))).
  - reflexivity.
  - exact (proj2 (proj2 (fire_inherited_member
                           [mkPlugin "cors" (Some [("afterLoad", replaceSecond)]);
                            mkPlugin "log" (Some [("afterLoad", shout)])]
                           "toString" ["a"; "b"; "c"]) eq_refl
                    _ _ eq_refl ltac:(discriminate) eq_refl)).
Defined.

End BusExamples.

(* ===================================================================== *)
(** ** Paths                                                              *)
(* ===================================================================== *)

Section PathFacts.
Import Levels.

Lemma append_assoc (a b c : string) : ((a ++ b) ++ c = a ++ (b ++ c))%string.
Proof. induction a as [|x a IH]; simpl; [reflexivity | now rewrite IH]. Qed.

Lemma split_append_sep (a b : string) :
  Js.split Js.sep_char (a ++ String "/" b)
  = Js.split Js.sep_char a ++ Js.split Js.sep_char b.
Proof.
  induction a as [|c a IH]; simpl; [reflexivity|].
  destruct (Ascii.eqb c Js.sep_char).
  - now rewrite IH.
  - rewrite IH.
    destruct (Js.split Js.sep_char a) eqn:E; [now apply split_not_nil in E|].
    reflexivity.
Qed.

Lemma split_noSeparator s : noSeparator s = true -> Js.split Js.sep_char s = [s].
Proof.
  induction s as [|c s IH]; simpl; [reflexivity|].
  intros H. apply andb_prop in H. destruct H as [Hc Hs].
  apply negb_true_iff in Hc. rewrite Hc, (IH Hs). reflexivity.
Qed.

Lemma join_snoc (l : list string) (x : string) :
  Js.join Js.sep (l ++ [x])
  = match l with
    | [] => x
    | _ :: _ => (Js.join Js.sep l ++ String "/" x)%string
    end.
Proof.
  unfold Js.join. induction l as [|a l IH]; [reflexivity|].
  destruct l as [|b l]; [reflexivity|].
  change (String.concat Js.sep ((a :: b :: l) ++ [x]))
    with (a ++ Js.sep ++ String.concat Js.sep ((b :: l) ++ [x]))%string.
  rewrite IH.
  change (String.concat Js.sep (a :: b :: l))
    with (a ++ Js.sep ++ String.concat Js.sep (b :: l))%string.
  now rewrite !append_assoc.
Qed.

Lemma ends_with_sep_append (a b : string) :
  b <> "" -> Js.ends_with_sep (a ++ b) = Js.ends_with_sep b.
Proof.
  intros Hb. induction a as [|c a IH]; [reflexivity|].
  simpl. rewrite IH.
  destruct (a ++ b)%string eqn:E; [|reflexivity].
  destruct a; [simpl in E; contradiction | discriminate].
Qed.

Lemma entryName_inv s :
  entryName s = true -> s <> "" /\ s <> "." /\ s <> ".." /\ noSeparator s = true.
Proof.
  unfold entryName, Js.truthy_string. intros H.
  repeat (apply andb_prop in H; destruct H as [H ?]).
  repeat split; auto.
  all: intros ->; discriminate.
Qed.

Lemma noSeparator_no_trailing_sep s : noSeparator s = true -> Js.ends_with_sep s = false.
Proof.
  induction s as [|c s IH]; [reflexivity|].
  simpl. intros H. apply andb_prop in H. destruct H as [Hc Hs].
  destruct s; [now apply negb_true_iff in Hc | auto].
Qed.

Lemma normalizeStep_entry allow acc s :
  entryName s = true -> Js.normalizeStep allow acc s = s :: acc.
Proof.
  intros H. apply entryName_inv in H. destruct H as (H1 & H2 & H3 & _).
  unfold Js.normalizeStep.
  apply String.eqb_neq in H1, H2, H3. now rewrite H1, H2, H3.
Qed.

Lemma append_not_empty (a : string) c b : ((a ++ String c b) =? "")%string = false.
Proof. destruct a; reflexivity. Qed.

Lemma split_singleton j : forall w, Js.split Js.sep_char j = [w] -> j = w.
Proof.
  induction j as [|c j IH]; intros w Hw; simpl in Hw.
  - now injection Hw.
  - destruct (Ascii.eqb c Js.sep_char).
    + injection Hw as _ Hnil. now apply split_not_nil in Hnil.
    + destruct (Js.split Js.sep_char j) as [|x xs] eqn:E; [now apply split_not_nil in E|].
      injection Hw as <- ->. now rewrite (IH x eq_refl).
Qed.

(** A path that ends with the separator has an empty last segment. *)
Lemma ends_with_sep_last j :
  Js.ends_with_sep j = true -> last (Js.split Js.sep_char j) "" = "".
Proof.
  induction j as [|c j IH]; [discriminate|].
  intros H. simpl in H. simpl Js.split.
  destruct j as [|c' j'].
  - rewrite H. reflexivity.
  - specialize (IH H). set (j := String c' j') in *.
    destruct (Js.split Js.sep_char j) as [|x xs] eqn:E; [now apply split_not_nil in E|].
    destruct (Ascii.eqb c Js.sep_char).
    + exact IH.
    + destruct xs as [|y ys].
      * simpl in IH. subst x. apply split_singleton in E. discriminate.
      * exact IH.
Qed.

(** Normalizing a path whose last segment is an entry name keeps that
    name as last segment. *)
Lemma normalize_ends_with_entry j segments s :
  entryName s = true ->
  Js.split Js.sep_char j = segments ++ [s] ->
  Js.normalize j = s \/ exists p, Js.normalize j = (p ++ String "/" s)%string.
Proof.
  intros H Hj. pose proof (entryName_inv _ H) as (H1 & _ & _ & H4).
  assert (Hj0 : (j =? "")%string = false).
  { destruct j; [|reflexivity]. simpl in Hj.
    destruct segments as [|x [|y segments]]; simpl in Hj; try discriminate.
    injection Hj as <-. contradiction. }
  assert (Htrail : Js.ends_with_sep j = false).
  { destruct (Js.ends_with_sep j) eqn:E; [|reflexivity].
    apply ends_with_sep_last in E. rewrite Hj, last_last in E. contradiction. }
  unfold Js.normalize. rewrite Hj0, Htrail, andb_false_r.
  unfold Js.normalizeString. rewrite Hj, fold_left_app. simpl fold_left.
  rewrite normalizeStep_entry by assumption.
  simpl rev. rewrite join_snoc.
  destruct (rev _) as [|k kept].
  - apply String.eqb_neq in H1. rewrite H1. simpl.
    destruct (Js.starts_with_sep j); [right; now exists ""%string | now left].
  - rewrite append_not_empty. simpl.
    destruct (Js.starts_with_sep j); right; eexists.
    + unfold Js.sep. simpl. change (String "/" (?a ++ ?b))%string with ((String "/" a) ++ b)%string.
      reflexivity.
    + reflexivity.
Qed.

Lemma path_join_ends_with_entry dir s :
  entryName s = true ->
  Js.path_join [dir; s] = s
  \/ exists p, Js.path_join [dir; s] = (p ++ String "/" s)%string.
Proof.
  intros H. pose proof (entryName_inv _ H) as (H1 & _ & _ & H4).
  assert (Hs : Js.truthy_string s = true)
    by (unfold Js.truthy_string; apply String.eqb_neq in H1; now rewrite H1).
  unfold Js.path_join. simpl filter. rewrite Hs.
  destruct dir as [|c dir]; simpl filter; unfold Js.join; simpl String.concat.
  - apply String.eqb_neq in H1. rewrite H1.
    apply (normalize_ends_with_entry s []); [assumption|].
    now apply split_noSeparator.
  - apply (normalize_ends_with_entry _ (Js.split Js.sep_char (String c dir))); [assumption|].
    change (String c (dir ++ String "/" s))%string with (String c dir ++ String "/" s)%string.
    rewrite split_append_sep. now rewrite (split_noSeparator s).
Qed.

Lemma basename_entry_last p s : entryName s = true -> Js.basename (p ++ String "/" s) = s.
Proof.
  intros H. pose proof (entryName_inv _ H) as (H1 & _ & _ & H4).
  unfold Js.basename. rewrite split_append_sep, filter_app.
  rewrite (split_noSeparator s) by assumption. simpl.
  unfold Js.truthy_string at 2. apply String.eqb_neq in H1. rewrite H1. simpl.
  apply last_last.
Qed.

Lemma basename_entry_alone s : entryName s = true -> Js.basename s = s.
Proof.
  intros H. pose proof (entryName_inv _ H) as (H1 & _ & _ & H4).
  unfold Js.basename. rewrite split_noSeparator by assumption.
  simpl. unfold Js.truthy_string. apply String.eqb_neq in H1. now rewrite H1.
Qed.

(** [path.basename(path.join(dir, name)) = name] for an entry name. *)
Lemma basename_path_join dir s :
  entryName s = true -> Js.basename (Js.path_join [dir; s]) = s.
Proof.
  intros H. destruct (path_join_ends_with_entry dir s H) as [E|[p E]]; rewrite E.
  - now apply basename_entry_alone.
  - now apply basename_entry_last.
Qed.

End PathFacts.

(* ===================================================================== *)
(** ** Loading APIs and endpoints                                         *)
(* ===================================================================== *)

Section MissingRoots.
Import Async Lodash ApiGateway Levels.

Variable clash : value -> value -> value.
Variable w : world.

(** C5. When the [apis] directory does not exist, [loadApis] resolves to
    the empty list; when the [endpoints] directory does not exist,
    [loadEndpoints] resolves to the empty list (the hooks fired before
    the directory is read being resolved): the missing directory is not
    reported as an error. *)
Theorem missing_root_loads_nothing :
  (fs w (Js.path_join [cwd w; "apis"]) = None ->
   (exists args, Lager.fire (plugins w) "beforeApisLoad" [] = Resolved args) ->
   loadApis w = Resolved (ArrayV []))
  /\ (fs w (Js.path_join [cwd w; "endpoints"]) = None ->
      (exists args, Lager.fire (plugins w) "beforeEndpointsLoad" [] = Resolved args) ->
      loadEndpoints clash w = Resolved (ArrayV [])).
Proof.
  split; intros Hfs [args Hfire].
  - unfold loadApis. rewrite Hfire. simpl bind.
    unfold readdirAsync. rewrite Hfs. simpl.
    now rewrite (basename_path_join (cwd w) "apis" eq_refl).
  - unfold loadEndpoints. rewrite Hfire. simpl bind.
    unfold walkSyncFrom. rewrite Hfs. simpl.
    now rewrite (basename_path_join (cwd w) "endpoints" eq_refl).
Qed.

End MissingRoots.

Section MissingRootsExamples.
Import Async Lodash ApiGateway Levels Samples.

Lemma missing_root_loads_nothing_witness :
  loadApis emptyWorld = Resolved (ArrayV [])
  /\ loadEndpoints keepSource emptyWorld = Resolved (ArrayV []).
Proof.
  split.
  - apply (proj1 (missing_root_loads_nothing keepSource emptyWorld)).
    + reflexivity.
    + exists []. reflexivity.
  - apply (proj2 (missing_root_loads_nothing keepSource emptyWorld)).
    + reflexivity.
    + exists []. reflexivity.
Defined.

End MissingRootsExamples.

Section WalkFacts.
Import Async Lodash ApiGateway Levels.

Lemma pop_last {A} (l : list A) (d : A) :
  l <> [] -> Js.pop l = (Some (last l d), removelast l).
Proof.
  intros Hne. destruct (exists_last Hne) as [l' [x ->]].
  unfold Js.pop. rewrite rev_app_distr. simpl.
  now rewrite last_last, removelast_last, rev_involutive.
Qed.

(** [file.walkSync] hands every directory of the tree, in walk order,
    to a callback that does not look at the listings. *)
Lemma walkSync_visits {S : Type} (cb : string -> list string -> list string -> S -> S)
    (g : string -> S -> S) :
  (forall d ds fs s, cb d ds fs s = g d s) ->
  forall node start s,
    isDirectory node = true ->
    walkSync node start cb s = inr (fold_left (fun s d => g d s) (allDirs node start) s).
Proof.
  intros Hcb node.
  induction node as [|entries IH] using fsnode_ind; intros start s Hdir; [discriminate|].
  simpl. rewrite Hcb. generalize (g start s). clear s.
  induction entries as [|[d n] entries IHl]; intros s; [reflexivity|].
  inversion IH as [|? ? Hn Hrest]; subst. simpl in Hn.
  destruct n as [|sub].
  - simpl. now apply IHl.
  - cbn [isDirectory]. rewrite (Hn _ s eq_refl).
    rewrite fold_left_app. now apply IHl.
Qed.

(** What the callback of [loadEndpoints] does with a directory. *)
Lemma onDirectory_leaf clash w root dirPath dirs files promises :
  onDirectory clash w root dirPath dirs files promises
  = promises ++
    (if Js.includes (terminalSegment root dirPath) httpMethods
     then [loadEndpoint clash w root (resourcePathOf root dirPath)
             (terminalSegment root dirPath)]
     else []).
Proof.
  unfold onDirectory, terminalSegment, resourcePathOf.
  rewrite (pop_last _ ""%string) by apply split_not_nil.
  destruct (Js.includes _ httpMethods); simpl; [reflexivity | now rewrite app_nil_r].
Qed.

Lemma fold_left_append {A B} (f : A -> list B) (l : list A) : forall acc,
  fold_left (fun acc x => acc ++ f x) l acc = acc ++ flat_map f l.
Proof.
  induction l as [|x l IH]; intros acc; simpl.
  - now rewrite app_nil_r.
  - now rewrite IH, app_assoc.
Qed.

Lemma flat_map_filter {A B} (p : A -> bool) (f : A -> B) (l : list A) :
  flat_map (fun x => if p x then [f x] else []) l = map f (filter p l).
Proof.
  induction l as [|x l IH]; simpl; [reflexivity|].
  destruct (p x); simpl; now rewrite IH.
Qed.

(** The promises created by the walk: one per endpoint leaf, in walk
    order. *)
Lemma walk_creates_leaves clash w root node :
  isDirectory node = true ->
  walkSync node root (onDirectory clash w root) []
  = inr (map (fun d => loadEndpoint clash w root (resourcePathOf root d)
                         (terminalSegment root d))
             (endpointLeaves root (allDirs node root))).
Proof.
  intros Hdir.
  rewrite (walkSync_visits _
             (fun d promises =>
                promises ++
                (if Js.includes (terminalSegment root d) httpMethods
                 then [loadEndpoint clash w root (resourcePathOf root d)
                         (terminalSegment root d)]
                 else [])));
    [|intros; apply onDirectory_leaf | assumption].
  rewrite fold_left_append. simpl. f_equal.
  apply flat_map_filter.
Qed.

Lemma all_resolved {A B} (f : A -> promise B) (v : A -> B) (l : list A) :
  (forall x, In x l -> f x = Resolved (v x)) ->
  all (map f l) = Resolved (map v l).
Proof.
  induction l as [|x l IH]; intros H; simpl; [reflexivity|].
  rewrite (H x (or_introl eq_refl)), IH; [reflexivity|].
  intros y Hy. apply H. now right.
Qed.

Lemma includes_In x l : Js.includes x l = true <-> In x l.
Proof.
  unfold Js.includes. rewrite existsb_exists. split.
  - intros [y [Hy E]]. apply String.eqb_eq in E. now subst.
  - intros H. exists x. split; [assumption | apply String.eqb_refl].
Qed.

End WalkFacts.

Section RootedPaths.
Import ApiGateway Levels.

Lemma split_segments p : Forall (fun s => noSeparator s = true) (Js.split Js.sep_char p).
Proof.
  induction p as [|c p IH]; simpl.
  - repeat constructor.
  - destruct (Ascii.eqb c Js.sep_char) eqn:E.
    + constructor; [reflexivity | assumption].
    + destruct (Js.split Js.sep_char p) as [|x xs]; inversion IH; subst;
        constructor; simpl; try rewrite E; auto.
Qed.

Lemma entryName_of_segment s :
  noSeparator s = true -> s <> "" -> s <> "." -> s <> ".." -> entryName s = true.
Proof.
  intros H H1 H2 H3. unfold entryName, Js.truthy_string.
  apply String.eqb_neq in H1, H2, H3. now rewrite H, H1, H2, H3.
Qed.

(** Below the root, normalization keeps entry names only. *)
Lemma normalizeStep_keeps_names acc s :
  Forall (fun x => entryName x = true) acc ->
  noSeparator s = true ->
  Forall (fun x => entryName x = true) (Js.normalizeStep false acc s).
Proof.
  intros Hacc Hs. unfold Js.normalizeStep.
  destruct (s =? "") eqn:E1; [assumption|].
  destruct (s =? ".") eqn:E2; [assumption|]. simpl.
  destruct (s =? "..") eqn:E3.
  - destruct acc as [|top rest]; [constructor|].
    inversion Hacc; subst. destruct (top =? ".."); assumption.
  - constructor; [|assumption].
    apply String.eqb_neq in E1, E2, E3. now apply entryName_of_segment.
Qed.

Lemma fold_normalizeStep_keeps_names segments : forall acc,
  Forall (fun x => entryName x = true) acc ->
  Forall (fun s => noSeparator s = true) segments ->
  Forall (fun x => entryName x = true) (fold_left (Js.normalizeStep false) segments acc).
Proof.
  induction segments as [|s segments IH]; intros acc Hacc Hs; simpl; [assumption|].
  inversion Hs; subst. apply IH; [|assumption].
  now apply normalizeStep_keeps_names.
Qed.

Lemma fold_normalizeStep_names allow names : forall acc,
  Forall (fun x => entryName x = true) names ->
  fold_left (Js.normalizeStep allow) names acc = rev names ++ acc.
Proof.
  induction names as [|n names IH]; intros acc H; simpl; [reflexivity|].
  inversion H; subst. rewrite normalizeStep_entry by assumption.
  rewrite IH by assumption. now rewrite <- app_assoc.
Qed.

Lemma join_cons x y l :
  Js.join "/" (x :: y :: l) = (x ++ String "/" (Js.join "/" (y :: l)))%string.
Proof. reflexivity. Qed.

Lemma split_join names :
  names <> [] ->
  Forall (fun x => entryName x = true) names ->
  Js.split Js.sep_char (Js.join "/" names) = names.
Proof.
  intros Hne H. induction names as [|x names IH]; [congruence|].
  inversion H as [|? ? Hx Hrest]; subst.
  apply entryName_inv in Hx. destruct Hx as (_ & _ & _ & Hx).
  destruct names as [|y names].
  - simpl. unfold Js.join. simpl. now apply split_noSeparator.
  - rewrite join_cons, split_append_sep, (split_noSeparator x) by assumption.
    rewrite IH; [reflexivity | discriminate | assumption].
Qed.

Lemma split_rooted names :
  names <> [] ->
  Forall (fun x => entryName x = true) names ->
  Js.split Js.sep_char (rooted names) = "" :: names.
Proof.
  intros Hne H. unfold rooted. simpl. now rewrite split_join.
Qed.

Lemma join_app_names (l names : list string) :
  l <> [] -> names <> [] ->
  Js.join "/" (l ++ names) = (Js.join "/" l ++ String "/" (Js.join "/" names))%string.
Proof.
  intros Hl Hn. induction l as [|x l IH]; [congruence|].
  destruct l as [|y l].
  - destruct names as [|n names]; [congruence|]. reflexivity.
  - change ((x :: y :: l) ++ names) with (x :: y :: (l ++ names)).
    rewrite !join_cons.
    change (y :: l ++ names) with ((y :: l) ++ names).
    rewrite IH by discriminate. now rewrite append_assoc.
Qed.

Lemma rooted_app (l names : list string) :
  l <> [] -> names <> [] ->
  rooted (l ++ names) = (rooted l ++ rooted names)%string.
Proof.
  intros Hl Hn. unfold rooted. rewrite join_app_names by assumption.
  simpl. reflexivity.
Qed.

Lemma rooted_snoc l n :
  l <> [] -> rooted (l ++ [n]) = (rooted l ++ String "/" n)%string.
Proof. intros Hl. now rewrite rooted_app by (assumption || discriminate). Qed.

(** Joining a clean absolute directory and an entry name appends the
    name. *)
Lemma path_join_child l n :
  l <> [] ->
  Forall (fun x => entryName x = true) l ->
  entryName n = true ->
  Js.path_join [rooted l; n] = rooted (l ++ [n]).
Proof.
  intros Hl Hnames Hn. pose proof (entryName_inv _ Hn) as (H1 & _ & _ & H4).
  assert (Hs : Js.truthy_string n = true)
    by (unfold Js.truthy_string; apply String.eqb_neq in H1; now rewrite H1).
  unfold Js.path_join. simpl filter. rewrite Hs.
  change (Js.join Js.sep [rooted l; n]) with (rooted l ++ String "/" n)%string.
  rewrite append_not_empty.
  unfold Js.normalize. rewrite append_not_empty.
  assert (Htrail : Js.ends_with_sep (rooted l ++ String "/" n) = false).
  { rewrite ends_with_sep_append by discriminate.
    change (String "/" n) with ("/" ++ n)%string.
    rewrite ends_with_sep_append by assumption.
    now apply noSeparator_no_trailing_sep. }
  rewrite Htrail, andb_false_r. simpl Js.starts_with_sep. simpl negb.
  unfold Js.normalizeString.
  rewrite split_append_sep, split_rooted, (split_noSeparator n) by assumption.
  simpl fold_left. change (Js.normalizeStep false [] "") with (@nil string).
  rewrite (fold_normalizeStep_names false (l ++ [n]))
    by (apply Forall_app; split; [assumption | now repeat constructor]).
  rewrite app_nil_r, rev_involutive, ?andb_false_r.
  reflexivity.
Qed.

(** From an absolute working directory, a directory of the project is
    a clean absolute path. *)
Lemma path_join_cwd cwd n :
  Js.starts_with_sep cwd = true ->
  entryName n = true ->
  exists l, Forall (fun x => entryName x = true) l
            /\ Js.path_join [cwd; n] = rooted (l ++ [n]).
Proof.
  intros Habs Hn. pose proof (entryName_inv _ Hn) as (H1 & _ & _ & H4).
  assert (Hs : Js.truthy_string n = true)
    by (unfold Js.truthy_string; apply String.eqb_neq in H1; now rewrite H1).
  destruct cwd as [|c cwd]; [discriminate|].
  unfold Js.path_join. simpl filter. rewrite Hs.
  set (d := String c cwd).
  change (filter Js.truthy_string [d]) with [d].
  change (Js.join Js.sep (d :: [n])) with (d ++ String "/" n)%string.
  rewrite append_not_empty.
  unfold Js.normalize. rewrite append_not_empty.
  assert (Htrail : Js.ends_with_sep (d ++ String "/" n) = false).
  { rewrite ends_with_sep_append by discriminate.
    change (String "/" n) with ("/" ++ n)%string.
    rewrite ends_with_sep_append by assumption.
    now apply noSeparator_no_trailing_sep. }
  rewrite Htrail, andb_false_r.
  assert (Hstart : Js.starts_with_sep (d ++ String "/" n) = true) by exact Habs.
  rewrite Hstart. simpl negb.
  unfold Js.normalizeString.
  rewrite split_append_sep, (split_noSeparator n), fold_left_app by assumption.
  cbn [fold_left]. rewrite normalizeStep_entry by assumption.
  exists (rev (fold_left (Js.normalizeStep false) (Js.split Js.sep_char d) [])).
  split.
  - apply Forall_rev. apply fold_normalizeStep_keeps_names; [constructor|].
    apply split_segments.
  - cbn [rev]. rewrite ?andb_false_r. reflexivity.
Qed.

Lemma substr_length_append (a b : string) : Js.substr (String.length a) (a ++ b) = b.
Proof. induction a as [|c a IH]; simpl; [now destruct b | assumption]. Qed.

Lemma filter_truthy_names names :
  Forall (fun x => entryName x = true) names -> filter Js.truthy_string names = names.
Proof.
  induction names as [|n names IH]; intros H; simpl; [reflexivity|].
  inversion H as [|? ? Hn Hrest]; subst.
  unfold entryName in Hn.
  repeat (apply andb_prop in Hn; destruct Hn as [Hn ?]).
  rewrite Hn. now rewrite IH.
Qed.

(** The segment that [loadEndpoints] takes for the method is the name
    of the directory, for every directory strictly below the root. *)
Lemma terminalSegment_below l names :
  l <> [] -> names <> [] ->
  Forall (fun x => entryName x = true) l ->
  Forall (fun x => entryName x = true) names ->
  terminalSegment (rooted l) (rooted (l ++ names)) = last names ""
  /\ Js.basename (rooted (l ++ names)) = last names ""
  /\ resourcePathOf (rooted l) (rooted (l ++ names)) = Js.join "/" ("" :: removelast names).
Proof.
  intros Hl Hn Hnames_l Hnames.
  unfold terminalSegment, resourcePathOf, Js.basename.
  rewrite rooted_app, substr_length_append by assumption.
  rewrite (split_rooted names) by assumption.
  assert (Hall : Forall (fun x => entryName x = true) (l ++ names))
    by (apply Forall_app; now split).
  assert (Hne : l ++ names <> []) by (destruct l; [congruence | discriminate]).
  rewrite <- rooted_app by assumption.
  rewrite (split_rooted (l ++ names)) by assumption.
  destruct names as [|n names]; [congruence|].
  split; [reflexivity|]. split; [|reflexivity].
  simpl filter. rewrite filter_truthy_names by assumption.
  destruct (exists_last Hn) as [names' [x E]].
  rewrite E, app_assoc, !last_last. reflexivity.
Qed.

Lemma substr_length_self (a : string) : Js.substr (String.length a) a = "".
Proof. induction a as [|c a IH]; simpl; auto. Qed.

Lemma terminalSegment_root root : terminalSegment root root = "".
Proof. unfold terminalSegment. now rewrite substr_length_self. Qed.

(** The directories of a tree with valid names, below a clean root. *)
Lemma allDirs_rooted node : forall l d,
  l <> [] ->
  Forall (fun x => entryName x = true) l ->
  validNames node = true ->
  In d (allDirs node (rooted l)) ->
  exists names, Forall (fun x => entryName x = true) names /\ d = rooted (l ++ names).
Proof.
  induction node as [|entries IH] using fsnode_ind; intros l d Hl Hnames Hvalid Hin;
    [contradiction|].
  simpl in Hin. destruct Hin as [<-|Hin].
  - exists []. split; [constructor | now rewrite app_nil_r].
  - simpl in Hvalid.
    induction entries as [|[n sub] entries IHl]; [contradiction|].
    inversion IH as [|? ? Hsub Hrest]; subst. simpl in Hsub.
    simpl in Hvalid. apply andb_prop in Hvalid. destruct Hvalid as [Hn Hvalid].
    apply andb_prop in Hn. destruct Hn as [Hn Hsubvalid]. simpl in Hn, Hsubvalid.
    apply in_app_or in Hin. destruct Hin as [Hin|Hin].
    + rewrite path_join_child in Hin by assumption.
      destruct (Hsub (l ++ [n]) d) as [names [Hnm ->]]; auto.
      * destruct l; discriminate.
      * apply Forall_app. split; [assumption | now repeat constructor].
      * exists (n :: names). split; [now constructor | now rewrite <- app_assoc].
    + now apply IHl.
Qed.

End RootedPaths.

Section EndpointLeaves.
Import Async Lodash ApiGateway Levels.

Variable clash : value -> value -> value.
Variable w : world.

(** C6 (amended). [loadEndpoints] walks the tree below the [endpoints]
    directory and creates one endpoint promise for exactly those
    directories whose terminal path segment is one of GET, POST, PUT,
    PATCH, DELETE, in walk order, with that segment as method and the
    segments before it as resource path; every other directory is
    skipped. When no plugin hooks into the load of the list and every
    one of these endpoints loads, [loadEndpoints] resolves to the array
    of these endpoints. The terminal segment of the root is empty, and,
    from an absolute working directory and in a tree of valid entry
    names, the terminal segment of every other directory is its own
    name. *)
Theorem loadEndpoints_method_directories entries :
  let root := Js.path_join [cwd w; "endpoints"] in
  let leaves := endpointLeaves root (allDirs (Dir entries) root) in
  fs w root = Some (Dir entries) ->
  walkSyncFrom w root (onDirectory clash w root) []
  = inr (map (fun d => loadEndpoint clash w root (resourcePathOf root d)
                         (terminalSegment root d)) leaves)
  /\ (forall d, In d leaves <->
                In d (allDirs (Dir entries) root)
                /\ In (terminalSegment root d) ["GET"; "POST"; "PUT"; "PATCH"; "DELETE"])
  /\ (forall v : string -> jsval,
        forallb (fun p => negb (Lager.implements "beforeEndpointsLoad" p)) (plugins w) = true ->
        forallb (fun p => negb (Lager.implements "afterEndpointsLoad" p)) (plugins w) = true ->
        (forall d, In d leaves ->
           loadEndpoint clash w root (resourcePathOf root d) (terminalSegment root d)
           = Resolved (v d)) ->
        loadEndpoints clash w = Resolved (ArrayV (map v leaves)))
  /\ terminalSegment root root = ""
  /\ (Js.starts_with_sep (cwd w) = true ->
      validNames (Dir entries) = true ->
      forall d, In d (allDirs (Dir entries) root) ->
                d = root \/ terminalSegment root d = Js.basename d).
Proof.
  intros root leaves Hfs.
  assert (Hwalk : walkSyncFrom w root (onDirectory clash w root) []
                  = inr (map (fun d => loadEndpoint clash w root (resourcePathOf root d)
                                         (terminalSegment root d)) leaves)).
  { unfold walkSyncFrom. rewrite Hfs. now apply walk_creates_leaves. }
  split; [exact Hwalk|]. split; [|split; [|split]].
  - intros d. unfold leaves, endpointLeaves.
    rewrite filter_In, includes_In. reflexivity.
  - intros v Hbefore Hafter Hload.
    unfold loadEndpoints. fold root.
    rewrite (fire_unhooked _ _ _ Hbefore). simpl bind.
    rewrite Hwalk. simpl of_result. simpl bind.
    rewrite (all_resolved _ v) by assumption. simpl bind.
    rewrite (fire_unhooked _ _ _ Hafter). reflexivity.
  - apply terminalSegment_root.
  - intros Habs Hvalid d Hd.
    destruct (path_join_cwd (cwd w) "endpoints" Habs eq_refl) as [l [Hl Hroot]].
    fold root in Hroot.
    assert (Hne : l ++ ["endpoints"] <> []) by (destruct l; discriminate).
    assert (Hall : Forall (fun x => entryName x = true) (l ++ ["endpoints"]))
      by (apply Forall_app; split; [assumption | now repeat constructor]).
    rewrite Hroot in Hd |- *.
    destruct (allDirs_rooted _ _ _ Hne Hall Hvalid Hd) as [names [Hnames ->]].
    destruct names as [|n names].
    + left. now rewrite app_nil_r.
    + right.
      destruct (terminalSegment_below (l ++ ["endpoints"]) (n :: names))
        as (-> & -> & _); auto. discriminate.
Qed.

End EndpointLeaves.

Section EndpointLeavesExamples.
Import Async Lodash ApiGateway Levels Samples.

Example allDirs_options :
  allDirs (Dir [("users", Dir [("OPTIONS", Dir []); ("GET", Dir [])])]) "/app/endpoints"
  = ["/app/endpoints"; "/app/endpoints/users"; "/app/endpoints/users/OPTIONS";
     "/app/endpoints/users/GET"].
Proof. reflexivity. Qed.

(** C6, counterexample. The project holds the directories
    [endpoints/users/OPTIONS] and [endpoints/users/GET]; OPTIONS belongs
    to the enumerated method set, yet the only endpoint loaded is
    [GET /users]. *)
Lemma loadEndpoints_skips_options :
  fs optionsWorld "/app/endpoints"
  = Some (Dir [("users", Dir [("OPTIONS", Dir []); ("GET", Dir [])])])
  /\ In "/app/endpoints/users/OPTIONS"
        (allDirs (Dir [("users", Dir [("OPTIONS", Dir []); ("GET", Dir [])])]) "/app/endpoints")
  /\ terminalSegment "/app/endpoints" "/app/endpoints/users/OPTIONS" = "OPTIONS"
  /\ In "OPTIONS" enumeratedMethods
  /\ loadEndpoints keepSource optionsWorld
     = Resolved (ArrayV [EndpointV (mkEndpoint [] "/users" "GET")]).
Proof.
  repeat split; try reflexivity.
  - simpl. tauto.
  - simpl. tauto.
Qed.

Lemma loadEndpoints_method_directories_witness :
  fs optionsWorld (Js.path_join [cwd optionsWorld; "endpoints"])
  = Some (Dir [("users", Dir [("OPTIONS", Dir []); ("GET", Dir [])])])
  /\ loadEndpoints keepSource optionsWorld
     = Resolved (ArrayV (map (fun d => EndpointV (mkEndpoint []
                                         (resourcePathOf "/app/endpoints" d)
                                         (terminalSegment "/app/endpoints" d)))
                             ["/app/endpoints/users/GET"])).
Proof.
  split; [reflexivity|].
  refine (proj1 (proj2 (proj2 (loadEndpoints_method_directories keepSource optionsWorld
                                 [("users", Dir [("OPTIONS", Dir []); ("GET", Dir [])])]
                                 eq_refl)))
            (fun d => EndpointV (mkEndpoint [] (resourcePathOf "/app/endpoints" d)
                                   (terminalSegment "/app/endpoints" d)))
            eq_refl eq_refl _).
  intros d [<-|[]]. reflexivity.
Defined.

End EndpointLeavesExamples.

(* ===================================================================== *)
(** ** Deploying a Lambda                                                 *)
(* ===================================================================== *)

Section DeployFacts.
Import Async LambdaPlugin.

Variable aws : client.
Variable lambda : Lambda.

(** [isDeployed] answers by the outcome of the lookup. *)
Lemma isDeployed_lookup FunctionName st :
  isDeployed aws FunctionName st
  = (mkState (trace st ++ [GetFunction FunctionName]) (rep st),
     match aws (GetFunction FunctionName) with
     | inr _ => Resolved true
     | inl e => if eq_code e "ResourceNotFoundException" then Resolved false
                else Rejected e
     end).
Proof.
  unfold isDeployed, send. simpl.
  destruct (aws (GetFunction FunctionName)) as [e|r]; simpl; [|reflexivity].
  destruct (eq_code e "ResourceNotFoundException"); reflexivity.
Qed.

End DeployFacts.

Section DeployClaims.
Import Async LambdaPlugin.

Variable aws : client.
Variable lambda : Lambda.
Variable ctx : context.

Ltac answers :=
  repeat (simpl in *;
          match goal with
          | |- context [aws ?rq] => destruct (aws rq) eqn:?
          | |- context [eq_code ?e ?c] => destruct (eq_code e c) eqn:?
          | |- context [Js.truthy_string ?s] => destruct (Js.truthy_string s) eqn:?
          | |- context [stage ctx] => destruct (stage ctx) eqn:?
          end);
  simpl in *.

Ltac run_deploy :=
  unfold deploy, deployFrom, isDeployed, update, create, setAlias, aliasExists,
    buildPackage, retrieveRoleArn, setReport, abind, both, send.

(** C7. The existence check resolves to [false] exactly when the
    provider answers the lookup with a ResourceNotFoundException, to
    [true] when the lookup succeeds, and any other lookup error is
    propagated, by the check and by the deployment. When the target
    exists, the deployment records the operation [Update], never sends a
    creation, starts the update (package, then code and configuration),
    and can only fail with an error that the provider answers to a later
    request: the existence of the target is not an error. When the target
    does not exist, the deployment records the operation [Creation],
    sends no update and sends the creation once the package and the role
    are available. *)
Theorem deploy_updates_existing_creates_missing :
  let FunctionName := functionName lambda ctx in
  let out := deploy aws lambda ctx [] in
  (forall st,
     (snd (isDeployed aws FunctionName st) = Resolved false <->
      exists e, aws (GetFunction FunctionName) = inl e
                /\ code e = Some "ResourceNotFoundException")
     /\ (forall r, aws (GetFunction FunctionName) = inr r ->
         snd (isDeployed aws FunctionName st) = Resolved true)
     /\ (forall e, aws (GetFunction FunctionName) = inl e ->
         code e <> Some "ResourceNotFoundException" ->
         snd (isDeployed aws FunctionName st) = Rejected e))
  /\ (forall e, aws (GetFunction FunctionName) = inl e ->
      code e <> Some "ResourceNotFoundException" ->
      snd out = Rejected e /\ trace (fst out) = [GetFunction FunctionName])
  /\ (forall r, aws (GetFunction FunctionName) = inr r ->
      operation (rep (fst out)) = Some "Update"
      /\ existsb isCreation (trace (fst out)) = false
      /\ (exists rest, trace (fst out)
                       = GetFunction FunctionName :: BuildPackage (identifier lambda) :: rest)
      /\ (forall pkg, aws (BuildPackage (identifier lambda)) = inr pkg ->
          In (UpdateFunctionCode FunctionName (Publish lambda)) (trace (fst out)))
      /\ (forall report, snd out = Resolved report -> operation report = Some "Update")
      /\ (forall e, snd out = Rejected e ->
          exists rq, In rq (trace (fst out)) /\ rq <> GetFunction FunctionName
                     /\ aws rq = inl e))
  /\ (forall e, aws (GetFunction FunctionName) = inl e ->
      code e = Some "ResourceNotFoundException" ->
      operation (rep (fst out)) = Some "Creation"
      /\ existsb isUpdate (trace (fst out)) = false
      /\ (forall pkg role,
            aws (BuildPackage (identifier lambda)) = inr pkg ->
            aws (RetrieveRoleArn (Role lambda)) = inr role ->
            In (CreateFunction FunctionName (RoleArn role) (Publish lambda))
               (trace (fst out)))
      /\ (forall report, snd out = Resolved report -> operation report = Some "Creation")).
Proof.
  intros FunctionName out. split; [|split; [|split]].
  - intros st. rewrite isDeployed_lookup. simpl. split; [|split].
    + destruct (aws (GetFunction FunctionName)) as [e|r] eqn:E.
      * destruct (eq_code e "ResourceNotFoundException") eqn:Ec; split.
        -- intros _. exists e. split; [reflexivity | now apply eq_code_spec].
        -- reflexivity.
        -- discriminate.
        -- intros [e' [[= <-] He']]. apply eq_code_spec in He'. congruence.
      * split; [discriminate | intros [e [He _]]; discriminate].
    + intros r ->. reflexivity.
    + intros e -> Hc.
      destruct (eq_code e "ResourceNotFoundException") eqn:Ec; [|reflexivity].
      apply eq_code_spec in Ec. contradiction.
  - intros e He Hc. subst out. run_deploy. simpl. fold FunctionName. rewrite He. simpl.
    destruct (eq_code e "ResourceNotFoundException") eqn:Ec.
    + apply eq_code_spec in Ec. contradiction.
    + simpl. split; reflexivity.
  - intros r Hr. subst out. run_deploy. simpl. fold FunctionName. rewrite Hr.
    answers; repeat split; try reflexivity; try congruence; eauto;
      try (intros e' [= <-]);
      try (eexists; split; [|split; [|eassumption]]; [simpl; tauto | discriminate]).
    all: try (intros; eexists; split; [|split; [|eassumption]]; [simpl; tauto | discriminate]).
    all: simpl; tauto.
  - intros e He Hc. apply eq_code_spec in Hc.
    subst out. run_deploy. simpl. fold FunctionName. rewrite He. simpl. rewrite Hc.
    answers; repeat split; try reflexivity; try congruence; eauto.
    all: try (intros pkg role [= <-] [= <-]; simpl; tauto).
    all: try (intros pkg role [= <-] [= <-] || intros pkg role H1 H2; congruence).
    all: try (intros report' [= <-]; reflexivity).
    all: intros; try congruence; simpl; tauto.
Qed.

End DeployClaims.

Section DeployExamples.
Import Async LambdaPlugin Samples.

Example deploy_existing :
  deploy existingProvider hello devV0 []
  = (mkState
       [GetFunction "DEV-hello"; BuildPackage "hello";
        UpdateFunctionCode "DEV-hello" false; RetrieveRoleArn "exec";
        UpdateFunctionConfiguration "DEV-hello" "arn:aws:iam::1:role/exec";
        PublishVersion "DEV-hello"; GetAlias "DEV-hello" "v0";
        CreateAlias "DEV-hello" "7" "v0"]
       (mkReport "DEV-hello" (Some "Update") (Some "7") (Some false)
          (Some "arn:aws:lambda:us-east-1:1:function:DEV-hello:v0")),
     Resolved (mkReport "DEV-hello" (Some "Update") (Some "7") (Some false)
                 (Some "arn:aws:lambda:us-east-1:1:function:DEV-hello:v0"))).
Proof. reflexivity. Qed.

Example deploy_missing :
  trace (fst (deploy emptyProvider hello devV0 []))
  = [GetFunction "DEV-hello"; BuildPackage "hello"; RetrieveRoleArn "exec";
     CreateFunction "DEV-hello" "arn:aws:iam::1:role/exec" false;
     PublishVersion "DEV-hello"; GetAlias "DEV-hello" "v0";
     CreateAlias "DEV-hello" "7" "v0"].
Proof. reflexivity. Qed.

Lemma deploy_updates_existing_creates_missing_witness :
  (existingProvider (GetFunction (functionName hello devV0)) = inr helloAnswer
   /\ operation (rep (fst (deploy existingProvider hello devV0 []))) = Some "Update")
  /\ (emptyProvider (GetFunction (functionName hello devV0)) = inl notFoundException
      /\ operation (rep (fst (deploy emptyProvider hello devV0 []))) = Some "Creation")
  /\ (refusingProvider (GetFunction (functionName hello devV0)) = inl accessDenied
      /\ snd (deploy refusingProvider hello devV0 []) = Rejected accessDenied).
Proof.
  split; [|split]; (split; [reflexivity|]).
  - exact (proj1 (proj1 (proj2 (proj2
             (deploy_updates_existing_creates_missing existingProvider hello devV0)))
             helloAnswer eq_refl)).
  - exact (proj1 (proj2 (proj2 (proj2
             (deploy_updates_existing_creates_missing emptyProvider hello devV0)))
             notFoundException eq_refl eq_refl)).
  - refine (proj1 (proj1 (proj2
             (deploy_updates_existing_creates_missing refusingProvider hello devV0))
             accessDenied eq_refl _)).
    discriminate.
Defined.

End DeployExamples.

(* ===================================================================== *)
(** ** The [deploy-lambdas] command                                       *)
(* ===================================================================== *)

Section DeployLambdasClaims.
Import Async Cli LambdaPlugin DeployLambdas.

Variable fmt : format.
Variable getConfig : string -> option string.
Variable genReportsTable : list report -> string.
Variable aws : client.



End DeployLambdasClaims.

Section DeployLambdasExamples.
Import Async Cli LambdaPlugin DeployLambdas Samples.

(** The provider would refuse the deployment of [hello] for lack of
    permissions; the command sends it nothing and explains nothing. *)
Example deploy_lambdas_refused :
  snd (deploy refusingProvider hello devV0 []) = Rejected accessDenied
  /\ executeCommand plainFormat noConfig (Resolved [hello]) (fun _ => ""%string)
       refusingProvider deployHello (mkEffects [] [])
     = (mkEffects (announce plainFormat noConfig deployHello) [],
        Settled (Rejected typeError)).
Proof. split; reflexivity. Qed.


End DeployLambdasExamples.

(* ===================================================================== *)
(** ** The [deploy-apis] command                                          *)
(* ===================================================================== *)

Section DeployApisClaims.
Import Async Cli DeployApis.

Variable publish : Api -> string -> context -> promise unit.

Lemma published_app tr tr' : published (tr ++ tr') = published tr ++ published tr'.
Proof. unfold published. apply flat_map_app. Qed.

Lemma displayResults_success results : forall rows success,
  snd (displayResults results rows success)
  = success && negb (existsb markedFailed results).
Proof.
  induction results as [|r results IH]; intros rows success; simpl.
  - now rewrite andb_true_r.
  - unfold markedFailed at 1.
    destruct (truthy (failed (rpt r))); rewrite IH; simpl.
    + now rewrite andb_false_r.
    + reflexivity.
Qed.

(** C8. Once every deployment of the batch has given its report, the
    last handler of the command displays the reports. If at least one
    report is marked failed, no API of the batch is published and the
    process exits with status 1, as the claim says. If no report is
    marked failed, the claim fails: the handler calls [Promise.map] on
    the built-in [Promise], which throws; [publish] is invoked for no
    API and the promise of the command is rejected with a
    [TypeError]. *)
Theorem successful_batch_is_not_published rg ctx apis results tr :
  let out := reportAndPublish publish rg ctx apis results tr in
  (existsb markedFailed results = true ->
   snd out = Exit 1%Z /\ published (fst out) = published tr)
  /\ (existsb markedFailed results = false ->
      snd out = Settled (Rejected typeError)
      /\ published (fst out) = published tr
      /\ fst out = tr ++ [Print ""; Print "Deployment done"; Print "";
                          PrintTable (fst (displayResults results [] true))]).
Proof.
  intros out. subst out. unfold reportAndPublish.
  pose proof (displayResults_success results [] true) as Hs.
  destruct (displayResults results [] true) as [rows success]. simpl in Hs. subst success.
  split; intros Hf; rewrite Hf; simpl.
  - split; [reflexivity|]. rewrite !published_app. simpl. now rewrite !app_nil_r.
  - split; [reflexivity|]. split; [|reflexivity].
    rewrite published_app. simpl. now rewrite app_nil_r.
Qed.

End DeployApisClaims.

Section DeployApisExamples.
Import Async Cli DeployApis Samples.

Example deploy_apis_second_refused :
  let out := executeCommand noConfig (Resolved [front; back; admin]) integrationsFine
               deploySecondRefused twoSeconds publishFine deployThree [] in
  snd out = Exit 1%Z /\ published (fst out) = [].
Proof. split; reflexivity. Qed.

(** The three deployments succeed; nothing is published. *)
Example deploy_apis_fine :
  let out := executeCommand noConfig (Resolved [front; back; admin]) integrationsFine
               deployFine twoSeconds publishFine deployThree [] in
  snd out = Settled (Rejected typeError) /\ published (fst out) = [].
Proof. split; reflexivity. Qed.

Lemma successful_batch_is_not_published_witness :
  existsb markedFailed [created front; created back; created admin] = false
  /\ snd (reportAndPublish publishFine "us-east-1" (mkContext (Some "DEV") (Some "v0"))
            [front; back; admin] [created front; created back; created admin] [])
     = Settled (Rejected typeError)
  /\ existsb markedFailed [created front; refused back; created admin] = true
  /\ snd (reportAndPublish publishFine "us-east-1" (mkContext (Some "DEV") (Some "v0"))
            [front; back; admin] [created front; refused back; created admin] [])
     = Exit 1%Z.
Proof.
  split; [reflexivity|]. split; [|split; [reflexivity|]].
  - exact (proj1 (proj2 (successful_batch_is_not_published publishFine "us-east-1"
                           (mkContext (Some "DEV") (Some "v0")) [front; back; admin]
                           [created front; created back; created admin] [])
                    eq_refl)).
  - exact (proj1 (proj1 (successful_batch_is_not_published publishFine "us-east-1"
                           (mkContext (Some "DEV") (Some "v0")) [front; back; admin]
                           [created front; refused back; created admin] [])
                    eq_refl)).
Defined.

End DeployApisExamples.

(* ===================================================================== *)
(** ** Load failures                                                      *)
(* ===================================================================== *)

Section LoadFailures.
Import Async Lodash ApiGateway Levels.

Variable clash : value -> value -> value.
Variable w : world.

(** [mergeSpecsFiles] throws the error of the first [spec] module that
    fails to load for another reason than its absence. *)
Lemma mergeSpecsFiles_throws beginPath subPath before fragments failing after e :
  specDirs beginPath subPath = before ++ failing :: after ->
  Forall2 (fragmentOf w) before fragments ->
  require w (specModule failing) = inl e ->
  code e <> Some "MODULE_NOT_FOUND" ->
  mergeSpecsFiles clash w beginPath subPath = inl e.
Proof. intros. unfold mergeSpecsFiles. eapply mergeSpecsLoop_throws; eauto. Qed.

(** The [.catch] handler of [loadEndpoints] never hands the error it
    received to the caller: the only rejection left is the [TypeError]
    of the handler itself. *)
Lemma loadEndpoints_rejection e :
  loadEndpoints clash w = Rejected e -> e = typeError.
Proof.
  unfold loadEndpoints, catch.
  match goal with |- context [match ?c with Resolved _ => _ | Rejected _ => _ end] =>
    destruct c as [v|e'] end; [discriminate|].
  destruct (eq_code e' "ENOENT"); [|discriminate].
  destruct (path e') as [p|]; [|now intros [= <-]].
  destruct (Js.basename p =? "endpoints"); discriminate.
Qed.

(** In [loadApis] the same handler returns the rejection. *)
Lemma loadApis_rejection_kept e :
  Lager.fire (plugins w) "beforeApisLoad" [] = Rejected e ->
  eq_code e "ENOENT" = false ->
  loadApis w = Rejected e.
Proof.
  intros Hfire Hcode. unfold loadApis. rewrite Hfire. simpl. now rewrite Hcode.
Qed.

End LoadFailures.

Section LoadFailuresExamples.
Import Async Lodash ApiGateway Levels Samples.

(** C4, at the failing input. [endpoints/users/GET/spec.json] does not
    parse: [require] throws a SyntaxError, which is not
    MODULE_NOT_FOUND. [mergeSpecsFiles] throws that error and the promise
    of [loadEndpoint] is rejected with it, but [loadEndpoints] resolves
    (to [undefined]) instead of rejecting. *)
Lemma loadEndpoints_swallows_load_failure :
  require malformedWorld (specModule "/app/endpoints/users/GET") = inl syntaxError
  /\ code syntaxError <> Some "MODULE_NOT_FOUND"
  /\ mergeSpecsFiles keepSource malformedWorld "/app/endpoints" "/users/GET"
     = inl syntaxError
  /\ loadEndpoint keepSource malformedWorld "/app/endpoints" "/users" "GET"
     = Rejected syntaxError
  /\ loadEndpoints keepSource malformedWorld = Resolved Undefined
  /\ loadEndpoints keepSource malformedWorld <> Rejected syntaxError.
Proof.
  repeat split; try reflexivity; discriminate.
Qed.

End LoadFailuresExamples.

(* ===================================================================== *)
(** ** The CORS hook                                                      *)
(* ===================================================================== *)

Section CorsFacts.
Import Async Cors.

Variable requireCors : string -> result corsModule.
Variable baseResponseParameters : list (string * string).

(** The test on an existing endpoint never succeeds: the accessor is
    compared, not its result. *)
Lemma isOptionsOf_never resourcePath e : isOptionsOf resourcePath e = false.
Proof. reflexivity. Qed.

Lemma find_isOptionsOf resourcePath endpoints :
  find (isOptionsOf resourcePath) endpoints = None.
Proof. induction endpoints; simpl; auto. Qed.

(** Every resource path of the API receives a synthesized OPTIONS
    endpoint, attached with the override flag. *)
Lemma forEachResourcePath_all a resourcePaths : forall calls calls',
  forEachResourcePath requireCors baseResponseParameters a resourcePaths calls = inr calls' ->
  map (fun c => (getMethod (call_endpoint c) tt, getResourcePath (call_endpoint c) tt,
                 call_force c)) calls'
  = map (fun c => (getMethod (call_endpoint c) tt, getResourcePath (call_endpoint c) tt,
                   call_force c)) calls
    ++ map (fun rp => ("OPTIONS", rp, true)) resourcePaths.
Proof.
  induction resourcePaths as [|rp rest IH]; intros calls calls'; simpl.
  - intros [= <-]. now rewrite app_nil_r.
  - rewrite find_isOptionsOf.
    destruct (corsFor requireCors a rp) as [e|cors]; [discriminate|].
    intros H. rewrite (IH _ _ H), map_app. simpl. now rewrite <- app_assoc.
Qed.

End CorsFacts.

Section CorsExamples.
Import Async Cors Samples.

(** C10, at the failing input. The API already has an OPTIONS endpoint
    on [/users]; the hook still synthesizes an OPTIONS endpoint for
    [/users] and attaches it with the override flag. *)
Lemma cors_hook_overrides_existing_options :
  existsb (fun e => (getMethod e tt =? "OPTIONS") && (getResourcePath e tt =? "/users"))
          (getEndpoints publicApi) = true
  /\ afterAddEndpointsToApi noCorsModule [] publicApi
     = inr [mkCall (corsEndpoint [] [] "/users") true]
  /\ getMethod (corsEndpoint [] [] "/users") tt = "OPTIONS"
  /\ getResourcePath (corsEndpoint [] [] "/users") tt = "/users".
Proof. repeat split. Qed.

End CorsExamples.

(* ===================================================================== *)
(** * Further properties                                                  *)
(* ===================================================================== *)

(* ===================================================================== *)
(** ** The registry and the dispatch                                      *)
(* ===================================================================== *)

Section RegistryFacts.
Import Async Lager Registry.

Context {A : Type}.
Variable eventName : string.

Lemma threadHooks_app (first second : list (plugin A)) : forall args,
  threadHooks (first ++ second) eventName args
  = match snd (threadHooks first eventName args) with
    | Resolved args' =>
        (fst (threadHooks first eventName args) ++ fst (threadHooks second eventName args'),
         snd (threadHooks second eventName args'))
    | Rejected e => (fst (threadHooks first eventName args), Rejected e)
    end.
Proof.
  induction first as [|p first IH]; intros args; simpl.
  - now destruct (threadHooks second eventName args).
  - destruct (hookOf p eventName) as [h|]; [|apply IH].
    destruct (h args) as [args'|e]; simpl; [|reflexivity].
    rewrite IH. destruct (snd (threadHooks first eventName args')); reflexivity.
Qed.

(** X1. For an event name that is not a name of [Object.prototype]:
    dispatching over a registry made of two parts is dispatching over
    the first part, then over the second with the arguments the first
    part resolved to; a rejection in the first part ends the dispatch.
    In particular a plugin registered last receives the arguments as all
    the plugins registered before it left them, when it declares a hook
    for the event. *)
Theorem fire_composes (first second : list (plugin A)) (args : list A) :
  Js.inherited eventName = false ->
  fireTraced A (first ++ second) eventName args
  = match fire first eventName args with
    | Resolved args' =>
        (fst (fireTraced A first eventName args)
           ++ fst (fireTraced A second eventName args'),
         fire second eventName args')
    | Rejected e => (fst (fireTraced A first eventName args), Rejected e)
    end
  /\ fire (first ++ second) eventName args
     = bind (fire first eventName args) (fire second eventName)
  /\ (forall p,
        fire (registerPlugin first p) eventName args
        = bind (fire first eventName args)
            (fun args' => match hookOf p eventName with
                          | Some h => h args'
                          | None => Resolved args'
                          end)
        /\ (hookOf p eventName <> None <-> declares eventName p = true)).
Proof.
  intros Hn.
  assert (H : fireTraced A (first ++ second) eventName args
    = match fire first eventName args with
      | Resolved args' =>
          (fst (fireTraced A first eventName args)
             ++ fst (fireTraced A second eventName args'),
           fire second eventName args')
      | Rejected e => (fst (fireTraced A first eventName args), Rejected e)
      end).
  { unfold fire. rewrite !fireTraced_thread, threadHooks_app.
    destruct (snd (threadHooks first eventName args)) as [args'|e]; [|reflexivity].
    now rewrite fireTraced_thread. }
  split; [exact H|]. split.
  - unfold fire at 1. rewrite H. destruct (fire first eventName args); reflexivity.
  - intros p. split.
    + unfold registerPlugin, fire at 1.
      rewrite !fireTraced_thread, threadHooks_app.
      unfold fire. rewrite fireTraced_thread.
      destruct (snd (threadHooks first eventName args)) as [args'|e]; [|reflexivity].
      simpl. destruct (hookOf p eventName) as [h|]; [|reflexivity].
      destruct (h args'); reflexivity.
    + rewrite <- implements_declares by assumption. unfold implements.
      destruct (hookOf p eventName); split; congruence.
Qed.

(** X2. For an event name that is not a name of [Object.prototype]:
    when the hook of a plugin rejects, the dispatch rejects with the
    same error and no plugin registered after it is invoked: the trace
    ends with the failing plugin. Whatever the outcome, the plugins
    invoked are the first plugins that declare the hook, in registration
    order. *)
Theorem fire_stops_at_rejection (plugins : list (plugin A)) (args : list A) :
  Js.inherited eventName = false ->
  (forall before p h after args' e,
     plugins = before ++ p :: after ->
     fire before eventName args = Resolved args' ->
     hookOf p eventName = Some h ->
     h args' = Rejected e ->
     fireTraced A plugins eventName args
     = (fst (fireTraced A before eventName args) ++ [(name p, args')], Rejected e))
  /\ exists notInvoked,
       map name (filter (declares eventName) plugins)
       = map fst (fst (fireTraced A plugins eventName args)) ++ notInvoked.
Proof.
  intros Hn. split.
  - intros before p h after args' e -> Hb Hh Hr.
    unfold fire in Hb. rewrite fireTraced_thread in Hb.
    rewrite !fireTraced_thread, threadHooks_app, Hb. simpl.
    now rewrite Hh, Hr.
  - rewrite (filter_ext (declares eventName) (implements eventName))
      by (intros p; symmetry; now apply implements_declares).
    rewrite fireTraced_thread. revert args.
    induction plugins as [|p rest IH]; intros args; simpl.
    + now exists [].
    + unfold implements at 1. destruct (hookOf p eventName) as [h|]; [|apply IH].
      destruct (h args) as [args'|e]; simpl.
      * destruct (IH args') as [l Hl]. exists l. now rewrite Hl.
      * eexists. reflexivity.
Qed.

(** X3. [getPlugin] returns the first registered plugin that bears the
    name, if any: registering a plugin under a name that is already
    taken does not change what [getPlugin] returns for that name,
    although the hooks of the new plugin are dispatched like those of
    any other. *)
Theorem getPlugin_first_registered (plugins : list (plugin A)) (pluginName : string) :
  (forall q, getPlugin plugins pluginName = Some q ->
     name q = pluginName
     /\ exists before after,
          plugins = before ++ q :: after
          /\ Forall (fun p => name p <> pluginName) before)
  /\ (getPlugin plugins pluginName = None <->
      Forall (fun p => name p <> pluginName) plugins)
  /\ (forall p,
        getPlugin (registerPlugin plugins p) pluginName
        = match getPlugin plugins pluginName with
          | Some q => Some q
          | None => if name p =? pluginName then Some p else None
          end).
Proof.
  unfold getPlugin, registerPlugin. split; [|split].
  - induction plugins as [|x rest IH]; intros q; simpl; [discriminate|].
    destruct (name x =? pluginName) eqn:E.
    + intros [= <-]. apply String.eqb_eq in E. split; [assumption|].
      exists [], rest. split; [reflexivity | constructor].
    + intros H. destruct (IH q H) as [Hn [before [after [-> Hb]]]].
      split; [assumption|]. exists (x :: before), after.
      split; [reflexivity|]. constructor; [now apply String.eqb_neq | assumption].
  - induction plugins as [|x rest IH]; simpl.
    + split; [constructor | reflexivity].
    + destruct (name x =? pluginName) eqn:E.
      * apply String.eqb_eq in E. split; [discriminate|].
        intros H. inversion H; subst. contradiction.
      * apply String.eqb_neq in E. rewrite IH. split.
        -- now constructor.
        -- intros H. now inversion H.
  - intros p. induction plugins as [|x rest IH]; simpl.
    + destruct (name p =? pluginName); reflexivity.
    + destruct (name x =? pluginName); [reflexivity | apply IH].
Qed.

End RegistryFacts.

Section RegistryExamples.
Import Async Lager Registry Samples.

Example brokenChain_trace :
  fireTraced string brokenChain "afterLoad" ["a"; "b"]
  = ([("log", ["a"; "b"]); ("cors", ["A"; "B"])],
     Rejected {| error_name := "Error"; code := Some "EFAIL"; path := None;
                 cause_message := None |}).
Proof. reflexivity. Qed.

Lemma fire_stops_at_rejection_witness :
  fire [mkPlugin "log" (Some [("afterLoad", shout)])] "afterLoad" ["a"; "b"]
  = Resolved ["A"; "B"]
  /\ snd (fireTraced string brokenChain "afterLoad" ["a"; "b"])
     = Rejected {| error_name := "Error"; code := Some "EFAIL"; path := None;
                   cause_message := None |}.
Proof.
  split; [reflexivity|].
  exact (f_equal snd
           (proj1 (fire_stops_at_rejection "afterLoad" brokenChain ["a"; "b"] eq_refl)
              [mkPlugin "log" (Some [("afterLoad", shout)])]
              (mkPlugin "cors" (Some [("afterLoad", failing)]))
              failing
              [mkPlugin "log" (Some [("afterLoad", replaceSecond)])]
              ["A"; "B"] _ eq_refl eq_refl eq_refl eq_refl)).
Defined.

Lemma fire_composes_witness :
  Js.inherited "afterLoad" = false
  /\ fire ([mkPlugin "log" (Some [("afterLoad", shout)])]
           ++ [mkPlugin "cors" (Some [("afterLoad", replaceSecond)])])
          "afterLoad" ["a"; "b"]
     = bind (fire [mkPlugin "log" (Some [("afterLoad", shout)])] "afterLoad" ["a"; "b"])
         (fire [mkPlugin "cors" (Some [("afterLoad", replaceSecond)])] "afterLoad").
Proof.
  split; [reflexivity|].
  exact (proj1 (proj2 (fire_composes "afterLoad"
                         [mkPlugin "log" (Some [("afterLoad", shout)])]
                         [mkPlugin "cors" (Some [("afterLoad", replaceSecond)])]
                         ["a"; "b"] eq_refl))).
Defined.

Lemma getPlugin_first_registered_witness :
  getPlugin brokenChain "log" = Some (mkPlugin "log" (Some [("afterLoad", shout)]))
  /\ name (mkPlugin "log" (Some [("afterLoad", shout)])) = "log".
Proof.
  split; [reflexivity|].
  exact (proj1 (proj1 (getPlugin_first_registered brokenChain "log") _ eq_refl)).
Defined.

End RegistryExamples.

(* ===================================================================== *)
(** ** Merging over several levels                                        *)
(* ===================================================================== *)

Section LevelsFacts.
Import Async Lodash ApiGateway Levels.

Variable clash : value -> value -> value.
Variable w : world.

Lemma lookup_assign_defined key key' v o :
  lookup key' (assign key v o) <> None <-> key = key' \/ lookup key' o <> None.
Proof.
  destruct (String.eqb_spec key key') as [->|Hne].
  - rewrite lookup_assign_same. split; [now left | discriminate].
  - rewrite lookup_assign_other by assumption. tauto.
Qed.

Lemma lookup_merge_defined key source : forall object,
  lookup key (merge clash object source) <> None
  <-> lookup key object <> None \/ sets key source = true.
Proof.
  induction source as [|[k s] source IH]; intros object.
  - simpl. intuition discriminate.
  - rewrite merge_step. unfold sets. cbn [existsb fst snd]. fold (sets key source).
    destruct (passedOver k s); cbn [negb].
    + rewrite IH, andb_false_r. simpl. tauto.
    + rewrite IH, lookup_assign_defined, andb_true_r.
      destruct (String.eqb_spec k key) as [->|Hne]; simpl.
      * tauto.
      * tauto.
Qed.

Lemma lookup_fold_defined key fragments : forall acc,
  lookup key (fold_left (merge clash) fragments acc) <> None
  <-> lookup key acc <> None \/ Exists (fun f => sets key f = true) fragments.
Proof.
  induction fragments as [|f fragments IH]; intros acc; simpl.
  - rewrite Exists_nil. tauto.
  - rewrite IH, lookup_merge_defined, Exists_cons. tauto.
Qed.

Lemma lookup_fold_untouched key fragments : forall acc,
  Forall (fun f => lookup key f = None) fragments ->
  lookup key (fold_left (merge clash) fragments acc) = lookup key acc.
Proof.
  induction fragments as [|f fragments IH]; intros acc H; simpl; [reflexivity|].
  inversion H; subst. rewrite IH by assumption. now apply lookup_merge_untouched.
Qed.

Lemma merge_into_empty o : wf_obj o -> merge clash [] o = o.
Proof.
  intros H. pose proof (mergeDeep_copy clash (VObj o) H) as E.
  rewrite mergeDeep_fresh_object in E. now injection E.
Qed.

Lemma fold_empty_fragments fragments : forall acc,
  Forall (eq []) fragments -> fold_left (merge clash) fragments acc = acc.
Proof.
  induction fragments as [|f fragments IH]; intros acc H; simpl; [reflexivity|].
  inversion H; subst. simpl. now apply IH.
Qed.

(** X4. The keys of the merged document are exactly the keys that some
    level holds and that [_.merge] does not pass over, that is, every
    key set at some level except a [__proto__] that holds a mapping or a
    sequence at that level: no other key of a fragment is lost and no
    key is invented. *)
Theorem mergeSpecsFiles_keys beginPath subPath fragments :
  Forall2 (fragmentOf w) (specDirs beginPath subPath) fragments ->
  exists merged,
    mergeSpecsFiles clash w beginPath subPath = inr merged
    /\ forall key, lookup key merged <> None
                   <-> Exists (fun f => sets key f = true) fragments.
Proof.
  intros HF. eexists. split.
  - unfold mergeSpecsFiles. apply mergeSpecsLoop_fold; [apply split_not_nil | exact HF].
  - intros key. rewrite lookup_fold_defined. simpl. tauto.
Qed.

(** X5. Over any number of levels, a scalar set by the deepest level
    that sets the key is the value of the key in the merged document,
    whatever the shallower levels hold under that key. *)
Theorem mergeSpecsFiles_deepest_scalar beginPath subPath shallower f deeper key v :
  Forall2 (fragmentOf w) (specDirs beginPath subPath) (shallower ++ f :: deeper) ->
  NoDup (keys f) ->
  lookup key f = Some v ->
  is_scalar v = true ->
  Forall (fun g => lookup key g = None) deeper ->
  exists merged,
    mergeSpecsFiles clash w beginPath subPath = inr merged
    /\ lookup key merged = Some v.
Proof.
  intros HF Hnd Hk Hv Hdeeper. eexists. split.
  - unfold mergeSpecsFiles. apply mergeSpecsLoop_fold; [apply split_not_nil | exact HF].
  - rewrite fold_left_app. simpl.
    rewrite lookup_fold_untouched by assumption.
    rewrite (lookup_merge_set clash key v) by (auto using passedOver_scalar).
    f_equal. now apply mergeDeep_scalar.
Qed.

(** X6. When the fragment of a level has unique keys at every level of
    the document and no mapping or sequence under a key [__proto__]
    (a property that [_.merge] passes over): a key that only this level
    sets keeps the value of that level, scalar or not; and when no
    other level holds a fragment, the merged document is that
    fragment. *)
Theorem mergeSpecsFiles_single_level beginPath subPath shallower f deeper :
  Forall2 (fragmentOf w) (specDirs beginPath subPath) (shallower ++ f :: deeper) ->
  wf_obj f ->
  exists merged,
    mergeSpecsFiles clash w beginPath subPath = inr merged
    /\ (forall key v,
          lookup key f = Some v ->
          Forall (fun g => lookup key g = None) shallower ->
          Forall (fun g => lookup key g = None) deeper ->
          lookup key merged = Some v)
    /\ (Forall (eq []) shallower -> Forall (eq []) deeper -> merged = f).
Proof.
  intros HF Hwf. eexists. split; [|split].
  - unfold mergeSpecsFiles. apply mergeSpecsLoop_fold; [apply split_not_nil | exact HF].
  - intros key v Hk Hs Hd.
    rewrite fold_left_app. simpl.
    rewrite lookup_fold_untouched by assumption.
    pose proof Hwf as Hwf'. apply wf_object in Hwf'. destruct Hwf' as [Hnd _].
    destruct (lookup_kept key v f Hwf Hk) as [Hp Hv].
    rewrite (lookup_merge_set clash key v) by assumption.
    rewrite lookup_fold_untouched by assumption. simpl.
    f_equal. now apply mergeDeep_copy.
  - intros Hs Hd. rewrite fold_left_app. simpl.
    rewrite (fold_empty_fragments deeper) by assumption.
    rewrite (fold_empty_fragments shallower) by assumption.
    now apply merge_into_empty.
Qed.

End LevelsFacts.

Section LevelsExamples.
Import Async Lodash ApiGateway Levels Samples.

Lemma usersGetFragment_keys : NoDup (keys usersGetFragment).
Proof.
  repeat constructor; simpl; intuition discriminate.
Defined.

Lemma mergeSpecsFiles_deepest_scalar_witness :
  lookup "produces" usersFragment = Some (VStr "text/plain")
  /\ lookup "produces" usersGetFragment = Some (VStr "application/json")
  /\ exists merged,
       mergeSpecsFiles keepSource tagsWorld "/app/endpoints" "/users/GET" = inr merged
       /\ lookup "produces" merged = Some (VStr "application/json").
Proof.
  split; [reflexivity|]. split; [reflexivity|].
  exact (mergeSpecsFiles_deepest_scalar keepSource tagsWorld "/app/endpoints" "/users/GET"
           [[]; usersFragment] usersGetFragment [] "produces" (VStr "application/json")
           tagsWorld_fragments usersGetFragment_keys eq_refl eq_refl (Forall_nil _)).
Defined.

Lemma mergeSpecsFiles_keys_witness :
  exists merged,
    mergeSpecsFiles keepSource tagsWorld "/app/endpoints" "/users/GET" = inr merged
    /\ forall key, lookup key merged <> None
                   <-> Exists (fun f => sets key f = true)
                         [[]; usersFragment; usersGetFragment].
Proof.
  exact (mergeSpecsFiles_keys keepSource tagsWorld "/app/endpoints" "/users/GET" _
           tagsWorld_fragments).
Defined.

Lemma usersGetFragment_wf : wf_obj usersGetFragment.
Proof.
  apply wf_object. split; [exact usersGetFragment_keys|].
  repeat constructor; simpl; auto.
Defined.

Lemma mergeSpecsFiles_single_level_witness :
  exists merged,
    mergeSpecsFiles keepSource tagsWorld "/app/endpoints" "/users/GET" = inr merged
    /\ lookup "summary" merged = Some (VStr "List users").
Proof.
  destruct (mergeSpecsFiles_single_level keepSource tagsWorld "/app/endpoints" "/users/GET"
              [[]; usersFragment] usersGetFragment []
              tagsWorld_fragments usersGetFragment_wf) as [merged [E [H _]]].
  exists merged. split; [exact E|].
  apply H; [reflexivity | | constructor].
  repeat constructor.
Defined.

End LevelsExamples.

(* ===================================================================== *)
(** ** From the walk to the loading of an endpoint                        *)
(* ===================================================================== *)

Section AncestorFacts.
Import Async Lodash Lager ApiGateway Levels Ancestors.

Variable clash : value -> value -> value.
Variable w : world.

Lemma join_split s : Js.join "/" (Js.split Js.sep_char s) = s.
Proof.
  induction s as [|c s IH]; [reflexivity|].
  simpl Js.split. destruct (Ascii.eqb_spec c Js.sep_char) as [->|Hc].
  - destruct (Js.split Js.sep_char s) as [|x xs] eqn:E; [now apply split_not_nil in E|].
    rewrite join_cons, IH. reflexivity.
  - destruct (Js.split Js.sep_char s) as [|x xs] eqn:E; [now apply split_not_nil in E|].
    rewrite <- IH. destruct xs; reflexivity.
Qed.

Lemma rooted_no_trailing_sep l :
  l <> [] -> Forall (fun x => entryName x = true) l ->
  Js.ends_with_sep (rooted l) = false.
Proof.
  intros Hl H. destruct (exists_last Hl) as [l' [x ->]].
  apply Forall_app in H. destruct H as [_ Hx]. inversion Hx as [|? ? Hn _]; subst.
  apply entryName_inv in Hn. destruct Hn as (H1 & _ & _ & H4).
  destruct l' as [|y l'].
  - change (rooted ([] ++ [x])) with ("/" ++ x)%string.
    rewrite ends_with_sep_append by assumption.
    now apply noSeparator_no_trailing_sep.
  - rewrite rooted_snoc by discriminate.
    rewrite ends_with_sep_append by discriminate.
    change (String "/" x) with ("/" ++ x)%string.
    rewrite ends_with_sep_append by assumption.
    now apply noSeparator_no_trailing_sep.
Qed.

(** Joining a clean absolute directory and the empty segment gives the
    directory back. *)
Lemma path_join_root l :
  l <> [] -> Forall (fun x => entryName x = true) l ->
  Js.path_join [rooted l; ""] = rooted l.
Proof.
  intros Hl H. unfold Js.path_join.
  change (filter Js.truthy_string [rooted l; ""%string]) with [rooted l].
  change (Js.join Js.sep [rooted l]) with (rooted l).
  change (rooted l =? "")%string with false. cbv iota.
  unfold Js.normalize.
  change (rooted l =? "")%string with false. cbv iota.
  rewrite rooted_no_trailing_sep by assumption.
  change (Js.starts_with_sep (rooted l)) with true. simpl negb.
  unfold Js.normalizeString. rewrite split_rooted by assumption.
  cbn [fold_left]. change (Js.normalizeStep false [] "") with (@nil string).
  rewrite fold_normalizeStep_names by assumption.
  rewrite app_nil_r, rev_involutive, !andb_false_r. reflexivity.
Qed.

Lemma dirsFrom_names names : forall l,
  l <> [] -> Forall (fun x => entryName x = true) l ->
  Forall (fun x => entryName x = true) names ->
  dirsFrom (rooted l) names = map (fun p => rooted (l ++ p)) (nonEmptyPrefixes names).
Proof.
  induction names as [|n names IH]; intros l Hl H Hn; [reflexivity|].
  inversion Hn as [|? ? Hn1 Hrest]; subst.
  cbn [dirsFrom nonEmptyPrefixes map].
  rewrite path_join_child by assumption.
  rewrite IH; [ | now destruct l | apply Forall_app; split; [assumption | now repeat constructor] | assumption ].
  f_equal. rewrite map_map. apply map_ext. intros p.
  now rewrite <- app_assoc.
Qed.

(** The directories searched for the sub-path [/n1/.../nk] below a clean
    root. *)
Lemma specDirs_below l names :
  l <> [] -> Forall (fun x => entryName x = true) l ->
  names <> [] -> Forall (fun x => entryName x = true) names ->
  specDirs (rooted l) (rooted names) = levels l names.
Proof.
  intros Hl H Hn Hnames. unfold specDirs, levels.
  rewrite split_rooted by assumption. cbn [dirsFrom].
  rewrite path_join_root by assumption.
  now rewrite dirsFrom_names.
Qed.

Lemma upper_ascii_idempotent c : Js.upper_ascii (Js.upper_ascii c) = Js.upper_ascii c.
Proof. destruct c as [[] [] [] [] [] [] [] []]; reflexivity. Qed.

Lemma toUpperCase_idempotent s : Js.toUpperCase (Js.toUpperCase s) = Js.toUpperCase s.
Proof.
  induction s as [|c s IH]; simpl; [reflexivity|].
  now rewrite upper_ascii_idempotent, IH.
Qed.

Lemma httpMethods_upper m : In m httpMethods -> Js.toUpperCase m = m.
Proof.
  unfold httpMethods. simpl.
  intros [<-|[<-|[<-|[<-|[<-|[]]]]]]; reflexivity.
Qed.

(** The sub-path that [loadEndpoint] rebuilds from the resource path and
    the method that the walk took from a directory is the path of that
    directory below the root. *)
Lemma subPath_of_leaf names :
  names <> [] ->
  (Js.join Js.sep (Js.split "/" (Js.join "/" ("" :: removelast names)))
   ++ Js.sep ++ last names "")%string
  = rooted names.
Proof.
  intros Hn. change (Js.split "/") with (Js.split Js.sep_char).
  change (Js.join Js.sep) with (Js.join "/"). rewrite join_split.
  destruct (exists_last Hn) as [pre [m ->]].
  rewrite removelast_last, last_last.
  destruct pre as [|y pre]; [reflexivity|].
  rewrite rooted_snoc by discriminate. reflexivity.
Qed.

(** X7. For a clean root and the sub-path [/n1/.../nk], the document is
    the left fold of the merge over the fragments of the root, of
    [root/n1], ... and of [root/n1/.../nk], in that order: one directory
    per segment and the root, and no other. *)
Theorem mergeSpecsFiles_ancestors l names fragments :
  l <> [] -> Forall (fun x => entryName x = true) l ->
  names <> [] -> Forall (fun x => entryName x = true) names ->
  Forall2 (fragmentOf w) (levels l names) fragments ->
  mergeSpecsFiles clash w (rooted l) (rooted names)
  = inr (fold_left (merge clash) fragments [])
  /\ length fragments = S (length names).
Proof.
  intros Hl H Hn Hnames HF. split.
  - unfold mergeSpecsFiles. apply mergeSpecsLoop_fold; [apply split_not_nil|].
    fold (specDirs (rooted l) (rooted names)). now rewrite specDirs_below.
  - apply Forall2_length in HF. rewrite <- HF. unfold levels. simpl.
    rewrite length_map. f_equal.
    clear. induction names as [|n names IH]; simpl; [reflexivity|].
    now rewrite length_map, IH.
Qed.

(** X8. The endpoint that the walk creates for a method directory is
    loaded from that very directory and its ancestors up to the root:
    when no plugin hooks the loading, it resolves to the endpoint made
    of the merge of their fragments, of the resource path without the
    method, and of the method. *)
Theorem loadEndpoint_of_leaf l names fragments :
  l <> [] -> Forall (fun x => entryName x = true) l ->
  names <> [] -> Forall (fun x => entryName x = true) names ->
  In (last names "") httpMethods ->
  forallb (fun p => negb (implements "beforeEndpointLoad" p)) (plugins w) = true ->
  forallb (fun p => negb (implements "afterEndpointLoad" p)) (plugins w) = true ->
  Forall2 (fragmentOf w) (levels l names) fragments ->
  loadEndpoint clash w (rooted l)
    (resourcePathOf (rooted l) (rooted (l ++ names)))
    (terminalSegment (rooted l) (rooted (l ++ names)))
  = Resolved (EndpointV (mkEndpoint (fold_left (merge clash) fragments [])
                           (Js.join "/" ("" :: removelast names))
                           (last names ""))).
Proof.
  intros Hl H Hn Hnames Hm Hbefore Hafter HF.
  destruct (terminalSegment_below l names Hl Hn H Hnames) as (-> & _ & ->).
  unfold loadEndpoint. rewrite (httpMethods_upper _ Hm).
  rewrite fire_unhooked by assumption. cbn [bind].
  rewrite subPath_of_leaf by assumption.
  assert (E : mergeSpecsFiles clash w (rooted l) (rooted names)
              = inr (fold_left (merge clash) fragments [])).
  { unfold mergeSpecsFiles. apply mergeSpecsLoop_fold; [apply split_not_nil|].
    fold (specDirs (rooted l) (rooted names)). now rewrite specDirs_below. }
  rewrite E. cbn [of_result bind].
  rewrite fire_unhooked by assumption. reflexivity.
Qed.

(** X9. A fragment that cannot be loaded for another reason than its
    absence rejects the loading of the endpoint with the error of
    [require], whatever the deeper levels hold, and the hooks of
    [afterEndpointLoad] have no say in it. *)
Theorem loadEndpoint_rejects_broken_fragment root resourcePath method
    before fragments failing after e :
  forallb (fun p => negb (implements "beforeEndpointLoad" p)) (plugins w) = true ->
  specDirs root (Js.join Js.sep (Js.split "/" resourcePath) ++ Js.sep
                 ++ Js.toUpperCase method)
  = before ++ failing :: after ->
  Forall2 (fragmentOf w) before fragments ->
  require w (specModule failing) = inl e ->
  code e <> Some "MODULE_NOT_FOUND" ->
  loadEndpoint clash w root resourcePath method = Rejected e.
Proof.
  intros Hbefore Hd HF Hreq Hcode. unfold loadEndpoint.
  rewrite fire_unhooked by assumption. cbn [bind].
  rewrite (mergeSpecsFiles_throws clash w _ _ _ _ _ _ _ Hd HF Hreq Hcode).
  reflexivity.
Qed.

(** X10. For a method written in ASCII characters, the method is
    upper-cased before anything else: loading with [get] and with [GET]
    is the same loading, and the method that the endpoint is built with
    is upper case. *)
Theorem loadEndpoint_method_case root resourcePath method :
  Js.isAscii method = true ->
  loadEndpoint clash w root resourcePath (Js.toUpperCase method)
  = loadEndpoint clash w root resourcePath method
  /\ forall spec rp m,
       forallb (fun p => negb (implements "afterEndpointLoad" p)) (plugins w) = true ->
       loadEndpoint clash w root resourcePath method
       = Resolved (EndpointV (mkEndpoint spec rp m)) ->
       m = Js.toUpperCase method /\ rp = resourcePath.
Proof.
  intros _. split.
  - unfold loadEndpoint. now rewrite toUpperCase_idempotent.
  - intros spec rp m Hafter. unfold loadEndpoint.
    destruct (fire (plugins w) "beforeEndpointLoad" []); cbn [bind]; [|discriminate].
    destruct (mergeSpecsFiles clash w root _); cbn [of_result bind]; [discriminate|].
    rewrite fire_unhooked by assumption. cbn [nth].
    intros [= _ <- <-]. now split.
Qed.

End AncestorFacts.

Section AncestorExamples.
Import Async Lodash Lager ApiGateway Levels Ancestors Samples.

Lemma endpoints_names : Forall (fun x => entryName x = true) ["app"; "endpoints"].
Proof. repeat constructor. Defined.

Lemma users_get_names : Forall (fun x => entryName x = true) ["users"; "GET"].
Proof. repeat constructor. Defined.

Lemma tagsWorld_levels :
  Forall2 (fragmentOf tagsWorld) (levels ["app"; "endpoints"] ["users"; "GET"])
    [[]; usersFragment; usersGetFragment].
Proof.
  constructor; [|constructor; [|constructor; [|constructor]]].
  - right. split; [|reflexivity]. exists moduleNotFound. split; reflexivity.
  - left. reflexivity.
  - left. reflexivity.
Defined.

Lemma mergeSpecsFiles_ancestors_witness :
  levels ["app"; "endpoints"] ["users"; "GET"]
  = ["/app/endpoints"; "/app/endpoints/users"; "/app/endpoints/users/GET"]
  /\ mergeSpecsFiles keepSource tagsWorld "/app/endpoints" "/users/GET"
     = inr (fold_left (merge keepSource) [[]; usersFragment; usersGetFragment] []).
Proof.
  split; [reflexivity|].
  refine (proj1 (mergeSpecsFiles_ancestors keepSource tagsWorld
                   ["app"; "endpoints"] ["users"; "GET"] _ _ endpoints_names _
                   users_get_names tagsWorld_levels)); discriminate.
Defined.

Lemma loadEndpoint_of_leaf_witness :
  loadEndpoint keepSource tagsWorld "/app/endpoints" "/users" "GET"
  = Resolved (EndpointV (mkEndpoint
                (fold_left (merge keepSource) [[]; usersFragment; usersGetFragment] [])
                "/users" "GET")).
Proof.
  refine (loadEndpoint_of_leaf keepSource tagsWorld
            ["app"; "endpoints"] ["users"; "GET"] _ _ endpoints_names _
            users_get_names _ eq_refl eq_refl tagsWorld_levels);
    [discriminate | discriminate | simpl; auto].
Defined.

Lemma loadEndpoint_rejects_broken_fragment_witness :
  loadEndpoint keepSource malformedWorld "/app/endpoints" "/users" "get"
  = Rejected syntaxError.
Proof.
  refine (loadEndpoint_rejects_broken_fragment keepSource malformedWorld
            "/app/endpoints" "/users" "get"
            ["/app/endpoints"; "/app/endpoints/users"] [[]; []]
            "/app/endpoints/users/GET" [] syntaxError eq_refl eq_refl _ eq_refl _).
  - constructor; [|constructor; [|constructor]];
      (right; split; [|reflexivity]; exists moduleNotFound; split; reflexivity).
  - discriminate.
Defined.

Lemma loadEndpoint_method_case_witness :
  loadEndpoint keepSource tagsWorld "/app/endpoints" "/users" "GET"
  = loadEndpoint keepSource tagsWorld "/app/endpoints" "/users" "get"
  /\ forall spec rp m,
       loadEndpoint keepSource tagsWorld "/app/endpoints" "/users" "get"
       = Resolved (EndpointV (mkEndpoint spec rp m)) ->
       m = "GET"%string /\ rp = "/users"%string.
Proof.
  destruct (loadEndpoint_method_case keepSource tagsWorld "/app/endpoints" "/users" "get"
              eq_refl)
    as [E H].
  split; [exact E|].
  intros spec rp m. apply H. reflexivity.
Defined.

End AncestorExamples.

(* ===================================================================== *)
(** ** The requests of a deployment                                       *)
(* ===================================================================== *)

Section DeployRequests.
Import Async LambdaPlugin LambdaRequests.

Variable aws : client.
Variable lambda : Lambda.
Variable ctx : context.

Ltac answered :=
  repeat (simpl in *;
          match goal with
          | |- context [aws ?rq] => destruct (aws rq) eqn:?
          | |- context [eq_code ?e ?c] => destruct (eq_code e c) eqn:?
          | |- context [Js.truthy_string ?s] => destruct (Js.truthy_string s) eqn:?
          | |- context [stage ctx] => destruct (stage ctx) eqn:?
          end);
  simpl in *.

Ltac run :=
  unfold deploy, deployFrom, isDeployed, update, create, setAlias, aliasExists,
    buildPackage, retrieveRoleArn, setReport, abind, both, send.

(** X11. Without a stage (none, or the empty string) the deployment
    publishes no version and touches no alias; when it succeeds, the
    report bears neither a published version nor an alias flag, and its
    ARN is the function ARN answered to the last request, which is the
    creation of the function or the update of its configuration. *)
Theorem deploy_without_stage :
  truthy (stage ctx) = false ->
  let out := deploy aws lambda ctx [] in
  existsb isStageRequest (trace (fst out)) = false
  /\ forall report, snd out = Resolved report ->
       publishedVersion report = None
       /\ aliasExisted report = None
       /\ exists rq data,
            last (trace (fst out)) (GetFunction "") = rq
            /\ (exists role,
                  rq = CreateFunction (functionName lambda ctx) role (Publish lambda)
                  \/ rq = UpdateFunctionConfiguration (functionName lambda ctx) role)
            /\ aws rq = inr data
            /\ arn report = Some (FunctionArn data).
Proof.
  intros Hstage out. subst out. unfold truthy in Hstage. run.
  destruct (stage ctx) as [alias|] eqn:Ealias; [rewrite ?Hstage|].
  - answered; try rewrite Hstage in *; simpl;
      (split; [reflexivity|]); intros report' Hr; try discriminate;
      injection Hr as <-; simpl; (split; [reflexivity|]); (split; [reflexivity|]);
      eexists _, _; (split; [reflexivity|]);
      (split; [eexists; first [left; reflexivity | right; reflexivity]|]);
      (split; [eassumption | reflexivity]).
  - answered;
      (split; [reflexivity|]); intros report' Hr; try discriminate;
      injection Hr as <-; simpl; (split; [reflexivity|]); (split; [reflexivity|]);
      eexists _, _; (split; [reflexivity|]);
      (split; [eexists; first [left; reflexivity | right; reflexivity]|]);
      (split; [eassumption | reflexivity]).
Qed.

(** X12. With a stage, a deployment that succeeds has published a
    version and reports its number; it reports whether the alias of the
    stage existed: when the lookup of the alias succeeded the alias is
    updated to the published version, when it was not found the alias is
    created on that version, and never both; the ARN of the report is the
    ARN of the alias. *)
Theorem deploy_with_stage alias report :
  stage ctx = Some alias ->
  Js.truthy_string alias = true ->
  let FunctionName := functionName lambda ctx in
  let out := deploy aws lambda ctx [] in
  snd out = Resolved report ->
  exists v a,
    aws (PublishVersion FunctionName) = inr v
    /\ publishedVersion report = Some (Version v)
    /\ arn report = Some (AliasArn a)
    /\ ((aliasExisted report = Some true
         /\ (exists r, aws (GetAlias FunctionName alias) = inr r)
         /\ aws (UpdateAlias FunctionName alias (Version v)) = inr a
         /\ last (trace (fst out)) (GetFunction "")
            = UpdateAlias FunctionName alias (Version v)
         /\ ~ In (CreateAlias FunctionName (Version v) alias) (trace (fst out)))
        \/ (aliasExisted report = Some false
            /\ (exists e, aws (GetAlias FunctionName alias) = inl e
                          /\ code e = Some "ResourceNotFoundException")
            /\ aws (CreateAlias FunctionName (Version v) alias) = inr a
            /\ last (trace (fst out)) (GetFunction "")
               = CreateAlias FunctionName (Version v) alias
            /\ ~ In (UpdateAlias FunctionName alias (Version v)) (trace (fst out)))).
Proof.
  intros Hstage Halias FunctionName out. subst out. run.
  rewrite Hstage. simpl. rewrite Halias. fold FunctionName.
  answered; intros Hr; try discriminate; injection Hr as <-; simpl;
    eexists _, _; (split; [reflexivity|]); (split; [reflexivity|]);
    (split; [reflexivity|]).
  all: first
    [ left; split; [reflexivity|]; split; [eexists; reflexivity|];
      split; [eassumption|]; split; [reflexivity|];
      simpl; intuition discriminate
    | right; split; [reflexivity|];
      split; [eexists; split; [reflexivity | now apply eq_code_spec]|];
      split; [eassumption|]; split; [reflexivity|];
      simpl; intuition discriminate ].
Qed.

(** X13. Whatever the provider answers, the deployment starts with the
    lookup of the function, looks it up once, and every request it makes
    concerns the Lambda deployed: a call on the function name of the
    context, the build of the package of the Lambda or the retrieval of
    its role. *)
Theorem deploy_concerns_one_function :
  let FunctionName := functionName lambda ctx in
  let out := deploy aws lambda ctx [] in
  exists rest,
    trace (fst out) = GetFunction FunctionName :: rest
    /\ ~ In (GetFunction FunctionName) rest
    /\ Forall (concerns lambda FunctionName) rest.
Proof.
  intros FunctionName out. subst out. run. simpl. fold FunctionName.
  answered; eexists; (split; [reflexivity|]);
    (split; [simpl; intuition discriminate|]);
    repeat constructor.
Qed.

(** X14. A deployment fails only with an error that the provider (or a
    local collaborator) answered to one of the requests made; when it
    succeeds, every request made but the lookups was answered without
    error, and the report resolved is the one being filled, named after
    the function. *)
Theorem deploy_outcome_from_answers :
  let out := deploy aws lambda ctx [] in
  (forall e, snd out = Rejected e ->
     exists rq, In rq (trace (fst out)) /\ aws rq = inl e)
  /\ (forall report, snd out = Resolved report ->
        report = rep (fst out)
        /\ report_name report = functionName lambda ctx
        /\ Forall (fun rq => isLookup rq = false -> exists r, aws rq = inr r)
             (trace (fst out))).
Proof.
  intros out. subst out. run. simpl.
  answered; split; intros x Hx; try discriminate; injection Hx as <-.
  all: try (eexists; split; [|eassumption]; simpl; tauto).
  all: split; [reflexivity|]; split; [reflexivity|].
  all: repeat constructor; simpl; intros; try discriminate; eauto.
Qed.

(** X15. Nothing is created or changed before its prerequisites are
    met: a creation is sent only once the package is built and the role
    resolved, with the resolved role and the configured publication
    flag; the code is updated only once the package is built; the
    configuration is updated only once the code update succeeded and the
    role is resolved, with the resolved role. *)
Theorem deploy_prerequisites :
  let out := deploy aws lambda ctx [] in
  (forall n role p, In (CreateFunction n role p) (trace (fst out)) ->
     p = Publish lambda
     /\ (exists pkg, aws (BuildPackage (identifier lambda)) = inr pkg)
     /\ exists r, aws (RetrieveRoleArn (Role lambda)) = inr r /\ role = RoleArn r)
  /\ (forall n p, In (UpdateFunctionCode n p) (trace (fst out)) ->
        p = Publish lambda
        /\ exists pkg, aws (BuildPackage (identifier lambda)) = inr pkg)
  /\ (forall n role, In (UpdateFunctionConfiguration n role) (trace (fst out)) ->
        (exists c, aws (UpdateFunctionCode n (Publish lambda)) = inr c)
        /\ exists r, aws (RetrieveRoleArn (Role lambda)) = inr r /\ role = RoleArn r).
Proof.
  intros out. subst out. run. simpl.
  answered; (split; [|split]); intros; simpl in *;
    repeat match goal with
           | H : _ \/ _ |- _ => destruct H as [H|H]
           | H : False |- _ => destruct H
           | H : @eq request _ _ |- _ => first [discriminate H | injection H as; subst]
           end;
    repeat split; eauto.
Qed.

End DeployRequests.

Section DeployRequestsExamples.
Import Async LambdaPlugin LambdaRequests Samples.

Lemma deploy_without_stage_witness :
  existsb isStageRequest
    (trace (fst (deploy existingProvider hello (mkContext (Some "DEV") None) [])))
  = false.
Proof.
  exact (proj1 (deploy_without_stage existingProvider hello
                  (mkContext (Some "DEV") None) eq_refl)).
Defined.

Lemma deploy_with_stage_witness :
  exists v a,
    existingProvider (PublishVersion "DEV-hello") = inr v
    /\ publishedVersion (rep (fst (deploy existingProvider hello devV0 [])))
       = Some (Version v)
    /\ arn (rep (fst (deploy existingProvider hello devV0 []))) = Some (AliasArn a).
Proof.
  destruct (deploy_with_stage existingProvider hello devV0 "v0"
              (rep (fst (deploy existingProvider hello devV0 [])))
              eq_refl eq_refl eq_refl) as [v [a [H1 [H2 [H3 _]]]]].
  exists v, a. repeat split; assumption.
Defined.

End DeployRequestsExamples.

(* ===================================================================== *)
(** ** The configuration of a Lambda                                      *)
(* ===================================================================== *)

Section LambdaConfigFacts.
Import Lodash LambdaConfig.

Lemma lookup_assignAll key source : forall object,
  NoDup (keys source) ->
  lookup key (assignAll object source)
  = match lookup key source with
    | Some v => Some v
    | None => lookup key object
    end.
Proof.
  unfold assignAll.
  induction source as [|[k v] source IH]; intros object Hnd; simpl; [reflexivity|].
  inversion Hnd as [|? ? Hk Hrest]; subst.
  rewrite IH by assumption.
  destruct (String.eqb_spec k key) as [->|Hne].
  - assert (Hnone : lookup key source = None) by (apply (lookup_none_not_key (fun _ s => s)); exact Hk).
    rewrite Hnone. apply lookup_assign_same.
  - destruct (lookup key source); [reflexivity|].
    now apply lookup_assign_other.
Qed.

(** X16. A Lambda can be constructed exactly when its configuration
    sets [Runtime] to one of the five strings of the table; the methods
    of the Node.js runtime are chosen for the three [nodejs] ones and
    those of Python for the two others. A missing runtime, or a runtime
    that is not a string, throws. *)
Theorem construct_requires_valid_runtime identifier configParams :
  NoDup (keys configParams) ->
  (construct identifier (Some configParams) <> None
   <-> exists s, lookup "Runtime" configParams = Some (VStr s) /\ In s validRuntimes)
  /\ (forall i, construct identifier (Some configParams) = Some i ->
        exists s, lookup "Runtime" configParams = Some (VStr s)
                  /\ (language i = "nodejs" <-> In s ["nodejs"; "nodejs4.3"; "nodejs6.10"])
                  /\ (language i = "python" <-> In s ["python2.7"; "python3.6"]))
  /\ construct identifier None = None.
Proof.
  intros Hnd. unfold construct, runtimeLanguage.
  rewrite (lookup_assignAll "Runtime") by assumption.
  destruct (lookup "Runtime" configParams) as [[| | |s| |]|] eqn:E; simpl.
  4: { unfold Js.includes. simpl.
       repeat match goal with
              | |- context [(s =? ?c)%string] =>
                  destruct (String.eqb_spec s c); [subst; simpl|]
              end; simpl.
       all: split; [|split; [|reflexivity]].
       all: try (split; [intros _; eexists; split; [reflexivity | simpl; tauto]
                        | discriminate]).
       all: try (intros i [= <-]; eexists; split; [reflexivity|]; simpl;
                 split; split; intros; try discriminate; try tauto;
                 intuition discriminate).
       - split; [congruence|]. intros [s' [[= <-] Hin]]. simpl in Hin. intuition congruence.
       - discriminate. }
  all: split; [|split; [|reflexivity]]; try discriminate.
  all: split; [congruence | intros [s [Hs _]]; discriminate].
Qed.

(** X17. The parameters of a constructed Lambda are the configured ones
    completed by the defaults: a configured parameter keeps its value,
    and a parameter left out takes the default ([FunctionName] is the
    identifier, [Timeout] 15, [Publish] false, [Role] a placeholder) or
    stays undefined. *)
Theorem construct_completes_params identifier configParams i :
  NoDup (keys configParams) ->
  construct identifier (Some configParams) = Some i ->
  LambdaConfig.identifier i = identifier
  /\ (forall key v, lookup key configParams = Some v -> lookup key (params i) = Some v)
  /\ (forall key, lookup key configParams = None ->
        lookup key (params i) = lookup key (defaults identifier))
  /\ (lookup "FunctionName" configParams = None ->
        lookup "FunctionName" (params i) = Some (VStr identifier))
  /\ (lookup "Timeout" configParams = None -> lookup "Timeout" (params i) = Some (VNum 15))
  /\ (lookup "Publish" configParams = None ->
        lookup "Publish" (params i) = Some (VBool false)).
Proof.
  intros Hnd. unfold construct.
  destruct (runtimeLanguage _) as [l|]; [|discriminate].
  destruct (Js.truthy_string l); [|discriminate].
  intros [= <-]. simpl.
  split; [reflexivity|].
  assert (Hdef : forall key, lookup key configParams = None ->
            lookup key (assignAll (defaults identifier) configParams)
            = lookup key (defaults identifier)).
  { intros key Hk. rewrite lookup_assignAll by assumption. now rewrite Hk. }
  split; [|split; [exact Hdef|split; [|split]]].
  - intros key v Hk. rewrite lookup_assignAll by assumption. now rewrite Hk.
  - intros H. now rewrite Hdef.
  - intros H. now rewrite Hdef.
  - intros H. now rewrite Hdef.
Qed.

End LambdaConfigFacts.

Section LambdaConfigExamples.
Import Lodash LambdaConfig.

Lemma construct_requires_valid_runtime_witness :
  construct "hello" (Some [("Runtime", VStr "nodejs4.3"); ("Timeout", VNum 30)]) <> None
  /\ construct "hello" (Some [("Runtime", VStr "nodejs8.10")]) = None.
Proof.
  split.
  - apply (proj1 (construct_requires_valid_runtime "hello"
                    [("Runtime", VStr "nodejs4.3"); ("Timeout", VNum 30)]
                    ltac:(repeat constructor; simpl; intuition discriminate))).
    exists "nodejs4.3"%string. split; [reflexivity | simpl; tauto].
  - reflexivity.
Defined.

Lemma construct_completes_params_witness :
  exists i,
    construct "hello" (Some [("Runtime", VStr "nodejs4.3"); ("Timeout", VNum 30)]) = Some i
    /\ lookup "Timeout" (params i) = Some (VNum 30)
    /\ lookup "FunctionName" (params i) = Some (VStr "hello").
Proof.
  eexists. split; [reflexivity|].
  destruct (construct_completes_params "hello"
              [("Runtime", VStr "nodejs4.3"); ("Timeout", VNum 30)] _
              ltac:(repeat constructor; simpl; intuition discriminate) eq_refl)
    as (_ & Hset & _ & Hname & _).
  split; [apply Hset; reflexivity | apply Hname; reflexivity].
Defined.

End LambdaConfigExamples.

(* ===================================================================== *)
(** ** The batches of the deployment commands                             *)
(* ===================================================================== *)

Section ApiBatch.
Import Async Cli DeployApis Batches.

Variable getConfig : string -> option string.
Variable loadApis : promise (list Api).
Variable loadIntegrations : string -> context -> list Endpoint -> promise unit.
Variable deploy : Api -> string -> context -> promise deployResult.
Variable duration : Api -> N.
Variable publish : Api -> string -> context -> promise unit.

Lemma deployed_app tr tr' : deployed (tr ++ tr') = deployed tr ++ deployed tr'.
Proof. unfold deployed. apply flat_map_app. Qed.

Lemma deployed_announcements apis :
  deployed (announcements apis) = map getIdentifier apis.
Proof.
  induction apis as [|a apis IH]; simpl; [reflexivity|]. now rewrite <- IH.
Qed.

Lemma published_announcements apis : published (announcements apis) = [].
Proof.
  induction apis as [|a apis IH]; simpl; [reflexivity | exact IH].
Qed.

Lemma startsAt_mono i j : i <= j -> (startsAt i <= startsAt j)%N.
Proof. unfold startsAt. lia. Qed.

(** The timers fire in the order of the batch: once one has not fired,
    none of the later ones has. *)
Lemma startedAt_none t apis : forall i,
  (t < startsAt i)%N -> startedAt t i apis = [].
Proof.
  induction apis as [|a apis IH]; intros i Hi; simpl; [reflexivity|].
  destruct (N.leb_spec (startsAt i) t) as [Hle|_]; [lia|].
  apply IH. pose proof (startsAt_mono i (S i)). lia.
Qed.

Lemma startedAt_prefix t apis : forall i,
  exists later, apis = startedAt t i apis ++ later.
Proof.
  induction apis as [|a apis IH]; intros i; simpl.
  - now exists [].
  - destruct (N.leb_spec (startsAt i) t) as [Hle|Hlt].
    + destruct (IH (S i)) as [later Hl]. exists later. simpl. now rewrite <- Hl.
    + rewrite startedAt_none by (pose proof (startsAt_mono i (S i)); lia).
      now exists (a :: apis).
Qed.

Lemma startedAt_In t apis : forall i k a,
  nth_error apis k = Some a -> (startsAt (i + k) <= t)%N -> In a (startedAt t i apis).
Proof.
  induction apis as [|b apis IH]; intros i [|k] a Hk Ht; simpl in *; try discriminate.
  - injection Hk as ->. rewrite Nat.add_0_r in Ht.
    destruct (N.leb_spec (startsAt i) t); [now left | lia].
  - assert (Hs : In a (startedAt t (S i) apis)).
    { apply (IH (S i) k); [assumption|]. now replace (S i + k) with (i + S k) by lia. }
    destruct (startsAt i <=? t)%N; [now right | assumption].
Qed.

Lemma firstRejection_none rg ctx apis : forall i,
  firstRejection deploy duration rg ctx i apis = None ->
  Forall (fun a => exists x, deploy a rg ctx = Resolved x) apis
  /\ all (map (fun a => deploy a rg ctx) apis) = Resolved (resolutions deploy rg ctx apis).
Proof.
  induction apis as [|a apis IH]; intros i; simpl.
  - intros _. split; [constructor | reflexivity].
  - destruct (deploy a rg ctx) as [x|e] eqn:Ea.
    + intros H. destruct (IH _ H) as [Hall Hres]. split.
      * constructor; eauto.
      * now rewrite Hres.
    + destruct (firstRejection deploy duration rg ctx (S i) apis) as [[t e']|];
        [destruct (t <? settlesAt duration i a)%N|]; discriminate.
Qed.

(** The rejection that [Promise.all] gives is the rejection of one of
    the deployments, at the time that deployment settles, and no
    deployment is rejected earlier. *)
Lemma firstRejection_some rg ctx apis : forall i t e,
  firstRejection deploy duration rg ctx i apis = Some (t, e) ->
  (exists k a,
     nth_error apis k = Some a /\ deploy a rg ctx = Rejected e
     /\ t = settlesAt duration (i + k) a)
  /\ (forall k a e',
        nth_error apis k = Some a -> deploy a rg ctx = Rejected e' ->
        (t <= settlesAt duration (i + k) a)%N).
Proof.
  induction apis as [|a apis IH]; intros i t e; simpl; [discriminate|].
  assert (Hshift : forall k, S i + k = i + S k) by (intros; lia).
  destruct (deploy a rg ctx) as [x|ea] eqn:Ea.
  - intros H. destruct (IH _ _ _ H) as [[k [b [Hk [Hb Ht]]]] Hmin]. split.
    + exists (S k), b. rewrite <- Hshift. auto.
    + intros [|k'] b' e' Hk' Hb'; simpl in Hk'.
      * injection Hk' as <-. congruence.
      * rewrite <- Hshift. eapply Hmin; eauto.
  - destruct (firstRejection deploy duration rg ctx (S i) apis) as [[t' e'']|] eqn:El.
    + destruct (IH _ _ _ El) as [[k [b [Hk [Hb Ht]]]] Hmin].
      destruct (N.ltb_spec t' (settlesAt duration i a)) as [Hlt|Hge];
        intros [= <- <-]; split.
      * exists (S k), b. rewrite <- Hshift. auto.
      * intros [|k'] b' e' Hk' Hb'; simpl in Hk'.
        -- injection Hk' as <-. rewrite Nat.add_0_r. lia.
        -- rewrite <- Hshift. eapply Hmin; eauto.
      * exists 0, a. rewrite Nat.add_0_r. auto.
      * intros [|k'] b' e' Hk' Hb'; simpl in Hk'.
        -- injection Hk' as <-. rewrite Nat.add_0_r. lia.
        -- rewrite <- Hshift. specialize (Hmin _ _ _ Hk' Hb'). lia.
    + intros [= <- <-]. split.
      * exists 0, a. rewrite Nat.add_0_r. auto.
      * intros [|k'] b' e' Hk' Hb'; simpl in Hk'.
        -- injection Hk' as <-. rewrite Nat.add_0_r. lia.
        -- exfalso. destruct (firstRejection_none rg ctx apis (S i) El) as [Hall _].
           rewrite Forall_forall in Hall.
           destruct (Hall b' (nth_error_In _ _ Hk')) as [x Hx]. congruence.
Qed.

Lemma reportAndPublish_deployed rg ctx apis results tr :
  deployed (fst (reportAndPublish publish rg ctx apis results tr)) = deployed tr.
Proof.
  unfold reportAndPublish.
  destruct (displayResults results [] true) as [rows success].
  destruct success; simpl; rewrite ?deployed_app; simpl; now rewrite ?app_nil_r.
Qed.

Lemma reportAndPublish_published rg ctx apis results tr :
  published (fst (reportAndPublish publish rg ctx apis results tr)) = published tr.
Proof.
  unfold reportAndPublish.
  destruct (displayResults results [] true) as [rows success].
  destruct success; simpl; rewrite ?published_app; simpl; now rewrite ?app_nil_r.
Qed.

(** X20. A failure before the reports are complete rejects the
    command with the error, without publication and without leaving the
    process: the failure to load the APIs starts nothing, the failure to
    load the integrations starts no deployment. When the promise of a
    deployment is rejected, the command is rejected with the error of a
    rejected deployment, the one that no other rejection precedes in
    time; until then the deployments have been started in the order of
    the selection, that of the rejected API among them, and nothing has
    been published. *)
Theorem deploy_apis_rejections params e :
  let ctx := contextOf getConfig params in
  let out := executeCommand getConfig loadApis loadIntegrations deploy duration publish
               params [] in
  (loadApis = Rejected e -> out = ([], Settled (Rejected e)))
  /\ (forall loaded,
        loadApis = Resolved loaded ->
        (forall endpoints, loadIntegrations (region params) ctx endpoints = Rejected e) ->
        snd out = Settled (Rejected e) /\ deployed (fst out) = [] /\ published (fst out) = [])
  /\ (forall loaded,
        loadApis = Resolved loaded ->
        (forall endpoints, loadIntegrations (region params) ctx endpoints = Resolved tt) ->
        Exists (fun a => exists e0, deploy a (region params) ctx = Rejected e0)
          (selected params loaded) ->
        exists k a e',
          nth_error (selected params loaded) k = Some a
          /\ deploy a (region params) ctx = Rejected e'
          /\ snd out = Settled (Rejected e')
          /\ (forall k' a' e'',
                nth_error (selected params loaded) k' = Some a' ->
                deploy a' (region params) ctx = Rejected e'' ->
                (N.of_nat k * 35000 + duration a <= N.of_nat k' * 35000 + duration a')%N)
          /\ In (getIdentifier a) (deployed (fst out))
          /\ (exists later,
                map getIdentifier (selected params loaded) = deployed (fst out) ++ later)
          /\ published (fst out) = []).
Proof.
  intros ctx out. subst out. unfold executeCommand. fold ctx.
  split; [|split].
  - intros ->. reflexivity.
  - intros loaded -> Hint. rewrite Hint. simpl. auto.
  - intros loaded -> Hint Hrej. rewrite Hint. unfold deployEach.
    destruct (firstRejection deploy duration (region params) ctx 0 (selected params loaded))
      as [[t e']|] eqn:Ef.
    + destruct (firstRejection_some _ _ _ _ _ _ Ef) as [[k [a [Hk [Ha Ht]]]] Hmin].
      simpl in Ht. exists k, a, e'.
      split; [exact Hk|]. split; [exact Ha|]. split; [reflexivity|].
      split; [|split; [|split]].
      * intros k' a' e'' Hk' Ha'. specialize (Hmin _ _ _ Hk' Ha').
        unfold settlesAt, startsAt in *. simpl in Hmin. lia.
      * cbn [fst]. rewrite !deployed_app, deployed_announcements. simpl.
        apply in_map. apply (startedAt_In _ _ 0 k); [exact Hk|].
        simpl. unfold settlesAt in Ht. lia.
      * cbn [fst]. rewrite !deployed_app, deployed_announcements. simpl.
        destruct (startedAt_prefix t (selected params loaded) 0) as [later Hl].
        exists (map getIdentifier later). rewrite <- map_app. now rewrite <- Hl.
      * cbn [fst]. rewrite !published_app, published_announcements. reflexivity.
    + exfalso. destruct (firstRejection_none _ _ _ _ Ef) as [Hall _].
      rewrite Forall_forall in Hall. apply Exists_exists in Hrej.
      destruct Hrej as [a [Hin [e0 He0]]]. destruct (Hall a Hin) as [x Hx]. congruence.
Qed.

(** X21. Whatever the collaborators answer, the command deploys
    selected APIs only: the deployments started are those of the first
    selected APIs, in the order of the project; every selected API is
    named on the command line and belongs to the project; and when the
    integrations are loaded and the promise of every deployment
    resolves, the deployment of every selected API has been started. *)
Theorem deploy_apis_only_selected params loaded :
  let ctx := contextOf getConfig params in
  let out := executeCommand getConfig loadApis loadIntegrations deploy duration publish
               params [] in
  let chosen := map getIdentifier (selected params loaded) in
  loadApis = Resolved loaded ->
  (exists later, chosen = deployed (fst out) ++ later)
  /\ Forall (fun a => In a (apiIdentifiers params)
                      /\ exists api, In api loaded /\ getIdentifier api = a) chosen
  /\ ((forall endpoints, loadIntegrations (region params) ctx endpoints = Resolved tt) ->
      Forall (fun a => exists x, deploy a (region params) ctx = Resolved x)
        (selected params loaded) ->
      deployed (fst out) = chosen).
Proof.
  intros ctx out chosen Hload. subst out. unfold executeCommand. rewrite Hload. fold ctx.
  split; [|split].
  - destruct (loadIntegrations _ _ _); [|now exists chosen].
    unfold deployEach.
    destruct (firstRejection deploy duration (region params) ctx 0 (selected params loaded))
      as [[t e']|].
    + cbn [fst]. rewrite !deployed_app, deployed_announcements. simpl.
      destruct (startedAt_prefix t (selected params loaded) 0) as [later Hl].
      exists (map getIdentifier later). rewrite <- map_app. subst chosen. now rewrite <- Hl.
    + rewrite reportAndPublish_deployed, !deployed_app, deployed_announcements.
      exists []. simpl. now rewrite app_nil_r.
  - subst chosen. apply Forall_forall. intros a Hin. apply in_map_iff in Hin.
    destruct Hin as [api [<- Hapi]]. unfold selected in Hapi.
    apply filter_In in Hapi. destruct Hapi as [Hl Hs].
    split; [now apply includes_In | eauto].
  - intros Hint Hall. rewrite Hint. unfold deployEach.
    destruct (firstRejection deploy duration (region params) ctx 0 (selected params loaded))
      as [[t e']|] eqn:Ef.
    + exfalso. destruct (firstRejection_some _ _ _ _ _ _ Ef) as [[k [a [Hk [Ha _]]]] _].
      rewrite Forall_forall in Hall.
      destruct (Hall a (nth_error_In _ _ Hk)) as [x Hx]. congruence.
    + now rewrite reportAndPublish_deployed, !deployed_app, deployed_announcements.
Qed.

End ApiBatch.

Section BatchRejections.
Import Async Cli LambdaPlugin LambdaRequests Batches Samples MoreSamples.

(** The second of three deployments is rejected 37 seconds after the
    first timer: the third deployment has not been started. *)
Example deploy_apis_second_rejected :
  DeployApis.executeCommand noConfig (Resolved [front; back; admin])
    integrationsFine deploySecondRejected twoSeconds publishFine deployThree []
  = ([DeployApis.Print ""; DeployApis.Print "Endpoints to deploy"; DeployApis.Print "";
      DeployApis.PrintTable []; DeployApis.LoadIntegrations;
      DeployApis.Print "Deploying front ..."; DeployApis.Deploy "front";
      DeployApis.Print "Deploying back ..."; DeployApis.Deploy "back"],
     Settled (Rejected throttled)).
Proof. reflexivity. Qed.

Lemma deploy_apis_rejections_witness :
  let out := DeployApis.executeCommand noConfig (Resolved [front; back; admin])
               integrationsFine deploySecondRejected twoSeconds publishFine deployThree [] in
  exists k a e',
    nth_error (DeployApis.selected deployThree [front; back; admin]) k = Some a
    /\ deploySecondRejected a "us-east-1" (DeployApis.contextOf noConfig deployThree)
       = Rejected e'
    /\ snd out = Settled (Rejected e').
Proof.
  intros out.
  destruct (proj2 (proj2 (deploy_apis_rejections noConfig (Resolved [front; back; admin])
                            integrationsFine deploySecondRejected twoSeconds publishFine
                            deployThree throttled))
              [front; back; admin] eq_refl (fun _ => eq_refl)
              ltac:(right; left; eexists; reflexivity))
    as [k [a [e' [Hk [Ha [Hout _]]]]]].
  exists k, a, e'. auto.
Defined.

Lemma deploy_apis_only_selected_witness :
  let out := DeployApis.executeCommand noConfig (Resolved [front; back; admin])
               integrationsFine deploySecondRefused twoSeconds publishFine deployThree [] in
  let chosen := map DeployApis.getIdentifier
                  (DeployApis.selected deployThree [front; back; admin]) in
  (exists later, chosen = deployed (fst out) ++ later)
  /\ Forall (fun a => In a (DeployApis.apiIdentifiers deployThree)
                      /\ exists api, In api [front; back; admin]
                                     /\ DeployApis.getIdentifier api = a) chosen.
Proof.
  intros out chosen.
  destruct (deploy_apis_only_selected noConfig (Resolved [front; back; admin])
              integrationsFine deploySecondRefused twoSeconds publishFine deployThree
              [front; back; admin] eq_refl) as [H1 [H2 _]].
  split; assumption.
Defined.

Lemma deploy_outcome_from_answers_witness :
  exists rq,
    In rq (trace (fst (deploy refusingProvider hello devV0 [])))
    /\ refusingProvider rq = inl accessDenied.
Proof.
  exact (proj1 (deploy_outcome_from_answers refusingProvider hello devV0)
           accessDenied eq_refl).
Defined.

Lemma deploy_prerequisites_witness :
  false = Publish hello
  /\ (exists pkg, emptyProvider (BuildPackage (identifier hello)) = inr pkg)
  /\ exists r, emptyProvider (RetrieveRoleArn (Role hello)) = inr r
               /\ "arn:aws:iam::1:role/exec"%string = RoleArn r.
Proof.
  refine (proj1 (deploy_prerequisites emptyProvider hello devV0)
            "DEV-hello"%string "arn:aws:iam::1:role/exec"%string false _).
  simpl. tauto.
Defined.

End BatchRejections.

(* ===================================================================== *)
(** ** The CORS configuration applied by the hook                         *)
(* ===================================================================== *)

Section CorsMappings.
Import Async Cors CorsHeaders.

Lemma header_setProperty key key' v config :
  key <> "__proto__"%string \/ key' <> "__proto__"%string ->
  header key' (setProperty key v config)
  = if key =? key' then Some v else header key' config.
Proof.
  intros Hp. induction config as [|[k w] config IH]; cbn [setProperty header].
  - destruct (String.eqb_spec key "__proto__") as [->|Hk]; cbn [header].
    + destruct (String.eqb_spec "__proto__" key') as [<-|_]; [tauto | reflexivity].
    + reflexivity.
  - destruct (String.eqb_spec k key) as [->|Hk]; cbn [header].
    + destruct (String.eqb_spec key key'); reflexivity.
    + rewrite IH. destruct (String.eqb_spec k key') as [->|Hk'].
      * destruct (String.eqb_spec key key'); [congruence | reflexivity].
      * reflexivity.
Qed.

Lemma header_not_key key config : ~ In key (map fst config) -> header key config = None.
Proof.
  induction config as [|[k w] config IH]; simpl; [reflexivity|].
  intros H. destruct (String.eqb_spec k key); [tauto | apply IH; tauto].
Qed.

(** After [Object.assign], a header has the value that the source gives
    it, else the value it had: for every header but [__proto__], and for
    every header when the source has no property [__proto__]. *)
Lemma header_assignAll key source : forall target,
  key <> "__proto__"%string \/ ~ In "__proto__"%string (map fst source) ->
  NoDup (map fst source) ->
  header key (assignAll target source)
  = match header key source with
    | Some v => Some v
    | None => header key target
    end.
Proof.
  induction source as [|[k v] source IH]; intros target Hp Hnd; [reflexivity|].
  inversion Hnd as [|? ? Hk Hrest]; subst.
  cbn [assignAll]. rewrite IH; [|simpl in Hp; tauto|assumption]. simpl.
  rewrite header_setProperty by (simpl in Hp; destruct (string_dec k "__proto__"); tauto).
  destruct (String.eqb_spec k key) as [->|Hne].
  - now rewrite header_not_key.
  - reflexivity.
Qed.

(** [_.uniq] keeps the first occurrence of every element, at the place
    where it first occurs. *)
Lemma uniq_first l1 x l2 : forall seen,
  ~ In x l1 -> ~ In x seen ->
  exists u1 u2,
    uniq seen (l1 ++ x :: l2) = u1 ++ x :: u2
    /\ forall y, In y u1 <-> In y l1 /\ ~ In y seen.
Proof.
  induction l1 as [|y l1 IH]; intros seen Hx Hs; simpl.
  - exists [], (uniq (x :: seen) l2). split.
    + destruct (Js.includes x seen) eqn:E; [|reflexivity].
      apply includes_In in E. contradiction.
    + simpl. tauto.
  - simpl in Hx. destruct (Js.includes y seen) eqn:E.
    + apply includes_In in E.
      destruct (IH seen) as [u1 [u2 [Hu Hin]]]; [tauto | assumption |].
      exists u1, u2. split; [assumption|]. intros z. rewrite Hin. split; [tauto|].
      intros [[<-|Hz] Hn]; [contradiction | tauto].
    + assert (Hy : ~ In y seen) by (rewrite <- includes_In; congruence).
      destruct (IH (y :: seen)) as [u1 [u2 [Hu Hin]]]; [tauto | simpl; tauto |].
      exists (y :: u1), u2. split; [simpl; now rewrite Hu|].
      intros z. simpl. rewrite Hin. simpl.
      destruct (string_dec y z) as [->|Hne]; tauto.
Qed.

Lemma uniq_spec l : forall seen,
  NoDup (uniq seen l)
  /\ forall x, In x (uniq seen l) <-> In x l /\ ~ In x seen.
Proof.
  induction l as [|y l IH]; intros seen; simpl.
  - split; [constructor | tauto].
  - destruct (Js.includes y seen) eqn:E.
    + apply includes_In in E. destruct (IH seen) as [Hnd Hin]. split; [assumption|].
      intros x. rewrite Hin. split; [tauto|].
      intros [[<-|Hx] Hs]; [contradiction | tauto].
    + assert (Hy : ~ In y seen) by (rewrite <- includes_In; congruence).
      destruct (IH (y :: seen)) as [Hnd Hin]. split.
      * constructor; [|assumption]. rewrite Hin. simpl. tauto.
      * intros x. simpl. rewrite Hin. simpl.
        destruct (string_dec y x) as [->|Hne]; tauto.
Qed.

Lemma append_eqb (p a b : string) : ((p ++ a) =? (p ++ b))%string = (a =? b)%string.
Proof.
  induction p as [|c p IH]; simpl; [reflexivity|].
  now rewrite Ascii.eqb_refl.
Qed.

Lemma header_prefixed (p : string) (q : string -> string) key cors :
  header (p ++ key) (map (fun kv => ((p ++ fst kv)%string, q (snd kv))) cors)
  = match header key cors with
    | Some v => Some (q v)
    | None => None
    end.
Proof.
  induction cors as [|[k v] cors IH]; simpl; [reflexivity|].
  rewrite append_eqb. destruct (k =? key)%string; [reflexivity | assumption].
Qed.

Lemma header_foreign (p : string) (q : string -> string) key' cors :
  (forall key, key' <> (p ++ key)%string) ->
  header key' (map (fun kv => ((p ++ fst kv)%string, q (snd kv))) cors) = None.
Proof.
  intros H. induction cors as [|[k v] cors IH]; simpl; [reflexivity|].
  destruct (String.eqb_spec (p ++ k) key') as [E|_]; [|assumption].
  exfalso. now apply (H k).
Qed.

Lemma prefixed_keys (p : string) (q : string -> string) cors :
  NoDup (map fst cors) ->
  NoDup (map fst (map (fun kv => ((p ++ fst kv)%string, q (snd kv))) cors)).
Proof.
  rewrite map_map. simpl.
  induction cors as [|[k v] cors IH]; simpl; intros H; [constructor|].
  inversion H as [|? ? Hk Hrest]; subst. constructor; [|auto].
  rewrite in_map_iff. intros [[k' v'] [E Hin]]. simpl in E.
  apply Hk. apply in_map_iff. exists (k', v'). split; [|assumption]. simpl.
  apply String.eqb_eq. rewrite <- (append_eqb p). now apply String.eqb_eq.
Qed.

End CorsMappings.

Section CorsHeadersFacts.
Import Async Cors CorsHeaders.

Variable requireCors : string -> result corsModule.
Variable baseResponseParameters : list (string * string).

(** X22. The configuration that applies to a resource path gives each
    header, the name [__proto__] apart, the value of the most specific
    level that sets it: the configuration of the [cors] module for this
    API, else the default configuration of the module, else the
    configuration of the API. Without a module, the configuration of
    the API applies as it is. *)
Theorem cors_precedence a resourcePath :
  (forall m,
     requireCors resourcePath = inr m ->
     NoDup (map fst (orEmpty (default m))) ->
     NoDup (map fst (orEmpty (byApi m (getIdentifier a)))) ->
     exists cors,
       corsFor requireCors a resourcePath = inr cors
       /\ forall key,
            key <> "__proto__"%string ->
            header key cors
            = match header key (orEmpty (byApi m (getIdentifier a))) with
              | Some v => Some v
              | None =>
                  match header key (orEmpty (default m)) with
                  | Some v => Some v
                  | None => header key (orEmpty (apiCors a))
                  end
              end)
  /\ (forall e,
        requireCors resourcePath = inl e ->
        code e = Some "MODULE_NOT_FOUND" ->
        corsFor requireCors a resourcePath = inr (orEmpty (apiCors a))).
Proof.
  split.
  - intros m Hm Hd Hs. unfold corsFor. rewrite Hm. unfold orEmpty in *.
    eexists. split; [reflexivity|]. intros key Hkey.
    rewrite !header_assignAll by auto. reflexivity.
  - intros e He Hc. unfold corsFor. rewrite He.
    apply eq_code_spec in Hc. now rewrite Hc.
Qed.

(** X23. For an API that has no [OPTIONS] endpoint of its own: when the
    hook returns, it has added one [OPTIONS] endpoint, with the override
    flag, for every distinct resource path of the API, in the order of
    their first endpoint: no resource path of the API is left without
    one, none gets two, and the endpoint of a resource path comes after
    those of the resource paths met before its first endpoint and
    before all the others. *)
Theorem cors_hook_covers_every_path a calls :
  Forall (fun e => getMethod e tt <> "OPTIONS"%string) (getEndpoints a) ->
  afterAddEndpointsToApi requireCors baseResponseParameters a = inr calls ->
  exists resourcePaths,
    map summary calls = map (fun rp => ("OPTIONS"%string, rp, true)) resourcePaths
    /\ NoDup resourcePaths
    /\ (forall rp, In rp resourcePaths
                   <-> exists e, In e (getEndpoints a) /\ getResourcePath e tt = rp)
    /\ (forall before e after,
          getEndpoints a = before ++ e :: after ->
          (forall e', In e' before -> getResourcePath e' tt <> getResourcePath e tt) ->
          exists earlier later,
            resourcePaths = earlier ++ getResourcePath e tt :: later
            /\ forall rp, In rp earlier
                          <-> exists e', In e' before /\ getResourcePath e' tt = rp).
Proof.
  unfold afterAddEndpointsToApi. intros _ H.
  exists (uniq [] (map (fun e => getResourcePath e tt) (getEndpoints a))).
  destruct (uniq_spec (map (fun e => getResourcePath e tt) (getEndpoints a)) [])
    as [Hnd Hin].
  split; [|split; [assumption|split]].
  - apply (forEachResourcePath_all requireCors baseResponseParameters) in H.
    exact H.
  - intros rp. rewrite Hin, in_map_iff. simpl. split.
    + intros [[e [E He]] _]. eauto.
    + intros [e [He E]]. split; [eauto | tauto].
  - intros before e after -> Hfirst. rewrite map_app. simpl.
    destruct (uniq_first (map (fun e => getResourcePath e tt) before)
                (getResourcePath e tt)
                (map (fun e => getResourcePath e tt) after) [])
      as [u1 [u2 [Hu Hu1]]].
    + rewrite in_map_iff. intros [e' [E He']]. now apply (Hfirst e').
    + simpl. tauto.
    + exists u1, u2. split; [exact Hu|]. intros rp. rewrite Hu1, in_map_iff. simpl.
      split.
      * intros [[e' [E He']] _]. eauto.
      * intros [e' [He' E]]. split; [eauto | tauto].
Qed.

(** X24. A [cors] module that cannot be loaded for another reason than
    its absence makes the hook throw the error of [require]: the error
    of the first resource path whose module is broken, the modules of
    the paths before it being loaded or absent. *)
Theorem cors_hook_throws_load_error a before resourcePath after e :
  uniq [] (map (fun e => getResourcePath e tt) (getEndpoints a))
  = before ++ resourcePath :: after ->
  Forall (fun rp => forall e', requireCors rp = inl e' ->
                               code e' = Some "MODULE_NOT_FOUND") before ->
  requireCors resourcePath = inl e ->
  code e <> Some "MODULE_NOT_FOUND" ->
  afterAddEndpointsToApi requireCors baseResponseParameters a = inl e.
Proof.
  intros Hpaths Hbefore He Hc. unfold afterAddEndpointsToApi. rewrite Hpaths.
  generalize (@nil addEndpointCall) as calls.
  clear Hpaths. induction before as [|rp before IH]; intros calls; simpl.
  - rewrite find_isOptionsOf. unfold corsFor. rewrite He.
    destruct (eq_code e "MODULE_NOT_FOUND") eqn:E; [|reflexivity].
    apply eq_code_spec in E. contradiction.
  - inversion Hbefore as [|? ? Hrp Hrest]; subst.
    rewrite find_isOptionsOf. unfold corsFor at 1.
    destruct (requireCors rp) as [e'|m] eqn:E.
    + specialize (Hrp e' eq_refl). apply eq_code_spec in Hrp. rewrite Hrp. simpl.
      now apply IH.
    + now apply IH.
Qed.

End CorsHeadersFacts.

Section CorsEndpointFacts.
Import Async Cors CorsHeaders.

Variable baseResponseParameters : list (string * string).

(** X25. The endpoint made for a CORS configuration answers every
    header of the configuration under the name
    [method.response.header.<header>] with the value between single
    quotes, and keeps the other response parameters of the base
    specification. *)
Theorem corsEndpoint_headers cors resourcePath :
  NoDup (map fst cors) ->
  let parameters := responseParameters (corsEndpoint baseResponseParameters cors resourcePath) in
  (forall key v,
     header key cors = Some v ->
     header ("method.response.header." ++ key) parameters = Some ("'" ++ v ++ "'")%string)
  /\ (forall key,
        header key cors = None ->
        header ("method.response.header." ++ key) parameters
        = header ("method.response.header." ++ key) baseResponseParameters)
  /\ (forall key',
        (forall key, key' <> ("method.response.header." ++ key)%string) ->
        header key' parameters = header key' baseResponseParameters).
Proof.
  intros Hnd parameters. subst parameters. unfold corsEndpoint. simpl responseParameters.
  pose proof (prefixed_keys "method.response.header."
                (fun v => ("'" ++ v ++ "'")%string) cors Hnd) as Hnd'.
  assert (Hp : forall key : string,
             key <> "__proto__"%string
             \/ ~ In "__proto__"%string
                  (map fst (map (fun kv => (("method.response.header." ++ fst kv)%string,
                                            ("'" ++ snd kv ++ "'")%string)) cors))).
  { intros key0. right. rewrite map_map, in_map_iff. intros [kv [E _]].
    simpl in E. discriminate E. }
  split; [|split].
  - intros key v Hk. rewrite header_assignAll by auto.
    rewrite (header_prefixed "method.response.header."
               (fun v => ("'" ++ v ++ "'")%string)).
    now rewrite Hk.
  - intros key Hk. rewrite header_assignAll by auto.
    rewrite (header_prefixed "method.response.header."
               (fun v => ("'" ++ v ++ "'")%string)).
    now rewrite Hk.
  - intros key' Hk. rewrite header_assignAll by auto.
    rewrite (header_foreign "method.response.header."
               (fun v => ("'" ++ v ++ "'")%string)) by assumption.
    reflexivity.
Qed.

End CorsEndpointFacts.

Section CorsHeadersExamples.
Import Async Cors CorsHeaders Samples.

Lemma cors_precedence_witness :
  exists cors,
    corsFor usersCors corsApi "/users" = inr cors
    /\ header "Access-Control-Allow-Origin" cors = Some "https://example.org"%string
    /\ header "Access-Control-Allow-Methods" cors = Some "GET"%string
    /\ header "Access-Control-Allow-Headers" cors = Some "Content-Type"%string.
Proof.
  destruct (proj1 (cors_precedence usersCors corsApi "/users") _ eq_refl) as [cors [E H]].
  - repeat constructor; simpl; intuition discriminate.
  - repeat constructor; simpl; intuition discriminate.
  - exists cors. split; [exact E|]. rewrite !H by discriminate. repeat split.
Defined.

Lemma cors_hook_covers_every_path_witness :
  Forall (fun e => getMethod e tt <> "OPTIONS"%string) (getEndpoints corsApi)
  /\ exists resourcePaths,
       map summary [mkCall (corsEndpoint [] (orEmpty (apiCors corsApi)) "/users") true;
                    mkCall (corsEndpoint [] (orEmpty (apiCors corsApi)) "/health") true]
       = map (fun rp => ("OPTIONS"%string, rp, true)) resourcePaths
       /\ NoDup resourcePaths.
Proof.
  assert (H : Forall (fun e => getMethod e tt <> "OPTIONS"%string) (getEndpoints corsApi))
    by (repeat constructor; discriminate).
  split; [exact H|].
  destruct (cors_hook_covers_every_path noCorsModule [] corsApi _ H eq_refl)
    as [resourcePaths [Hs [Hnd _]]].
  exists resourcePaths. split; assumption.
Defined.

Lemma cors_hook_throws_load_error_witness :
  afterAddEndpointsToApi brokenCors [] corsApi = inl syntaxError.
Proof.
  refine (cors_hook_throws_load_error brokenCors [] corsApi [] "/users" ["/health"%string]
            syntaxError eq_refl (Forall_nil _) eq_refl _).
  discriminate.
Defined.

Lemma corsEndpoint_headers_witness :
  header "method.response.header.Access-Control-Allow-Origin"
    (responseParameters (corsEndpoint [] [("Access-Control-Allow-Origin", "*")] "/users"))
  = Some "'*'"%string.
Proof.
  refine (proj1 (corsEndpoint_headers [] [("Access-Control-Allow-Origin", "*")] "/users" _)
            "Access-Control-Allow-Origin"%string "*"%string eq_refl).
  repeat constructor. simpl. tauto.
Defined.

End CorsHeadersExamples.

(* ===================================================================== *)
(** ** The specifications of the APIs: creation and loading               *)
(* ===================================================================== *)

Section ApiFiles.
Import Async Lodash Lager ApiGateway Levels.

Lemma normalize_rooted l :
  l <> [] -> Forall (fun x => entryName x = true) l ->
  Js.normalize (rooted l) = rooted l.
Proof.
  intros Hl H. unfold Js.normalize.
  change (rooted l =? "")%string with false. cbv iota.
  rewrite rooted_no_trailing_sep by assumption.
  change (Js.starts_with_sep (rooted l)) with true. simpl negb.
  unfold Js.normalizeString. rewrite split_rooted by assumption.
  cbn [fold_left]. change (Js.normalizeStep false [] "") with (@nil string).
  rewrite fold_normalizeStep_names by assumption.
  rewrite app_nil_r, rev_involutive, !andb_false_r. reflexivity.
Qed.

(** Joining a clean absolute directory and entry names appends the
    names. *)
Lemma path_join_names l names :
  l <> [] -> Forall (fun x => entryName x = true) l ->
  Forall (fun x => entryName x = true) names ->
  Js.path_join (rooted l :: names) = rooted (l ++ names).
Proof.
  intros Hl H Hn. unfold Js.path_join. cbn [filter].
  change (Js.truthy_string (rooted l)) with true. cbv iota.
  rewrite filter_truthy_names by assumption.
  assert (E : Js.join Js.sep (rooted l :: names) = rooted (l ++ names)).
  { destruct names as [|n names]; [now rewrite app_nil_r|].
    rewrite rooted_app by (assumption || discriminate). reflexivity. }
  rewrite E. change (rooted (l ++ names) =? "")%string with false. cbv iota.
  apply normalize_rooted; [now destruct l | now apply Forall_app].
Qed.

Lemma rooted_suffix l x (suffix : string) :
  (rooted (l ++ [x]) ++ suffix)%string = rooted (l ++ [(x ++ suffix)%string]).
Proof.
  destruct l as [|y l]; [reflexivity|].
  rewrite !rooted_snoc by discriminate.
  rewrite append_assoc. reflexivity.
Qed.

Lemma identifierChar_plain c :
  CreateApi.identifierChar c = true -> c <> "/"%char /\ c <> "."%char.
Proof. intros H. split; intros ->; discriminate. Qed.

Lemma validate_entryName input : CreateApi.validate input = true -> entryName input = true.
Proof.
  unfold CreateApi.validate. intros H. apply andb_prop in H. destruct H as [Hne Hall].
  apply entryName_of_segment.
  - induction input as [|c s IH]; [reflexivity|].
    simpl in Hall. apply andb_prop in Hall. destruct Hall as [Hc Hs].
    apply identifierChar_plain in Hc. destruct Hc as [Hc _].
    simpl. apply andb_true_intro. split.
    + apply negb_true_iff. now apply Ascii.eqb_neq.
    + destruct s; [reflexivity|]. apply IH; [reflexivity | assumption].
  - intros ->. discriminate.
  - intros ->. discriminate.
  - intros ->. discriminate.
Qed.

Variable w : world.

Lemma all_rejected {A} (ps : list (promise A)) :
  Exists (fun p => exists e, p = Rejected e) ps ->
  exists e, In (Rejected e) ps /\ all ps = Rejected e.
Proof.
  induction ps as [|p ps IH]; intros H; [inversion H|].
  destruct p as [a|e]; simpl.
  - destruct IH as [e [Hin He]].
    + inversion H as [? ? [e He]|]; [discriminate | assumption].
    + exists e. rewrite He. auto.
  - exists e. auto.
Qed.

(** X26. With a clean working directory and an [apis] directory, every
    entry of the directory is taken for an API, in the order of the
    directory: [loadApi] is given the module [<cwd>/apis/<entry>/spec]
    and the name of the entry as identifier. When no plugin hooks the
    loading, the APIs loaded are resolved in that order; and when some
    loading is rejected and no rejection is an ENOENT, [loadApis] is
    rejected with the error of a rejected loading. *)
Theorem loadApis_in_directory_order l entries :
  cwd w = rooted l ->
  l <> [] -> Forall (fun x => entryName x = true) l ->
  fs w (rooted (l ++ ["apis"])) = Some (Dir entries) ->
  Forall (fun kn => entryName (fst kn) = true) entries ->
  forallb (fun p => negb (implements "beforeApisLoad" p)) (plugins w) = true ->
  forallb (fun p => negb (implements "afterApisLoad" p)) (plugins w) = true ->
  let loads := map (fun kn => loadApi w (rooted (l ++ ["apis"; fst kn; "spec"])) (fst kn))
                 entries in
  (forall apis, all loads = Resolved apis -> loadApis w = Resolved (ArrayV apis))
  /\ (Exists (fun p => exists e, p = Rejected e) loads ->
      Forall (fun p => forall e, p = Rejected e -> code e <> Some "ENOENT") loads ->
      exists e, In (Rejected e) loads /\ loadApis w = Rejected e).
Proof.
  intros Hcwd Hl H Hfs Hentries Hbefore Hafter loads.
  assert (Hapis : Js.path_join [cwd w; "apis"] = rooted (l ++ ["apis"])).
  { rewrite Hcwd. apply path_join_names; [assumption | assumption | now repeat constructor]. }
  assert (Hloads :
    map (fun subdir => loadApi w (Js.path_join [rooted (l ++ ["apis"]); subdir; "spec"])
                         subdir) (map fst entries) = loads).
  { subst loads. rewrite map_map. apply map_ext_in. intros kn Hin.
    rewrite Forall_forall in Hentries. specialize (Hentries kn Hin).
    rewrite (path_join_names (l ++ ["apis"]) [fst kn; "spec"]).
    - now rewrite <- app_assoc.
    - now destruct l.
    - apply Forall_app. split; [assumption | now repeat constructor].
    - constructor; [assumption | now repeat constructor]. }
  unfold loadApis. cbv zeta. rewrite Hapis.
  rewrite fire_unhooked by assumption. cbn [bind].
  unfold readdirAsync. rewrite Hfs. cbn [bind]. rewrite Hloads. split.
  - intros apis ->. cbn [bind]. rewrite fire_unhooked by assumption. reflexivity.
  - intros Hrej Hcodes. destruct (all_rejected _ Hrej) as [e [Hin He]].
    exists e. split; [exact Hin|]. rewrite He. cbn [bind catch].
    destruct (eq_code e "ENOENT") eqn:E; [|reflexivity].
    apply eq_code_spec in E. rewrite Forall_forall in Hcodes.
    now destruct (Hcodes _ Hin e eq_refl).
Qed.

(** X27. An identifier that the prompt of [create-api] accepts is the
    name of a directory entry, and the command writes the specification
    of the API where [loadApis] looks for it: with a clean working
    directory, the directory created is [<cwd>/apis/<identifier>], the
    file written in it is [spec.json], and its path is the module that
    [loadApis] requires for the sub-directory [<identifier>], with the
    extension [.json]. Nothing is written when the directory cannot be
    created. *)
Theorem create_api_round_trip l mkdirpAsync writeFileAsync params :
  l <> [] -> Forall (fun x => entryName x = true) l ->
  CreateApi.validate (CreateApi.apiIdentifier params) = true ->
  let identifier := CreateApi.apiIdentifier params in
  let dir := rooted (l ++ ["apis"; identifier]) in
  let file := rooted (l ++ ["apis"; identifier; "spec.json"]) in
  let out := CreateApi.performTask (rooted l) mkdirpAsync writeFileAsync params in
  entryName identifier = true
  /\ (CreateApi.requiredBy (rooted l) identifier ++ ".json")%string = file
  /\ (forall e, mkdirpAsync dir = Rejected e ->
        out = ([CreateApi.Mkdirp dir], Rejected e))
  /\ (mkdirpAsync dir = Resolved tt ->
      exists rest,
        fst out = CreateApi.Mkdirp dir
                  :: CreateApi.WriteFile file (CreateApi.document params) :: rest
        /\ (forall e, writeFileAsync file (CreateApi.document params) = Rejected e ->
              rest = [] /\ snd out = Rejected e)
        /\ (writeFileAsync file (CreateApi.document params) = Resolved tt ->
              snd out = Resolved tt)).
Proof.
  intros Hl H Hvalid identifier dir file out.
  pose proof (validate_entryName _ Hvalid) as Hid. fold identifier in Hid.
  assert (Hdir : Js.path_join [rooted l; "apis"; identifier] = dir).
  { apply path_join_names; [assumption | assumption |].
    constructor; [reflexivity | now repeat constructor]. }
  assert (Hfile : (dir ++ Js.sep ++ "spec.json")%string = file).
  { subst dir file.
    change ["apis"; identifier; "spec.json"] with (["apis"; identifier] ++ ["spec.json"]).
    rewrite (app_assoc l). rewrite (rooted_snoc (l ++ ["apis"; identifier]));
      [reflexivity | now destruct l]. }
  split; [assumption|]. split; [|split].
  - unfold CreateApi.requiredBy.
    rewrite (path_join_names l ["apis"]) by (assumption || now repeat constructor).
    rewrite (path_join_names (l ++ ["apis"]) [identifier; "spec"]).
    + subst file. rewrite <- app_assoc. simpl app.
      change ["apis"; identifier; "spec"] with (["apis"; identifier] ++ ["spec"]).
      change ["apis"; identifier; "spec.json"] with (["apis"; identifier] ++ ["spec.json"]).
      rewrite !(app_assoc l). apply rooted_suffix.
    + now destruct l.
    + apply Forall_app. split; [assumption | now repeat constructor].
    + constructor; [assumption | now repeat constructor].
  - intros e He. subst out. unfold CreateApi.performTask.
    fold identifier. rewrite Hdir, He. reflexivity.
  - intros Hmk. subst out. unfold CreateApi.performTask.
    fold identifier. rewrite Hdir, Hmk, Hfile.
    destruct (writeFileAsync file (CreateApi.document params)) as [[]|e] eqn:E.
    + eexists. split; [reflexivity|]. split; [discriminate | reflexivity].
    + eexists. split; [reflexivity|]. split; [|discriminate].
      intros e' [= <-]. split; reflexivity.
Qed.

End ApiFiles.

Section ApiFilesExamples.
Import Async Lodash Lager ApiGateway Levels Samples.

Lemma create_api_round_trip_witness :
  entryName "back-office" = true
  /\ (CreateApi.requiredBy "/app" "back-office" ++ ".json")%string
     = "/app/apis/back-office/spec.json"%string.
Proof.
  refine (let H := create_api_round_trip ["app"] (fun _ => Resolved tt)
                     (fun _ _ => Resolved tt)
                     (CreateApi.mkParameters "back-office" (Some "Back office") None
                        None None) _ _ eq_refl in
          conj (proj1 H) (proj1 (proj2 H))).
  - discriminate.
  - repeat constructor.
Defined.

Lemma loadApis_in_directory_order_witness :
  loadApis MoreSamples.apisWorld
  = Resolved (ArrayV [ApiV (mkApi [("x-lager", VObj [("identifier", VStr "front")])]);
                      ApiV (mkApi [("x-lager", VObj [("identifier", VStr "back")])])]).
Proof.
  refine (proj1 (loadApis_in_directory_order MoreSamples.apisWorld ["app"]
                   [("front", Dir [("spec.json", File)]);
                    ("back", Dir [("spec.json", File)])]
                   eq_refl _ _ eq_refl _ eq_refl eq_refl) _ eq_refl).
  - discriminate.
  - repeat constructor.
  - repeat constructor.
Defined.

End ApiFilesExamples.

(* ===================================================================== *)
(** ** The root directory of the project                                  *)
(* ===================================================================== *)

Section ProjectRootFacts.
Import Async Lodash Levels ProjectRoot.

Lemma chars_append (a b : string) :
  list_ascii_of_string (a ++ b) = list_ascii_of_string a ++ list_ascii_of_string b.
Proof. induction a as [|c a IH]; simpl; [reflexivity | now rewrite IH]. Qed.

Lemma noSeparator_chars x :
  noSeparator x = true -> Forall (fun c => isSep c = false) (list_ascii_of_string x).
Proof.
  induction x as [|c x IH]; simpl; intros H; [constructor|].
  apply andb_prop in H. destruct H as [Hc Hx].
  constructor; [now apply negb_true_iff in Hc | auto].
Qed.

Lemma dropWhile_all {A} (f : A -> bool) l r :
  Forall (fun x => f x = true) l -> dropWhile f (l ++ r) = dropWhile f r.
Proof.
  induction l as [|x l IH]; intros H; simpl; [reflexivity|].
  inversion H as [|? ? Hx Hl]; subst. rewrite Hx. auto.
Qed.

Lemma dropWhile_stop {A} (f : A -> bool) l :
  match l with [] => True | x :: _ => f x = false end -> dropWhile f l = l.
Proof. destruct l as [|x l]; [reflexivity|]. simpl. now intros ->. Qed.

Lemma append_longer (a b : string) : b <> ""%string -> (a ++ b)%string <> a.
Proof.
  intros Hb. induction a as [|c a IH]; simpl; [assumption|].
  intros [= E]. contradiction.
Qed.

Lemma join_names_not_empty l :
  l <> [] -> Forall (fun x => entryName x = true) l -> Js.join "/" l <> ""%string.
Proof.
  intros Hl H. destruct l as [|x l]; [congruence|].
  inversion H as [|? ? Hx _]; subst. apply entryName_inv in Hx. destruct Hx as [Hx _].
  destruct l as [|y l]; [exact Hx|].
  rewrite join_cons. destruct x; [congruence | discriminate].
Qed.

(** The parent of a clean absolute directory. *)
Lemma dirname_rooted_snoc l x :
  Forall (fun x => entryName x = true) l -> entryName x = true ->
  dirname (rooted (l ++ [x])) = match l with [] => "/"%string | _ :: _ => rooted l end.
Proof.
  intros H Hx. apply entryName_inv in Hx. destruct Hx as (Hne & _ & _ & Hsep).
  pose proof (noSeparator_chars x Hsep) as Hchars.
  assert (Hrev : Forall (fun c => negb (isSep c) = true) (rev (list_ascii_of_string x))).
  { apply Forall_rev. eapply Forall_impl; [|exact Hchars].
    intros c Hc. simpl in Hc. now rewrite Hc. }
  assert (Hhead : match rev (list_ascii_of_string x) with
                  | [] => False
                  | c :: _ => isSep c = false
                  end).
  { destruct (rev (list_ascii_of_string x)) as [|c r] eqn:E.
    - apply (f_equal (@rev ascii)) in E. rewrite rev_involutive in E. simpl in E.
      destruct x; [congruence | discriminate].
    - inversion Hrev as [|? ? Hc _]; subst. now apply negb_true_iff in Hc. }
  destruct l as [|y l].
  - change (rooted ([] ++ [x])) with (String "/" x). unfold dirname. cbv zeta.
    rewrite (dropWhile_stop isSep)
      by (destruct (rev (list_ascii_of_string x)); [exact I | exact Hhead]).
    rewrite <- (app_nil_r (rev (list_ascii_of_string x))).
    rewrite dropWhile_all by assumption. reflexivity.
  - set (l' := y :: l) in *.
    assert (Hl' : l' <> []) by discriminate.
    unfold rooted at 1. rewrite join_app_names by (assumption || discriminate).
    change (Js.join "/" [x]) with x.
    change ("/" ++ (Js.join "/" l' ++ String "/" x))%string
      with (String "/" (Js.join "/" l' ++ String "/" x)).
    unfold dirname. cbv zeta.
    rewrite chars_append. cbn [list_ascii_of_string]. rewrite rev_app_distr.
    cbn [rev]. rewrite <- !app_assoc. cbn [app].
    rewrite (dropWhile_stop isSep).
    2: { destruct (rev (list_ascii_of_string x)); [contradiction | exact Hhead]. }
    rewrite dropWhile_all by assumption. cbn [dropWhile].
    change (negb (isSep "/")) with false. cbv iota.
    change (isSep "/") with true. cbn [andb].
    rewrite length_rev.
    pose proof (join_names_not_empty l' Hl' H) as Hjoin.
    destruct (Js.join "/" l') as [|c j] eqn:E; [congruence|].
    cbn [list_ascii_of_string length Nat.eqb].
    rewrite rev_involutive. cbn [string_of_list_ascii].
    rewrite string_of_list_ascii_of_string.
    unfold rooted. now rewrite E.
Qed.

Lemma rooted_not_its_parent l :
  l <> [] -> Forall (fun x => entryName x = true) l ->
  (dirname (rooted l) =? dirname (dirname (rooted l)))%string
  = match removelast l with [] => true | _ :: _ => false end.
Proof.
  intros Hl H. destruct (exists_last Hl) as [l' [x ->]].
  apply Forall_app in H. destruct H as [H Hx]. inversion Hx as [|? ? Hx' _]; subst.
  rewrite removelast_last, dirname_rooted_snoc by assumption.
  destruct l' as [|y l']; [reflexivity|].
  set (m := y :: l') in *. assert (Hm : m <> []) by discriminate.
  destruct (exists_last Hm) as [m' [z E]]. rewrite E in *.
  apply Forall_app in H. destruct H as [H Hz]. inversion Hz as [|? ? Hz' _]; subst.
  rewrite dirname_rooted_snoc by assumption.
  apply String.eqb_neq.
  destruct m' as [|u m'].
  - change (rooted ([] ++ [z])) with (String "/" z). intros [= Ez].
    apply entryName_inv in Hz'. now destruct Hz'.
  - rewrite rooted_snoc by discriminate. now apply append_longer.
Qed.

Variable require : string -> result value.

Lemma getProjectRootDirectoryFrom_step cwd :
  getProjectRootDirectoryFrom require cwd
  = if found require cwd then Some cwd
    else if (dirname cwd =? dirname (dirname cwd))%string then None
    else getProjectRootDirectoryFrom require (dirname cwd).
Proof.
  funelim (getProjectRootDirectoryFrom require cwd).
  - now rewrite e.
  - now rewrite e, e0.
  - now rewrite e, H.
Qed.

(** X28. From a clean working directory, the root of the project is
    the nearest directory, from the working directory upward, whose
    [package.json] lists [@lager/lager] among its dependencies or its
    development dependencies; the root of the file system is not looked
    at, and when no directory qualifies the answer is [false]. Started
    in the root of the file system, the search looks at that directory
    only. *)
Theorem getProjectRootDirectory_nearest l :
  Forall (fun x => entryName x = true) l ->
  match l with
  | [] =>
      getProjectRootDirectoryFrom require "/"
      = if found require "/" then Some "/"%string else None
  | _ :: _ =>
      match getProjectRootDirectoryFrom require (rooted l) with
      | Some d =>
          exists k, 0 < k <= length l
                    /\ d = rooted (firstn k l)
                    /\ found require d = true
                    /\ forall j, k < j <= length l ->
                                 found require (rooted (firstn j l)) = false
      | None =>
          forall k, 0 < k <= length l -> found require (rooted (firstn k l)) = false
      end
  end.
Proof.
  induction l as [|x l IH] using rev_ind; intros H.
  - rewrite getProjectRootDirectoryFrom_step. reflexivity.
  - apply Forall_app in H. destruct H as [H Hx].
    assert (Hall : Forall (fun x => entryName x = true) (l ++ [x]))
      by (apply Forall_app; now split).
    specialize (IH H).
    destruct (l ++ [x]) as [|y m] eqn:E; [now destruct l|]. rewrite <- E in *.
    rewrite getProjectRootDirectoryFrom_step.
    destruct (found require (rooted (l ++ [x]))) eqn:Hfound.
    + exists (length (l ++ [x])). rewrite firstn_all.
      repeat split; try assumption; try lia. rewrite length_app. simpl. lia.
    + rewrite rooted_not_its_parent by (assumption || now destruct l).
      rewrite removelast_last.
      inversion Hx as [|? ? Hx' _]; subst.
      destruct l as [|z l].
      * intros k Hk. simpl in Hk. assert (k = 1) by lia. subst k. exact Hfound.
      * rewrite dirname_rooted_snoc by assumption.
        cbv iota in IH |- *. clear E y m.
        remember (z :: l) as l' eqn:El'.
        destruct (getProjectRootDirectoryFrom require (rooted l')) as [d|].
        -- destruct IH as [k (Hk & Hd & Hf & Hdeeper)].
           exists k. rewrite length_app. simpl.
           split; [lia|]. split; [|split; [assumption|]].
           ++ rewrite firstn_app. replace (k - length l') with 0 by lia.
              simpl. now rewrite app_nil_r.
           ++ intros j Hj. destruct (Nat.eq_dec j (length l' + 1)) as [->|Hne].
              ** rewrite <- (length_app l' [x]) at 1. now rewrite firstn_all.
              ** rewrite firstn_app. replace (j - length l') with 0 by lia.
                 simpl. rewrite app_nil_r. apply Hdeeper. lia.
        -- intros k Hk. rewrite length_app in Hk. simpl in Hk.
           destruct (Nat.eq_dec k (length l' + 1)) as [->|Hne].
           ++ rewrite <- (length_app l' [x]) at 1. now rewrite firstn_all.
           ++ rewrite firstn_app. replace (k - length l') with 0 by lia.
              simpl. rewrite app_nil_r. apply IH. lia.
Qed.

End ProjectRootFacts.

Section ProjectRootExamples.
Import Async Lodash Levels ProjectRoot.

Lemma getProjectRootDirectory_nearest_witness :
  getProjectRootDirectoryFrom nestedProjects "/home/dev/work/api/src/cli"
  = Some "/home/dev/work/api"%string
  /\ getProjectRootDirectoryFrom nestedProjects "/home" = None.
Proof.
  assert (H3 := getProjectRootDirectory_nearest nestedProjects ["home"]
                  ltac:(repeat constructor)).
  assert (H1 := getProjectRootDirectory_nearest nestedProjects
                  ["home"; "dev"; "work"; "api"; "src"; "cli"]
                  ltac:(repeat constructor)).
  cbv beta iota in H1, H3.
  change (rooted ["home"; "dev"; "work"; "api"; "src"; "cli"])
    with "/home/dev/work/api/src/cli"%string in H1.
  change (rooted ["home"]) with "/home"%string in H3.
  split.
  - destruct (getProjectRootDirectoryFrom nestedProjects "/home/dev/work/api/src/cli")
      as [d|].
    + destruct H1 as [k (Hk & -> & Hf & Hdeeper)].
      simpl in Hk.
      assert (Hcases : k = 1 \/ k = 2 \/ k = 3 \/ k = 4 \/ k = 5 \/ k = 6) by lia.
      destruct Hcases as [->|[->|[->|[->|[->| ->]]]]];
        try (vm_compute in Hf; discriminate Hf).
      * specialize (Hdeeper 4 ltac:(simpl; lia)). vm_compute in Hdeeper.
        discriminate Hdeeper.
      * reflexivity.
    + specialize (H1 4 ltac:(simpl; lia)). vm_compute in H1. discriminate H1.
  - destruct (getProjectRootDirectoryFrom nestedProjects "/home") as [d|]; [|reflexivity].
    destruct H3 as [k (Hk & -> & Hf & _)]. simpl in Hk.
    assert (k = 1) by lia. subst k. vm_compute in Hf. discriminate Hf.
Defined.

End ProjectRootExamples.

(* ===================================================================== *)
(** ** The configuration given by environment variables                   *)
(* ===================================================================== *)

Section ProjectConfigFacts.
Import Async Lodash ProjectConfig.

Lemma addParts_last config part value :
  addParts config [part] value
  = match lookup part config with
    | None =>
        if part =? "__proto__" then Done config
        else Done (assign part (leaf value) config)
    | Some _ => Done (assign part (leaf value) config)
    end.
Proof. reflexivity. Qed.

Lemma addParts_step config part part' rest value :
  addParts config (part :: part' :: rest) value
  = match match lookup part config with
          | Some v => Some (if ProjectRoot.truthy_value v then v else VObj [])
          | None => if Js.inherited part then None else Some (VObj [])
          end with
    | None => InheritedMember
    | Some (VObj o) =>
        match addParts o (part' :: rest) value with
        | Done o' => Done (assign part (VObj o') config)
        | other => other
        end
    | Some (VArr _) => ArrayProperty
    | Some _ => Throws typeError
    end.
Proof. reflexivity. Qed.

Lemma passable_step config part part' rest :
  passable config (part :: part' :: rest)
  = match lookup part config with
    | Some (VObj o) => passable o (part' :: rest)
    | Some v => negb (ProjectRoot.truthy_value v) && passable [] (part' :: rest)
    | None => negb (Js.inherited part) && passable [] (part' :: rest)
    end.
Proof. reflexivity. Qed.

Lemma get_step config part part' rest :
  get config (part :: part' :: rest)
  = match lookup part config with
    | Some (VObj o) => get o (part' :: rest)
    | _ => None
    end.
Proof. reflexivity. Qed.

(** The words between two separators hold no separator. *)
Lemma split_words c s :
  Forall (fun w => ~ In c (list_ascii_of_string w)) (Js.split c s).
Proof.
  induction s as [|x s IH]; simpl.
  - constructor; [simpl; tauto | constructor].
  - destruct (Ascii.eqb_spec x c) as [->|Hne].
    + constructor; [simpl; tauto | exact IH].
    + destruct (Js.split c s) as [|w ws]; [constructor; [|constructor]|].
      * simpl. intuition congruence.
      * inversion IH as [|? ? Hw Hws]; subst.
        constructor; [|assumption]. simpl. intuition congruence.
Qed.

Lemma addParts_get parts : forall config value config',
  parts <> [] ->
  ~ In "__proto__" parts ->
  addParts config parts value = Done config' ->
  get config' parts = Some (leaf value)
  /\ forall key, key <> hd ""%string parts -> lookup key config' = lookup key config.
Proof.
  induction parts as [|part rest IH]; intros config value config' Hne Hproto; [congruence|].
  destruct rest as [|part' rest].
  - rewrite addParts_last. cbn [get hd]. intros Hdone.
    assert (Hp : (part =? "__proto__") = false)
      by (apply String.eqb_neq; intros ->; apply Hproto; now left).
    rewrite Hp in Hdone.
    assert (Hc : config' = assign part (leaf value) config)
      by (destruct (lookup part config); congruence).
    subst config'.
    split; [apply lookup_assign_same|].
    intros key Hk. apply lookup_assign_other. congruence.
  - rewrite addParts_step.
    remember (match lookup part config with
              | Some v => Some (if ProjectRoot.truthy_value v then v else VObj [])
              | None => if Js.inherited part then None else Some (VObj [])
              end) as child eqn:Echild.
    clear Echild. destruct child as [[| | | | |o]|]; try discriminate.
    destruct (addParts o (part' :: rest) value) as [o'| | |] eqn:E; try discriminate.
    intros Hdone.
    assert (Hc : config' = assign part (VObj o') config) by congruence.
    subst config'. split.
    + rewrite get_step, lookup_assign_same.
      apply (IH o value o'); [discriminate | | exact E].
      intros Hin. apply Hproto. now right.
    + intros key Hk. apply lookup_assign_other. simpl in Hk. congruence.
Qed.

Lemma addParts_passable parts : forall config value,
  (exists config', addParts config parts value = Done config')
  <-> passable config parts = true.
Proof.
  induction parts as [|part rest IH]; intros config value.
  - simpl. split; [reflexivity | eauto].
  - destruct rest as [|part' rest].
    + rewrite addParts_last. cbn [passable]. split; [reflexivity|]. intros _.
      destruct (lookup part config); [eauto|].
      destruct (part =? "__proto__"); eauto.
    + rewrite addParts_step, passable_step.
      assert (Hin : forall o,
        (exists config',
           match addParts o (part' :: rest) value with
           | Done o' => Done (assign part (VObj o') config)
           | other => other
           end = Done config')
        <-> passable o (part' :: rest) = true).
      { intros o. rewrite <- (IH o value).
        destruct (addParts o (part' :: rest) value); split; eauto;
          intros [c H]; discriminate. }
      destruct (lookup part config) as [[|b|n|s|items|o]|];
        cbn [ProjectRoot.truthy_value].
      * cbn [negb andb]. apply Hin.
      * destruct b; cbn [negb andb]; [|apply Hin].
        split; [intros [c H]; discriminate | discriminate].
      * destruct (n =? 0)%Z; cbn [negb andb]; [apply Hin|].
        split; [intros [c H]; discriminate | discriminate].
      * destruct (Js.truthy_string s); cbn [negb andb]; [|apply Hin].
        split; [intros [c H]; discriminate | discriminate].
      * cbn [negb andb]. split; [intros [c H]; discriminate | discriminate].
      * apply Hin.
      * destruct (Js.inherited part); cbn [negb andb]; [|apply Hin].
        split; [intros [c H]; discriminate | discriminate].
Qed.

(** X29. Once [lager.json] is loaded, the variable
    [LAGER_<part>_..._<part>] is added to the configuration exactly when
    every value that stands on the way of its parts is an object or is
    falsy, and no part on the way is a name that the object inherits
    from [Object.prototype] without owning it (such as [constructor] or
    [toString]). The value is then found by following the parts through
    the nested objects: the boolean [false] for the string ['false'],
    the string itself otherwise; the properties of the configuration
    under other names than the first part are unchanged. A variable
    whose name does not start with [LAGER_] changes nothing. *)
Theorem environment_variable_round_trip config name value :
  let parts := Js.split "_" name in
  ((exists config', addVariable config ("LAGER_" ++ name) value = Done config')
   <-> passable config parts = true)
  /\ (forall config',
        addVariable config ("LAGER_" ++ name) value = Done config' ->
        get config' parts = Some (if value =? "false" then VBool false else VStr value)
        /\ forall key, key <> hd ""%string parts ->
                       lookup key config' = lookup key config)
  /\ (forall key, ProjectConfig.substring0 6 key <> "LAGER_"%string ->
                  addVariable config key value = Done config).
Proof.
  intros parts.
  assert (E : addVariable config ("LAGER_" ++ name) value = addParts config parts value)
    by reflexivity.
  rewrite E. split; [|split].
  - apply addParts_passable.
  - intros config' H. apply (addParts_get parts config value config');
      [apply split_not_nil | | exact H].
    intros Hin. pose proof (split_words "_" name) as Hw.
    rewrite Forall_forall in Hw. apply (Hw _ Hin). simpl. tauto.
  - intros key Hk. unfold addVariable.
    apply String.eqb_neq in Hk. now rewrite Hk.
Qed.

(** A variable whose path goes through an inherited member is not added
    to the configuration. *)
Example constructor_variable :
  addVariable [] "LAGER_constructor_name" "x" = InheritedMember
  /\ passable [] (Js.split "_" "constructor_name") = false.
Proof. split; reflexivity. Qed.

End ProjectConfigFacts.

Section ProjectConfigExamples.
Import Async Lodash ProjectConfig.

Lemma environment_variable_round_trip_witness :
  exists config',
    addVariable [("lambda", VObj [("alias", VStr "v0")])] "LAGER_lambda_publish" "false"
    = Done config'
    /\ get config' ["lambda"; "publish"] = Some (VBool false).
Proof.
  destruct (environment_variable_round_trip
              [("lambda", VObj [("alias", VStr "v0")])] "lambda_publish" "false")
    as (Hdone & Hget & _).
  destruct (proj2 Hdone eq_refl) as [config' Hc].
  exists config'. split; [exact Hc|].
  exact (proj1 (Hget config' Hc)).
Defined.

End ProjectConfigExamples.

(* ===================================================================== *)
(** ** The event examples of a Lambda                                     *)
(* ===================================================================== *)

Section LambdaEventsFacts.
Import Async ApiGateway Levels ProjectRoot LambdaEvents.

Lemma dropWhile_prefix {A} (f : A -> bool) l :
  exists pre, l = pre ++ dropWhile f l /\ Forall (fun x => f x = true) pre.
Proof.
  induction l as [|x l [pre [E H]]]; simpl.
  - exists []. split; [reflexivity | constructor].
  - destruct (f x) eqn:Hx.
    + exists (x :: pre). split; [simpl; now rewrite <- E | now constructor].
    + exists []. split; [reflexivity | constructor].
Qed.

Lemma string_of_chars_append l l' :
  string_of_list_ascii (l ++ l')
  = (string_of_list_ascii l ++ string_of_list_ascii l')%string.
Proof. induction l as [|c l IH]; simpl; [reflexivity | now rewrite IH]. Qed.

Lemma chars_length s : length (list_ascii_of_string s) = String.length s.
Proof. induction s; simpl; auto. Qed.

Lemma string_of_chars_length l : String.length (string_of_list_ascii l) = length l.
Proof. induction l; simpl; auto. Qed.

Lemma skipn_length_app {A} (l l' : list A) : skipn (length l) (l ++ l') = l'.
Proof. induction l; simpl; auto. Qed.

Lemma substring0_length_append (a b : string) :
  ProjectConfig.substring0 (String.length a) (a ++ b) = a.
Proof.
  induction a as [|c a IH]; simpl; [now destruct b | now rewrite IH].
Qed.

Lemma length_append (a b : string) :
  String.length (a ++ b) = String.length a + String.length b.
Proof. induction a; simpl; auto. Qed.

(** A base name with an extension is its name followed by its
    extension, and the name is not empty. *)
Lemma extOf_splits base :
  extOf base <> ""%string ->
  base = (nameOf base ++ extOf base)%string /\ nameOf base <> ""%string.
Proof.
  unfold nameOf, extOf.
  destruct (dropWhile_prefix (fun c => negb (isDot c)) (rev (list_ascii_of_string base)))
    as [pre [E _]].
  destruct (dropWhile (fun c => negb (isDot c)) (rev (list_ascii_of_string base)))
    as [|dot before]; [congruence|].
  destruct ((length before =? 0)%nat || (base =? "..")%string) eqn:Hcond; [congruence|].
  intros _. apply orb_false_elim in Hcond. destruct Hcond as [Hbefore _].
  apply Nat.eqb_neq in Hbefore.
  assert (Hchars : list_ascii_of_string base = rev before ++ dot :: rev pre).
  { rewrite <- (rev_involutive (list_ascii_of_string base)), E, rev_app_distr.
    simpl. now rewrite <- app_assoc. }
  rewrite Hchars. rewrite <- (length_rev before), skipn_length_app.
  assert (Hbase : base = (string_of_list_ascii (rev before)
                          ++ string_of_list_ascii (dot :: rev pre))%string).
  { rewrite <- string_of_chars_append, <- Hchars.
    now rewrite string_of_list_ascii_of_string. }
  assert (Hlen : String.length base - String.length (string_of_list_ascii (dot :: rev pre))
                 = String.length (string_of_list_ascii (rev before))).
  { rewrite Hbase at 1. rewrite length_append. lia. }
  rewrite Hlen.
  assert (Hname : ProjectConfig.substring0
                    (String.length (string_of_list_ascii (rev before))) base
                  = string_of_list_ascii (rev before)).
  { rewrite Hbase at 1. apply substring0_length_append. }
  rewrite Hname. split; [exact Hbase|].
  intros Hempty. apply (f_equal String.length) in Hempty.
  rewrite string_of_chars_length, length_rev in Hempty. simpl in Hempty. contradiction.
Qed.

Lemma not_dots (n suffix : string) :
  (2 < String.length suffix) -> (n ++ suffix =? "..")%string = false.
Proof.
  intros H. apply String.eqb_neq. intros E. apply (f_equal String.length) in E.
  rewrite length_append in E. simpl in E. lia.
Qed.

Lemma extOf_js n :
  n <> ""%string ->
  extOf (n ++ ".js") = ".js"%string /\ nameOf (n ++ ".js") = n.
Proof.
  intros Hn.
  assert (Hext : extOf (n ++ ".js") = ".js"%string).
  { unfold extOf. rewrite chars_append, rev_app_distr. cbn [list_ascii_of_string rev app].
    cbn [dropWhile isDot Ascii.eqb Bool.eqb negb].
    rewrite length_rev, chars_length, not_dots by (simpl; lia).
    destruct (String.length n =? 0)%nat eqn:E.
    - apply Nat.eqb_eq in E. destruct n; [congruence | discriminate].
    - cbn [orb]. rewrite <- chars_length, skipn_length_app. reflexivity. }
  split; [exact Hext|].
  unfold nameOf. rewrite Hext, length_append. simpl String.length.
  replace (String.length n + 3 - 3) with (String.length n) by lia.
  apply substring0_length_append.
Qed.

Lemma extOf_json n :
  n <> ""%string ->
  extOf (n ++ ".json") = ".json"%string /\ nameOf (n ++ ".json") = n.
Proof.
  intros Hn.
  assert (Hext : extOf (n ++ ".json") = ".json"%string).
  { unfold extOf. rewrite chars_append, rev_app_distr. cbn [list_ascii_of_string rev app].
    cbn [dropWhile isDot Ascii.eqb Bool.eqb negb].
    rewrite length_rev, chars_length, not_dots by (simpl; lia).
    destruct (String.length n =? 0)%nat eqn:E.
    - apply Nat.eqb_eq in E. destruct n; [congruence | discriminate].
    - cbn [orb]. rewrite <- chars_length, skipn_length_app. reflexivity. }
  split; [exact Hext|].
  unfold nameOf. rewrite Hext, length_append. simpl String.length.
  replace (String.length n + 5 - 5) with (String.length n) by lia.
  apply substring0_length_append.
Qed.

(** The loop over the entries of the folder. *)
Lemma events_loop basePath eventFiles : forall events,
  Forall (fun f => entryName f = true) eventFiles ->
  fold_left
    (fun events eventFile =>
       let filePath := Js.path_join [basePath; eventFile] in
       let parse := parse filePath in
       if Js.includes (ext parse) [".js"; ".json"]
       then events ++ [name parse]
       else events)
    eventFiles events
  = events ++ flat_map (fun f => if Js.includes (extOf f) [".js"; ".json"]
                                 then [nameOf f] else []) eventFiles.
Proof.
  induction eventFiles as [|f eventFiles IH]; intros events H; cbn [fold_left flat_map].
  - now rewrite app_nil_r.
  - inversion H as [|? ? Hf Hrest]; subst.
    rewrite IH by assumption. cbv zeta. unfold parse. cbn [ext name].
    rewrite basename_path_join by assumption.
    destruct (Js.includes (extOf f) [".js"; ".json"]);
      [now rewrite <- app_assoc | reflexivity].
Qed.

Variable w : world.

(** X30. The event examples of a Lambda are the names, without the
    extension, of the entries of its [events] folder that end with
    [.js] or [.json] after a name that is not empty; a Lambda without
    an [events] folder has no example, and any other failure to read
    the folder is rejected. *)
Theorem getEventExamples_lists_events fsPath :
  (forall entries,
     fs w (Js.path_join [fsPath; "events"]) = Some (Dir entries) ->
     Forall (fun kn => entryName (fst kn) = true) entries ->
     exists events,
       getEventExamples w fsPath = Resolved events
       /\ forall n, In n events
                    <-> n <> ""%string
                        /\ exists f, In f (map fst entries)
                                     /\ (f = (n ++ ".js")%string
                                         \/ f = (n ++ ".json")%string))
  /\ (fs w (Js.path_join [fsPath; "events"]) = None ->
      getEventExamples w fsPath = Resolved [])
  /\ (fs w (Js.path_join [fsPath; "events"]) = Some File ->
      exists e, getEventExamples w fsPath = Rejected e /\ code e = Some "ENOTDIR"%string).
Proof.
  split; [|split].
  - intros entries Hfs Hentries. unfold getEventExamples, readdirAsync.
    rewrite Hfs. cbn [bind catch].
    rewrite events_loop by (apply Forall_map; exact Hentries).
    eexists. split; [reflexivity|].
    intros n. rewrite app_nil_l, in_flat_map. split.
    + intros [f [Hf Hn]].
      destruct (Js.includes (extOf f) [".js"; ".json"]) eqn:Hext; [|contradiction].
      destruct Hn as [<-|[]].
      apply includes_In in Hext.
      assert (Hne : extOf f <> ""%string)
        by (destruct Hext as [E|[E|[]]]; rewrite <- E; discriminate).
      destruct (extOf_splits f Hne) as [Hsplit Hname].
      split; [assumption|]. exists f. split; [assumption|].
      destruct Hext as [E|[E|[]]]; rewrite <- E in Hsplit; auto.
    + intros [Hn [f [Hf [E|E]]]]; exists f; (split; [assumption|]); subst f.
      * destruct (extOf_js n Hn) as [-> ->]. simpl. auto.
      * destruct (extOf_json n Hn) as [-> ->]. simpl. auto.
  - intros Hfs. unfold getEventExamples, readdirAsync. rewrite Hfs. reflexivity.
  - intros Hfs. unfold getEventExamples, readdirAsync. rewrite Hfs.
    eexists. split; reflexivity.
Qed.

End LambdaEventsFacts.

Section LambdaEventsExamples.
Import Async ApiGateway Levels LambdaEvents.

Example hello_events :
  getEventExamples helloWorld "/app/lambdas/hello" = Resolved ["created"; "deleted"].
Proof. reflexivity. Qed.

Lemma getEventExamples_lists_events_witness :
  exists events,
    getEventExamples helloWorld "/app/lambdas/hello" = Resolved events
    /\ In "created"%string events
    /\ ~ In ""%string events.
Proof.
  destruct (proj1 (getEventExamples_lists_events helloWorld "/app/lambdas/hello")
              [("created.json", File); ("README.md", File);
               ("deleted.js", File); (".json", File)]
              eq_refl ltac:(repeat constructor)) as [events [E H]].
  exists events. split; [exact E|]. split.
  - apply H. split; [discriminate|].
    exists "created.json"%string. split; [simpl; tauto | now right].
  - intros Hin. apply H in Hin. destruct Hin as [Hne _]. now apply Hne.
Defined.

End LambdaEventsExamples.
